(** * The matchmaking core of the random-chat server

    A shallow embedding of [server/src/socket/matchmaking.ts] (the
    [MatchmakingQueue] class and the per-socket search driver
    [handleMatchmaking]), [server/src/socket/index.ts] (the connection-level
    handlers) and [server/src/socket/chat.ts] (the chat relay).

    Conventions of the embedding
    - socket ids, user ids and regions are [string]s; JavaScript truthiness of
      a string ([if (s)]) is [jsTruthy]: the empty string is falsy;
    - a JavaScript [Map] whose iteration order matters is an insertion-ordered
      association list ([jsmap_*]); a [Map] that is only looked up is a
      [gmap]; a [Set] that is iterated is an insertion-ordered list
      ([jsset_*]); a [Set] that is only tested for membership is a [gset];
    - [Date.now()] and [Math.random()] are oracles of the [World]: the n-th
      call returns [now n] resp. [random n]; the [Runtime] counts the calls;
    - JavaScript numbers are binary64: scores are computed with the
      kernel's primitive floats ([float]), with the operations of the code
      in the order of the code; timestamps, wait times and counters are
      integers ([Z]) of magnitude below 2^53, on which the arithmetic of
      JavaScript is exact, and they enter a score through [Z2F];
    - a tier is whatever string the client sent ([preferences] is untyped
      in [addUser]); only 'free', 'premium' and 'pro' have a bucket, and
      the [if (bucket)] guards are modelled; genders are the union type of
      the [QueuedUser] interface; [addUser], the only constructor of a
      [QueuedUser], always stores [preferences] with a [tier] and a
      [blockedUsers] set;
    - an emission is recorded in the [outbox] with its addressee; the match
      rooms ([socket.join], [socketsJoin], [leave]) are never emitted to and
      are left out, as are the constant [message] field of 'searching' and
      logging ([console.log], [logger.debug]);
    - a handler that awaits [Block.find] is split at the [await]: the
      continuation runs when the event loop is given the result. *)

From Stdlib Require Import ZArith QArith Qround String List Lia Lqa Permutation Sorted.
From Stdlib Require Import Floats.
From stdpp Require Import gmap strings list fin_maps.

Local Open Scope Z_scope.

(** ** JavaScript values *)

Definition jsTruthy (s : string) : bool := negb (String.eqb s "").

(** Insertion-ordered [Map<string, V>]. *)
Section JSMap.
Context {V : Type}.

Fixpoint jsmap_get (k : string) (m : list (string * V)) : option V :=
  match m with
  | [] => None
  | (k', v) :: rest => if String.eqb k k' then Some v else jsmap_get k rest
  end.

Definition jsmap_has (k : string) (m : list (string * V)) : bool :=
  match jsmap_get k m with Some _ => true | None => false end.

(** [Map.set]: an existing key keeps its position, a new key goes last. *)
Fixpoint jsmap_set (k : string) (v : V) (m : list (string * V)) : list (string * V) :=
  match m with
  | [] => [(k, v)]
  | (k', v') :: rest =>
      if String.eqb k k' then (k, v) :: rest else (k', v') :: jsmap_set k v rest
  end.

Fixpoint jsmap_delete (k : string) (m : list (string * V)) : list (string * V) :=
  match m with
  | [] => []
  | (k', v') :: rest =>
      if String.eqb k k' then jsmap_delete k rest else (k', v') :: jsmap_delete k rest
  end.

Definition jsmap_keys (m : list (string * V)) : list string := map fst m.
Definition jsmap_values (m : list (string * V)) : list V := map snd m.
Definition jsmap_size (m : list (string * V)) : Z := Z.of_nat (length m).
End JSMap.

(** Insertion-ordered [Set<string>]. *)
Definition jsset_has (x : string) (s : list string) : bool :=
  existsb (String.eqb x) s.

Definition jsset_add (x : string) (s : list string) : list string :=
  if jsset_has x s then s else s ++ [x].

Definition jsset_delete (x : string) (s : list string) : list string :=
  List.filter (fun y => negb (String.eqb x y)) s.

(** ** JavaScript numbers *)

(** The number an integer is (exact below 2^53, rounded to nearest above). *)
Definition Z2F (z : Z) : float := SF2Prim (binary_normalize prec emax z 0 false).

(** The number a rational stands for: exact when the rational is a binary64
    value [m / 2^e] written with [m] below 2^53, as every result of
    [Math.random()] is. *)
Definition Q2F (q : Q) : float := (Z2F (Qnum q) / Z2F (Zpos (Qden q)))%float.

(** [Math.min(a, b)]: NaN if one of the two is, and -0 is less than +0. *)
Definition jsMin (a b : float) : float :=
  if is_nan a || is_nan b then nan
  else if (b <? a)%float then b
  else if (a <? b)%float then a
  else if get_sign b then b else a.

(** ** The data model of [matchmaking.ts] *)

Inductive Gender := male | female | anyGender.
Inductive Tier := free | premium | pro.

Definition Gender_eqb (a b : Gender) : bool :=
  match a, b with
  | male, male | female, female | anyGender, anyGender => true
  | _, _ => false
  end.

(** The keys of [tierBuckets]. *)
Definition tierName (t : Tier) : string :=
  match t with
  | free => "free"
  | premium => "premium"
  | pro => "pro"
  end.

(** [tierBuckets.get(name)] finds a bucket for these three names only. *)
Definition tierOfName (name : string) : option Tier :=
  if String.eqb name "free" then Some free
  else if String.eqb name "premium" then Some premium
  else if String.eqb name "pro" then Some pro
  else None.

(** [tier || 'free'] *)
Definition tierOr (tier : string) : string :=
  if jsTruthy tier then tier else "free".

(** The [preferences] argument of [addUser] as the handlers build it.  The
    tier is what the client sent: any string (a tier that is no string
    finds no bucket either, and is not modelled apart). *)
Record PreferencesArg := {
  arg_gender : option Gender;
  arg_region : option string;
  arg_tier : option string;
  arg_blockedUserIds : option (list string)
}.

(** [QueuedUser.preferences]: [addUser] always stores an object, with [tier]
    already defaulted; the empty string stands for a missing tier. *)
Record Preferences := {
  gender : option Gender;
  region : option string;
  tier : string
}.

Record QueuedUser := {
  socketId : string;
  userId : string;
  preferences : Preferences;
  timestamp : Z;
  waitTime : Z;
  blockedUsers : gset string;
  searchAttempts : Z
}.

Record MatchCandidate := {
  user : QueuedUser;
  score : float;
  tierMatch : bool;
  waitTimeBonus : Z
}.

(** [tierBuckets]: the constructor inserts 'free', 'premium', 'pro' in this
    order, which is the order [entries()] yields them in. *)
Record TierBuckets := {
  freeBucket : list string;
  premiumBucket : list string;
  proBucket : list string
}.

Definition allTiers : list Tier := [free; premium; pro].

Definition bucketGet (t : Tier) (b : TierBuckets) : list string :=
  match t with
  | free => freeBucket b
  | premium => premiumBucket b
  | pro => proBucket b
  end.

Definition bucketUpdate (t : Tier) (f : list string -> list string) (b : TierBuckets)
  : TierBuckets :=
  match t with
  | free => {| freeBucket := f (freeBucket b); premiumBucket := premiumBucket b;
               proBucket := proBucket b |}
  | premium => {| freeBucket := freeBucket b; premiumBucket := f (premiumBucket b);
                  proBucket := proBucket b |}
  | pro => {| freeBucket := freeBucket b; premiumBucket := premiumBucket b;
              proBucket := f (proBucket b) |}
  end.

(** [const bucket = tierBuckets.get(tier); if (bucket) bucket.f(...)] *)
Definition bucketUpdateByName (tier : string) (f : list string -> list string)
    (b : TierBuckets) : TierBuckets :=
  match tierOfName tier with
  | Some t => bucketUpdate t f b
  | None => b
  end.

Record MatchmakingQueue := {
  queue : list (string * QueuedUser);
  matches : gmap string string;
  tierBuckets : TierBuckets;
  lastMatchAttempt : gmap string Z;
  socketIdToUserId : gmap string string
}.

Definition emptyQueue : MatchmakingQueue :=
  {| queue := [];
     matches := ∅;
     tierBuckets := {| freeBucket := []; premiumBucket := []; proBucket := [] |};
     lastMatchAttempt := ∅;
     socketIdToUserId := ∅ |}.

Definition withMatches (m : gmap string string) (q : MatchmakingQueue) : MatchmakingQueue :=
  {| queue := queue q; matches := m; tierBuckets := tierBuckets q;
     lastMatchAttempt := lastMatchAttempt q; socketIdToUserId := socketIdToUserId q |}.

Definition withQueue (l : list (string * QueuedUser)) (q : MatchmakingQueue)
  : MatchmakingQueue :=
  {| queue := l; matches := matches q; tierBuckets := tierBuckets q;
     lastMatchAttempt := lastMatchAttempt q; socketIdToUserId := socketIdToUserId q |}.

(** ** The oracles *)

Record World := {
  now : nat -> Z;          (* the n-th Date.now() *)
  random : nat -> Q;       (* the n-th Math.random() *)
  isProfane : string -> bool  (* bad-words' filter *)
}.

Record Runtime := {
  clockReads : nat;
  randomDraws : nat
}.

Definition startRuntime : Runtime := {| clockReads := 0; randomDraws := 0 |}.

Definition dateNow (W : World) (rt : Runtime) : Z * Runtime :=
  (now W (clockReads rt),
   {| clockReads := S (clockReads rt); randomDraws := randomDraws rt |}).

Definition mathRandom (W : World) (rt : Runtime) : Q * Runtime :=
  (random W (randomDraws rt),
   {| clockReads := clockReads rt; randomDraws := S (randomDraws rt) |}).

(** A clock that advances by one millisecond per read, and a generator that
    always draws one half: the concrete world of the examples. *)
Definition tickingWorld : World :=
  {| now := fun n => 1000 + Z.of_nat n;
     random := fun _ => (1 # 2)%Q;
     isProfane := fun s => String.eqb s "damn" |}.

(** ** [class MatchmakingQueue] *)

Definition isMatched (socketId : string) (q : MatchmakingQueue) : bool :=
  bool_decide (is_Some (matches q !! socketId)).

Definition getMatch (socketId : string) (q : MatchmakingQueue) : option string :=
  matches q !! socketId.

Definition getQueueSize (q : MatchmakingQueue) : Z := jsmap_size (queue q).

Definition removeUser (socketId : string) (keepMatch : bool) (q : MatchmakingQueue)
  : MatchmakingQueue :=
  let q1 :=
    match jsmap_get socketId (queue q) with
    | Some u =>
        {| queue := jsmap_delete socketId (queue q);
           matches := matches q;
           tierBuckets :=
             bucketUpdateByName (tierOr (tier (preferences u))) (jsset_delete socketId)
               (tierBuckets q);
           lastMatchAttempt := lastMatchAttempt q;
           socketIdToUserId := delete socketId (socketIdToUserId q) |}
    | None => q
    end in
  let q2 :=
    if keepMatch then q1
    else match matches q1 !! socketId with
         | Some matchedSocketId =>
             if jsTruthy matchedSocketId
             then withMatches (delete matchedSocketId (delete socketId (matches q1))) q1
             else q1
         | None => q1
         end in
  {| queue := queue q2; matches := matches q2; tierBuckets := tierBuckets q2;
     lastMatchAttempt := delete socketId (lastMatchAttempt q2);
     socketIdToUserId := socketIdToUserId q2 |}.

Definition addUser (W : World) (socketId userId : string)
    (preferences : option PreferencesArg) (q : MatchmakingQueue) (rt : Runtime)
  : MatchmakingQueue * Runtime :=
  let q1 := removeUser socketId false q in
  let tier := tierOr (default "" (preferences ≫= arg_tier)) in
  let blockedUsersSet : gset string :=
    match preferences ≫= arg_blockedUserIds with
    | Some ids => list_to_set ids
    | None => ∅
    end in
  let '(t, rt1) := dateNow W rt in
  let u :=
    {| socketId := socketId;
       userId := userId;
       preferences := {| gender := preferences ≫= arg_gender;
                         region := preferences ≫= arg_region;
                         tier := tier |};
       timestamp := t;
       waitTime := 0;
       blockedUsers := blockedUsersSet;
       searchAttempts := 0 |} in
  ({| queue := jsmap_set socketId u (queue q1);
      matches := matches q1;
      tierBuckets := bucketUpdateByName tier (jsset_add socketId) (tierBuckets q1);
      lastMatchAttempt := lastMatchAttempt q1;
      socketIdToUserId := <[socketId := userId]> (socketIdToUserId q1) |},
   rt1).

Definition createMatch (socketId1 socketId2 : string) (q : MatchmakingQueue)
  : MatchmakingQueue :=
  let q1 := withMatches (<[socketId2 := socketId1]> (<[socketId1 := socketId2]> (matches q))) q in
  removeUser socketId2 true (removeUser socketId1 true q1).

Definition clearMatch (socketId1 socketId2 : string) (q : MatchmakingQueue)
  : MatchmakingQueue :=
  withMatches (delete socketId2 (delete socketId1 (matches q))) q.

Definition getUserWaitTime (W : World) (socketId : string) (q : MatchmakingQueue)
    (rt : Runtime) : Z * Runtime :=
  match jsmap_get socketId (queue q) with
  | None => (0, rt)
  | Some u => let '(t, rt1) := dateNow W rt in (t - timestamp u, rt1)
  end.

(** [calculateMatchScore]: two clock reads and one random draw per call;
    every operation on the score is the binary64 one, in the order of the
    code. *)
Definition calculateMatchScore (W : World) (u candidate : QueuedUser) (tierMatch : bool)
    (rt : Runtime) : float * Runtime :=
  let score0 := (0 + (if tierMatch then 100 else 50))%float in
  let '(t1, rt1) := dateNow W rt in
  let userWaitTime := (Z2F t1 - Z2F (timestamp u))%float in
  let '(t2, rt2) := dateNow W rt1 in
  let candidateWaitTime := (Z2F t2 - Z2F (timestamp candidate))%float in
  let avgWaitTime := ((userWaitTime + candidateWaitTime) / 2)%float in
  let waitTimeBonus := jsMin 50 (avgWaitTime / 600)%float in
  let score1 := (score0 + waitTimeBonus)%float in
  let attemptsPenalty := jsMin 20 (Z2F (searchAttempts candidate) * 2)%float in
  let score2 := (score1 - attemptsPenalty)%float in
  let '(r, rt3) := mathRandom W rt2 in
  ((score2 + Q2F r * 10)%float, rt3).

Definition isBlockedPair (u candidate : QueuedUser) : bool :=
  bool_decide (userId candidate ∈ blockedUsers u)
  || bool_decide (userId u ∈ blockedUsers candidate).

Definition regionFilterRejects (u candidate : QueuedUser) : bool :=
  let hasRegionFilter :=
    match region (preferences u) with
    | Some r => jsTruthy r && negb (String.eqb r "any")
    | None => false
    end in
  hasRegionFilter &&
  match region (preferences u), region (preferences candidate) with
  | Some r, Some matchRegion =>
      negb (jsTruthy matchRegion) || String.eqb matchRegion "any"
      || negb (String.eqb r matchRegion)
  | _, None => true
  | None, Some _ => false
  end.

Definition genderFilterRejects (u candidate : QueuedUser) : bool :=
  let hasGenderFilter :=
    match gender (preferences u) with
    | Some g => negb (Gender_eqb g anyGender)
    | None => false
    end in
  hasGenderFilter &&
  match gender (preferences u), gender (preferences candidate) with
  | Some g, Some matchGender =>
      Gender_eqb matchGender anyGender || negb (Gender_eqb g matchGender)
  | _, None => true
  | None, Some _ => false
  end.

Definition areCompatible (q : MatchmakingQueue) (u candidate : QueuedUser) : bool :=
  if String.eqb (socketId candidate) (socketId u) then false
  else if isMatched (socketId candidate) q then false
  else if isBlockedPair u candidate then false
  else if regionFilterRejects u candidate then false
  else if genderFilterRejects u candidate then false
  else true.

(** One [candidates.push] of [findMatch]. *)
Definition pushCandidate (W : World) (u candidate : QueuedUser) (tierMatch : bool)
    (acc : list MatchCandidate * Runtime) : list MatchCandidate * Runtime :=
  let '(s, rt1) := calculateMatchScore W u candidate tierMatch (snd acc) in
  (fst acc ++ [{| user := candidate; score := s; tierMatch := tierMatch;
                  waitTimeBonus := waitTime candidate |}], rt1).

(** The loop over one tier bucket; phase 1 skips the caller's own id before
    the lookup ([skipSelf]), phase 2 does not. *)
Fixpoint scanBucket (W : World) (q : MatchmakingQueue) (callerId : string)
    (u : QueuedUser) (skipSelf tierMatch : bool) (bucket : list string)
    (acc : list MatchCandidate * Runtime) : list MatchCandidate * Runtime :=
  match bucket with
  | [] => acc
  | candidateSocketId :: rest =>
      let acc1 :=
        if skipSelf && String.eqb candidateSocketId callerId then acc
        else match jsmap_get candidateSocketId (queue q) with
             | None => acc
             | Some candidate =>
                 if areCompatible q u candidate
                 then pushCandidate W u candidate tierMatch acc
                 else acc
             end in
      scanBucket W q callerId u skipSelf tierMatch rest acc1
  end.

(** The loop over [tierBuckets.entries()] of phase 2. *)
Fixpoint scanCrossTier (W : World) (q : MatchmakingQueue) (callerId : string)
    (u : QueuedUser) (userTier : string) (tiers : list Tier)
    (acc : list MatchCandidate * Runtime) : list MatchCandidate * Runtime :=
  match tiers with
  | [] => acc
  | t :: rest =>
      let acc1 :=
        if String.eqb (tierName t) userTier then acc
        else scanBucket W q callerId u false false (bucketGet t (tierBuckets q)) acc in
      scanCrossTier W q callerId u userTier rest acc1
  end.

(** The relaxed loop over [queue.values()]: only the block lists filter. *)
Fixpoint scanRelaxed (W : World) (q : MatchmakingQueue) (callerId : string)
    (u : QueuedUser) (userTier : string) (values : list QueuedUser)
    (acc : list MatchCandidate * Runtime) : list MatchCandidate * Runtime :=
  match values with
  | [] => acc
  | candidate :: rest =>
      let acc1 :=
        if String.eqb (socketId candidate) callerId then acc
        else if isMatched (socketId candidate) q then acc
        else if isBlockedPair u candidate then acc
        else pushCandidate W u candidate
               (String.eqb (tier (preferences candidate)) userTier) acc in
      scanRelaxed W q callerId u userTier rest acc1
  end.

Definition isNil {A : Type} (l : list A) : bool :=
  match l with [] => true | _ => false end.

(** The three phases of [findMatch]: what [candidates] holds before the
    sort. *)
Definition collectCandidates (W : World) (q : MatchmakingQueue) (callerId : string)
    (u : QueuedUser) (rt : Runtime) : list MatchCandidate * Runtime :=
  let userTier := tierOr (tier (preferences u)) in
  let phase1 :=
    match tierOfName userTier with
    | Some t => scanBucket W q callerId u true true (bucketGet t (tierBuckets q)) ([], rt)
    | None => ([], rt)
    end in
  let shouldTryCrossTier := isNil (fst phase1) || (10000 <? waitTime u) in
  let phase2 :=
    if shouldTryCrossTier
    then scanCrossTier W q callerId u userTier allTiers phase1
    else phase1 in
  if isNil (fst phase2)
  then scanRelaxed W q callerId u userTier (jsmap_values (queue q)) phase2
  else phase2.

(** The comparator [(a, b) => b.score - a.score]. *)
Definition compareDesc (a b : MatchCandidate) : float := (score b - score a)%float.

(** [candidates.sort(compareDesc)]: [b] is moved before [a] when the
    comparator is positive; a negative, zero or NaN result leaves [a]
    first.  The sort is stable, so for a consistent comparator the result is
    the one a stable insertion sort gives. *)
Fixpoint insertByScore (c : MatchCandidate) (l : list MatchCandidate)
  : list MatchCandidate :=
  match l with
  | [] => [c]
  | d :: rest =>
      if (0 <? compareDesc c d)%float then d :: insertByScore c rest
      else c :: d :: rest
  end.

Definition sortByScoreDesc (l : list MatchCandidate) : list MatchCandidate :=
  fold_right insertByScore [] l.

Definition topCandidatesOf (cands : list MatchCandidate) : list MatchCandidate :=
  let sorted := sortByScoreDesc cands in
  firstn (Nat.min 5 (length sorted)) sorted.

Definition totalScoreOf (top : list MatchCandidate) : float :=
  fold_left (fun sum c => (sum + score c)%float) top 0%float.

(** The selection loop: [random -= candidate.score; if (random <= 0) return]. *)
Fixpoint pickWeighted (rnd : float) (top : list MatchCandidate) : option QueuedUser :=
  match top with
  | [] => None
  | c :: rest =>
      let rnd1 := (rnd - score c)%float in
      if (rnd1 <=? 0)%float then Some (user c) else pickWeighted rnd1 rest
  end.

Definition selectMatch (W : World) (cands : list MatchCandidate) (rt : Runtime)
  : option QueuedUser * Runtime :=
  let top := topCandidatesOf cands in
  let totalScore := totalScoreOf top in
  let '(r, rt1) := mathRandom W rt in
  match pickWeighted (Q2F r * totalScore)%float top with
  | Some u => (Some u, rt1)
  | None => (option_map user (head top), rt1)
  end.

(** [user.waitTime = Date.now() - user.timestamp; user.searchAttempts++] *)
Definition touchUser (t : Z) (u : QueuedUser) : QueuedUser :=
  {| socketId := socketId u; userId := userId u; preferences := preferences u;
     timestamp := timestamp u; waitTime := t - timestamp u;
     blockedUsers := blockedUsers u; searchAttempts := searchAttempts u + 1 |}.

Definition findMatch (W : World) (socketId : string) (q : MatchmakingQueue)
    (rt : Runtime) : option QueuedUser * MatchmakingQueue * Runtime :=
  if isMatched socketId q then (None, q, rt)
  else match jsmap_get socketId (queue q) with
       | None => (None, q, rt)
       | Some u0 =>
           let '(t, rt1) := dateNow W rt in
           let u := touchUser t u0 in
           let q1 := withQueue (jsmap_set socketId u (queue q)) q in
           let '(candidates, rt2) := collectCandidates W q1 socketId u rt1 in
           if isNil candidates then (None, q1, rt2)
           else let '(selected, rt3) := selectMatch W candidates rt2 in
                (selected, q1, rt3)
       end.

Fixpoint countAhead (q : MatchmakingQueue) (callerId : string) (u : QueuedUser)
    (bucket : list string) (position : Z) : Z :=
  match bucket with
  | [] => position
  | candidateSocketId :: rest =>
      if String.eqb candidateSocketId callerId then position
      else countAhead q callerId u rest
             match jsmap_get candidateSocketId (queue q) with
             | Some candidate =>
                 if areCompatible q u candidate then position + 1 else position
             | None => position
             end
  end.

Definition getQueuePosition (socketId : string) (q : MatchmakingQueue) : Z :=
  match jsmap_get socketId (queue q) with
  | None => -1
  | Some u =>
      match tierOfName (tierOr (tier (preferences u))) with
      | None => -1
      | Some t => countAhead q socketId u (bucketGet t (tierBuckets q)) 0
      end
  end.

(** ** The server around the queue: sockets, drivers, timers, emissions *)

(** The payload of the [skip] event; every field may be missing. *)
Record SkipData := {
  skip_userId : option string;
  skip_preferences : option PreferencesArg;
  skip_autoRequeue : option bool
}.

(** The payload of the [find-match] event. *)
Record FindMatchData := {
  fm_userId : string;
  fm_preferences : option PreferencesArg
}.

Inductive Event :=
| EvSearching (queuePosition : option Z) (checkCount : Z)
| EvMatchFound (matchSocketId matchUserId : string) (waitTime : Z)
| EvMatchCancelled
| EvMatchEnded (reason : string) (autoRequeue : bool)
    (fromSocketId : option string) (disconnected : option bool)
| EvMatchmakingStopped
| EvSkipSuccess (autoRequeue : bool)
| EvError (message : string)
| EvMessageBlocked (reason : string)
| EvReceiveMessage (message : string) (timestamp : Z) (senderId : string).

(** [socket.emit] on a socket object, or [io.to(id).emit] to the room that
    carries the socket's id. *)
Inductive Route := Direct | ViaRoom.

Record Emission := {
  target : string;
  route : Route;
  event : Event
}.

(** What a [setTimeout] callback does when it fires. *)
Inductive Task :=
| PollTick (driver : nat)
| RequeueAfterSkip (socket : string) (data : SkipData).

(** What runs when a pending [Block.find] settles. *)
Inductive Continuation :=
| FindMatchResume (socket : string) (data : FindMatchData)
| RequeueResume (socket : string) (data : SkipData).

(** The closure variables of one [handleMatchmaking] call, and whether the
    'cancel-match' listener it registered is still attached. *)
Record Driver := {
  driverSocket : string;
  isCancelled : bool;
  matchmakingInterval : option nat;
  checkCount : Z;
  cancelListener : bool
}.

(** An entry of [io.sockets.sockets], and whether the 'cancel-match'
    listener of [setupSocketIO] is still attached to the socket. *)
Record SocketState := {
  connected : bool;
  baseCancelListener : bool
}.

Record Server := {
  mq : MatchmakingQueue;
  matchmakingIntervals : gmap string (option nat);
  matchmakingCancelled : gmap string bool;
  sockets : gmap string SocketState;
  drivers : list Driver;
  timers : list (nat * (Z * Task));
  nextTimer : nat;
  awaiting : list (nat * Continuation);
  nextAwait : nat;
  outbox : list Emission;
  runtime : Runtime
}.

Definition initialServer : Server :=
  {| mq := emptyQueue; matchmakingIntervals := ∅; matchmakingCancelled := ∅;
     sockets := ∅; drivers := []; timers := []; nextTimer := 0;
     awaiting := []; nextAwait := 0; outbox := []; runtime := startRuntime |}.

Definition setMq (x : MatchmakingQueue) (s : Server) : Server :=
  {| mq := x; matchmakingIntervals := matchmakingIntervals s;
     matchmakingCancelled := matchmakingCancelled s; sockets := sockets s;
     drivers := drivers s; timers := timers s; nextTimer := nextTimer s;
     awaiting := awaiting s; nextAwait := nextAwait s; outbox := outbox s;
     runtime := runtime s |}.

Definition setIntervals (x : gmap string (option nat)) (s : Server) : Server :=
  {| mq := mq s; matchmakingIntervals := x;
     matchmakingCancelled := matchmakingCancelled s; sockets := sockets s;
     drivers := drivers s; timers := timers s; nextTimer := nextTimer s;
     awaiting := awaiting s; nextAwait := nextAwait s; outbox := outbox s;
     runtime := runtime s |}.

Definition setCancelled (x : gmap string bool) (s : Server) : Server :=
  {| mq := mq s; matchmakingIntervals := matchmakingIntervals s;
     matchmakingCancelled := x; sockets := sockets s;
     drivers := drivers s; timers := timers s; nextTimer := nextTimer s;
     awaiting := awaiting s; nextAwait := nextAwait s; outbox := outbox s;
     runtime := runtime s |}.

Definition setSockets (x : gmap string SocketState) (s : Server) : Server :=
  {| mq := mq s; matchmakingIntervals := matchmakingIntervals s;
     matchmakingCancelled := matchmakingCancelled s; sockets := x;
     drivers := drivers s; timers := timers s; nextTimer := nextTimer s;
     awaiting := awaiting s; nextAwait := nextAwait s; outbox := outbox s;
     runtime := runtime s |}.

Definition setDrivers (x : list Driver) (s : Server) : Server :=
  {| mq := mq s; matchmakingIntervals := matchmakingIntervals s;
     matchmakingCancelled := matchmakingCancelled s; sockets := sockets s;
     drivers := x; timers := timers s; nextTimer := nextTimer s;
     awaiting := awaiting s; nextAwait := nextAwait s; outbox := outbox s;
     runtime := runtime s |}.

Definition setTimers (x : list (nat * (Z * Task))) (n : nat) (s : Server) : Server :=
  {| mq := mq s; matchmakingIntervals := matchmakingIntervals s;
     matchmakingCancelled := matchmakingCancelled s; sockets := sockets s;
     drivers := drivers s; timers := x; nextTimer := n;
     awaiting := awaiting s; nextAwait := nextAwait s; outbox := outbox s;
     runtime := runtime s |}.

Definition setAwaiting (x : list (nat * Continuation)) (n : nat) (s : Server) : Server :=
  {| mq := mq s; matchmakingIntervals := matchmakingIntervals s;
     matchmakingCancelled := matchmakingCancelled s; sockets := sockets s;
     drivers := drivers s; timers := timers s; nextTimer := nextTimer s;
     awaiting := x; nextAwait := n; outbox := outbox s;
     runtime := runtime s |}.

Definition setOutbox (x : list Emission) (s : Server) : Server :=
  {| mq := mq s; matchmakingIntervals := matchmakingIntervals s;
     matchmakingCancelled := matchmakingCancelled s; sockets := sockets s;
     drivers := drivers s; timers := timers s; nextTimer := nextTimer s;
     awaiting := awaiting s; nextAwait := nextAwait s; outbox := x;
     runtime := runtime s |}.

Definition setRuntime (x : Runtime) (s : Server) : Server :=
  {| mq := mq s; matchmakingIntervals := matchmakingIntervals s;
     matchmakingCancelled := matchmakingCancelled s; sockets := sockets s;
     drivers := drivers s; timers := timers s; nextTimer := nextTimer s;
     awaiting := awaiting s; nextAwait := nextAwait s; outbox := outbox s;
     runtime := x |}.

(** [socket.emit(...)] on the socket object of [id]. *)
Definition emitTo (id : string) (e : Event) (s : Server) : Server :=
  setOutbox (outbox s ++ [{| target := id; route := Direct; event := e |}]) s.

(** [io.to(id).emit(...)]. *)
Definition emitToRoom (id : string) (e : Event) (s : Server) : Server :=
  setOutbox (outbox s ++ [{| target := id; route := ViaRoom; event := e |}]) s.

Definition setTimeout (delay : Z) (task : Task) (s : Server) : nat * Server :=
  (nextTimer s, setTimers (timers s ++ [(nextTimer s, (delay, task))]) (S (nextTimer s)) s).

Definition clearTimeout (id : nat) (s : Server) : Server :=
  setTimers (List.filter (fun e => negb (Nat.eqb (fst e) id)) (timers s)) (nextTimer s) s.

Definition updateDriver (d : nat) (f : Driver -> Driver) (s : Server) : Server :=
  match drivers s !! d with
  | Some dr => setDrivers (<[d := f dr]> (drivers s)) s
  | None => s
  end.

Definition cancelDriver (dr : Driver) : Driver :=
  {| driverSocket := driverSocket dr; isCancelled := true;
     matchmakingInterval := matchmakingInterval dr; checkCount := checkCount dr;
     cancelListener := cancelListener dr |}.

Definition withInterval (t : option nat) (dr : Driver) : Driver :=
  {| driverSocket := driverSocket dr; isCancelled := isCancelled dr;
     matchmakingInterval := t; checkCount := checkCount dr;
     cancelListener := cancelListener dr |}.

Definition withCheckCount (n : Z) (dr : Driver) : Driver :=
  {| driverSocket := driverSocket dr; isCancelled := isCancelled dr;
     matchmakingInterval := matchmakingInterval dr; checkCount := n;
     cancelListener := cancelListener dr |}.

Definition withCancelListener (b : bool) (dr : Driver) : Driver :=
  {| driverSocket := driverSocket dr; isCancelled := isCancelled dr;
     matchmakingInterval := matchmakingInterval dr; checkCount := checkCount dr;
     cancelListener := b |}.

(** [if (matchmakingInterval) { clearTimeout(matchmakingInterval);
    matchmakingInterval = null; matchmakingIntervals.set(socket.id, null); }] *)
Definition stopOwnTimer (d : nat) (s : Server) : Server :=
  match drivers s !! d with
  | Some dr =>
      match matchmakingInterval dr with
      | Some t =>
          let s1 := clearTimeout t s in
          let s2 := updateDriver d (withInterval None) s1 in
          setIntervals (<[driverSocket dr := None]> (matchmakingIntervals s2)) s2
      | None => s
      end
  | None => s
  end.

(** [isCancelled = true; matchmakingCancelled.set(socket.id, true);] followed
    by [stopOwnTimer]. *)
Definition cancelSelf (d : nat) (sid : string) (s : Server) : Server :=
  let s1 := updateDriver d cancelDriver s in
  let s2 := setCancelled (<[sid := true]> (matchmakingCancelled s1)) s1 in
  stopOwnTimer d s2.

(** [socket.removeAllListeners('cancel-match')] *)
Definition removeAllCancelListeners (sid : string) (s : Server) : Server :=
  let s1 :=
    match sockets s !! sid with
    | Some so =>
        setSockets (<[sid := {| connected := connected so;
                                baseCancelListener := false |}]> (sockets s)) s
    | None => s
    end in
  setDrivers
    (map (fun dr => if String.eqb (driverSocket dr) sid
                    then withCancelListener false dr else dr) (drivers s1)) s1.

(** ** [handleMatchmaking]: the per-socket search driver *)

(** Truthiness of [matchmakingCancelled.get(socket.id)]. *)
Definition cancelledFlag (sid : string) (s : Server) : bool :=
  match matchmakingCancelled s !! sid with
  | Some b => b
  | None => false
  end.

(** The branch of [checkForMatch] taken when [findMatch] returned [m]. *)
Definition announceMatch (W : World) (d : nat) (sid : string) (m : QueuedUser)
    (s : Server) : Server :=
  let s1 := updateDriver d cancelDriver s in
  let s2 :=
    setCancelled (<[socketId m := true]> (<[sid := true]> (matchmakingCancelled s1))) s1 in
  let s3 := stopOwnTimer d s2 in
  let s4 :=
    match matchmakingIntervals s3 !! socketId m with
    | Some (Some t) =>
        let s' := clearTimeout t s3 in
        setIntervals (<[socketId m := None]> (matchmakingIntervals s')) s'
    | _ => s3
    end in
  let s5 := setMq (createMatch sid (socketId m) (mq s4)) s4 in
  let '(userWaitTime, rt) := getUserWaitTime W sid (mq s5) (runtime s5) in
  let s6 := setRuntime rt s5 in
  let s7 := emitTo sid (EvMatchFound (socketId m) (userId m) (waitTime m)) s6 in
  let matchedSocket := sockets s7 !! socketId m in
  let s8 :=
    match matchedSocket with
    | Some so =>
        if connected so
        then emitTo (socketId m) (EvMatchFound sid sid userWaitTime) s7
        else emitToRoom (socketId m) (EvMatchFound sid sid userWaitTime) s7
    | None => emitToRoom (socketId m) (EvMatchFound sid sid userWaitTime) s7
    end in
  let s9 := removeAllCancelListeners sid s8 in
  let s10 :=
    match matchedSocket with
    | Some _ => emitTo (socketId m) EvMatchmakingStopped s9
    | None => emitToRoom (socketId m) EvMatchmakingStopped s9
    end in
  updateDriver d (withCheckCount 0) s10.

Definition checkForMatch (W : World) (d : nat) (s : Server) : Server :=
  match drivers s !! d with
  | None => s
  | Some dr =>
      let sid := driverSocket dr in
      if isCancelled dr || cancelledFlag sid s then s
      else if negb (jsmap_has sid (queue (mq s))) then cancelSelf d sid s
      else if isMatched sid (mq s) then cancelSelf d sid s
      else
        let s1 := updateDriver d (fun x => withCheckCount (checkCount x + 1) x) s in
        let '(found, q1, rt1) := findMatch W sid (mq s1) (runtime s1) in
        let s2 := setRuntime rt1 (setMq q1 s1) in
        match found with
        | Some m => announceMatch W d sid m s2
        | None =>
            let queuePosition := getQueuePosition sid (mq s2) in
            emitTo sid
              (EvSearching (if 0 <=? queuePosition then Some queuePosition else None)
                 (checkCount dr + 1)) s2
        end
  end.

Definition getPollingInterval (dr : Driver) (s : Server) : Z :=
  let queueSize := getQueueSize (mq s) in
  if queueSize =? 1 then Z.min 10000 (2 ^ (checkCount dr / 5) * 1000)
  else if queueSize <=? 2 then 500
  else if checkCount dr <? 5 then 1000
  else if checkCount dr <? 15 then 2000
  else 3000.

Definition scheduleNext (d : nat) (s : Server) : Server :=
  match drivers s !! d with
  | None => s
  | Some dr =>
      if isCancelled dr then s
      else if isMatched (driverSocket dr) (mq s) then updateDriver d cancelDriver s
      else
        let '(t, s1) := setTimeout (getPollingInterval dr s) (PollTick d) s in
        let s2 := updateDriver d (withInterval (Some t)) s1 in
        setIntervals (<[driverSocket dr := Some t]> (matchmakingIntervals s2)) s2
  end.

(** Whether the guard of the timer callback lets the tick run. *)
Definition driverLive (d : nat) (s : Server) : bool :=
  match drivers s !! d with
  | Some dr =>
      negb (isCancelled dr) && negb (cancelledFlag (driverSocket dr) s)
      && negb (isMatched (driverSocket dr) (mq s))
  | None => false
  end.

(** The [setTimeout] callback of [scheduleNext]. *)
Definition pollTick (W : World) (d : nat) (s : Server) : Server :=
  if driverLive d s
  then let s1 := checkForMatch W d s in
       if driverLive d s1 then scheduleNext d s1 else s1
  else s.

Definition handleMatchmaking (W : World) (sid : string) (s : Server) : Server :=
  let d := length (drivers s) in
  let s1 :=
    setDrivers (drivers s ++ [{| driverSocket := sid; isCancelled := false;
                                 matchmakingInterval := None; checkCount := 0;
                                 cancelListener := false |}]) s in
  let s2 := setIntervals (<[sid := None]> (matchmakingIntervals s1)) s1 in
  let s3 := setCancelled (<[sid := false]> (matchmakingCancelled s2)) s2 in
  let s4 := checkForMatch W d s3 in
  let s5 :=
    match drivers s4 !! d with
    | Some dr => if isCancelled dr then s4 else scheduleNext d s4
    | None => s4
    end in
  updateDriver d (withCancelListener true) s5.

(** The 'cancel-match' listener a driver registers. *)
Definition driverCancel (d : nat) (sid : string) (s : Server) : Server :=
  let s1 := cancelSelf d sid s in
  emitTo sid EvMatchCancelled (setMq (removeUser sid false (mq s1)) s1).

(** The 'disconnect' listener a driver registers. *)
Definition driverDisconnect (d : nat) (sid : string) (s : Server) : Server :=
  let s1 := cancelSelf d sid s in
  let s2 := setIntervals (delete sid (matchmakingIntervals s1)) s1 in
  let s3 := setCancelled (delete sid (matchmakingCancelled s2)) s2 in
  if negb (isMatched sid (mq s3))
  then setMq (removeUser sid false (mq s3)) s3
  else s3.

(** Run a listener of every driver of socket [sid], in registration order. *)
Definition forDriversOf (sid : string) (onlyCancelListeners : bool)
    (listener : nat -> string -> Server -> Server) (s : Server) : Server :=
  fold_left
    (fun st d =>
       match drivers st !! d with
       | Some dr =>
           if String.eqb (driverSocket dr) sid
              && (negb onlyCancelListeners || cancelListener dr)
           then listener d sid st
           else st
       | None => st
       end)
    (seq 0 (length (drivers s))) s.

(** ** [setupSocketIO]: the connection-level handlers *)

Definition onConnection (sid : string) (s : Server) : Server :=
  setSockets (<[sid := {| connected := true; baseCancelListener := true |}]> (sockets s)) s.

Definition withBlockedUserIds (ids : list string) (p : option PreferencesArg)
  : PreferencesArg :=
  {| arg_gender := p ≫= arg_gender; arg_region := p ≫= arg_region;
     arg_tier := p ≫= arg_tier; arg_blockedUserIds := Some ids |}.

(** 'find-match' up to its [await Block.find(...)]. *)
Definition onFindMatch (sid : string) (data : FindMatchData) (s : Server) : Server :=
  let s1 :=
    if isMatched sid (mq s)
    then match getMatch sid (mq s) with
         | Some existingMatch =>
             if jsTruthy existingMatch
             then setMq (clearMatch sid existingMatch (mq s)) s
             else s
         | None => s
         end
    else s in
  setAwaiting (awaiting s1 ++ [(nextAwait s1, FindMatchResume sid data)])
    (S (nextAwait s1)) s1.

(** 'find-match' after the block list arrived ([Some ids]) or the query
    failed ([None]). *)
Definition resumeFindMatch (W : World) (sid : string) (data : FindMatchData)
    (blocks : option (list string)) (s : Server) : Server :=
  if negb (jsTruthy sid) then s
  else
    let prefs :=
      match blocks with
      | Some ids => Some (withBlockedUserIds ids (fm_preferences data))
      | None => fm_preferences data
      end in
    let '(q, rt) := addUser W sid (fm_userId data) prefs (mq s) (runtime s) in
    handleMatchmaking W sid (setRuntime rt (setMq q s)).

(** The 'cancel-match' listener of [setupSocketIO]. *)
Definition baseCancel (sid : string) (s : Server) : Server :=
  emitTo sid EvMatchCancelled (setMq (removeUser sid false (mq s)) s).

(** Dispatch of 'cancel-match' to every listener attached to the socket. *)
Definition onCancelMatch (sid : string) (s : Server) : Server :=
  let s1 :=
    match sockets s !! sid with
    | Some so => if baseCancelListener so then baseCancel sid s else s
    | None => s
    end in
  forDriversOf sid true driverCancel s1.

Definition stopIntervalOf (id : string) (interval : option (option nat)) (s : Server)
  : Server :=
  match interval with
  | Some (Some t) =>
      let s1 := clearTimeout t s in
      let s2 := setIntervals (<[id := None]> (matchmakingIntervals s1)) s1 in
      setCancelled (<[id := true]> (matchmakingCancelled s2)) s2
  | _ => s
  end.

Definition truthyOpt (o : option string) : bool :=
  match o with Some x => jsTruthy x | None => false end.

(** The branch of 'skip' taken when the sender has a partner. *)
Definition skipMatched (sid matchSocketId : string) (data : SkipData) (s : Server)
  : Server :=
  let ended := EvMatchEnded "skipped" true (Some sid) (Some true) in
  let s1 :=
    match sockets s !! matchSocketId with
    | Some _ => emitTo matchSocketId ended s
    | None => emitToRoom matchSocketId ended s
    end in
  let s2 :=
    emitTo sid
      (EvMatchEnded "skipped" (default false (skip_autoRequeue data)) (Some sid)
         (Some true)) s1 in
  let skippingUserInterval := matchmakingIntervals s2 !! sid in
  let matchedUserInterval := matchmakingIntervals s2 !! matchSocketId in
  let s3 := stopIntervalOf sid skippingUserInterval s2 in
  let s4 := stopIntervalOf matchSocketId matchedUserInterval s3 in
  let s5 := setMq (clearMatch sid matchSocketId (mq s4)) s4 in
  let s6 :=
    if isMatched sid (mq s5) || isMatched matchSocketId (mq s5)
    then setMq (removeUser matchSocketId false (removeUser sid false (mq s5))) s5
    else s5 in
  if default false (skip_autoRequeue data) && truthyOpt (skip_userId data)
  then snd (setTimeout 200 (RequeueAfterSkip sid data) s6)
  else s6.

(** The branch of 'skip' taken when the sender has no partner. *)
Definition skipUnmatched (sid : string) (s : Server) : Server :=
  emitTo sid (EvMatchEnded "skipped" false None None)
    (setMq (removeUser sid false (mq s)) s).

Definition onSkip (sid : string) (data : SkipData) (s : Server) : Server :=
  match getMatch sid (mq s) with
  | Some matchSocketId =>
      if jsTruthy matchSocketId then skipMatched sid matchSocketId data s
      else skipUnmatched sid s
  | None => skipUnmatched sid s
  end.

(** The 200 ms callback of 'skip', up to its [await Block.find(...)]. *)
Definition requeueAfterSkip (sid : string) (data : SkipData) (s : Server) : Server :=
  let s1 :=
    if truthyOpt (getMatch sid (mq s))
    then setMq (removeUser sid false (mq s)) s
    else s in
  if negb (truthyOpt (getMatch sid (mq s1)))
  then setAwaiting (awaiting s1 ++ [(nextAwait s1, RequeueResume sid data)])
         (S (nextAwait s1)) s1
  else s1.

(** The rest of the 200 ms callback. *)
Definition resumeRequeue (W : World) (sid : string) (data : SkipData)
    (blocks : option (list string)) (s : Server) : Server :=
  match skip_userId data with
  | Some uid =>
      if negb (jsTruthy sid) || negb (jsTruthy uid) then s
      else
        let prefs :=
          match blocks with
          | Some ids => Some (withBlockedUserIds ids (skip_preferences data))
          | None => skip_preferences data
          end in
        let '(q, rt) := addUser W sid uid prefs (mq s) (runtime s) in
        emitTo sid (EvSkipSuccess true)
          (handleMatchmaking W sid (setRuntime rt (setMq q s)))
  | None => s
  end.

(** The 'disconnect' listeners: the one of [setupSocketIO] was registered
    first, then one per driver.  socket.io has removed the socket from
    [io.sockets.sockets] when they run. *)
Definition onDisconnect (sid : string) (s : Server) : Server :=
  let s0 := setSockets (delete sid (sockets s)) s in
  let s1 := setMq (removeUser sid false (mq s0)) s0 in
  forDriversOf sid false driverDisconnect s1.

(** ** [handleChat]: 'send-message' *)

Definition onSendMessage (W : World) (sid message : string) (s : Server) : Server :=
  match getMatch sid (mq s) with
  | Some matchSocketId =>
      if jsTruthy matchSocketId then
        if isProfane W message
        then emitTo sid (EvMessageBlocked "Profanity detected") s
        else
          let '(t1, rt1) := dateNow W (runtime s) in
          let s1 := emitTo sid (EvReceiveMessage message t1 sid) (setRuntime rt1 s) in
          let '(t2, rt2) := dateNow W (runtime s1) in
          let s2 := setRuntime rt2 s1 in
          match sockets s2 !! matchSocketId with
          | Some so =>
              if connected so
              then emitTo matchSocketId (EvReceiveMessage message t2 sid) s2
              else emitToRoom matchSocketId (EvReceiveMessage message t2 sid) s2
          | None => emitToRoom matchSocketId (EvReceiveMessage message t2 sid) s2
          end
      else emitTo sid (EvError "No active match") s
  | None => emitTo sid (EvError "No active match") s
  end.

(** ** The event loop *)

Inductive Input :=
| InConnect (sid : string)
| InFindMatch (sid : string) (data : FindMatchData)
| InCancelMatch (sid : string)
| InSkip (sid : string) (data : SkipData)
| InSendMessage (sid : string) (message : string)
| InDisconnect (sid : string)
| InTimer (id : nat)
| InBlocks (id : nat) (blocks : option (list string)).

Definition lookupById {A : Type} (id : nat) (l : list (nat * A)) : option A :=
  snd <$> List.find (fun e => Nat.eqb (fst e) id) l.

Definition socketOpen (sid : string) (s : Server) : bool :=
  bool_decide (is_Some (sockets s !! sid)).

Definition step (W : World) (i : Input) (s : Server) : Server :=
  match i with
  | InConnect sid => onConnection sid s
  | InFindMatch sid data => if socketOpen sid s then onFindMatch sid data s else s
  | InCancelMatch sid => if socketOpen sid s then onCancelMatch sid s else s
  | InSkip sid data => if socketOpen sid s then onSkip sid data s else s
  | InSendMessage sid message =>
      if socketOpen sid s then onSendMessage W sid message s else s
  | InDisconnect sid => if socketOpen sid s then onDisconnect sid s else s
  | InTimer id =>
      match lookupById id (timers s) with
      | Some (_, task) =>
          let s1 := clearTimeout id s in
          match task with
          | PollTick d => pollTick W d s1
          | RequeueAfterSkip sid data => requeueAfterSkip sid data s1
          end
      | None => s
      end
  | InBlocks id blocks =>
      match lookupById id (awaiting s) with
      | Some k =>
          let s1 :=
            setAwaiting (List.filter (fun e => negb (Nat.eqb (fst e) id)) (awaiting s))
              (nextAwait s) s in
          match k with
          | FindMatchResume sid data => resumeFindMatch W sid data blocks s1
          | RequeueResume sid data => resumeRequeue W sid data blocks s1
          end
      | None => s
      end
  end.

Definition run (W : World) (inputs : list Input) (s : Server) : Server :=
  fold_left (fun st i => step W i st) inputs s.

(** ** Sequences of queue operations *)

Inductive QueueOp :=
| OpAddUser (socketId userId : string) (preferences : option PreferencesArg)
| OpRemoveUser (socketId : string) (keepMatch : bool)
| OpFindMatch (socketId : string)
| OpCreateMatch (socketId1 socketId2 : string)
| OpClearMatch (socketId1 socketId2 : string).

Definition applyOp (W : World) (op : QueueOp) (st : MatchmakingQueue * Runtime)
  : MatchmakingQueue * Runtime :=
  match op with
  | OpAddUser sid uid prefs => addUser W sid uid prefs (fst st) (snd st)
  | OpRemoveUser sid keep => (removeUser sid keep (fst st), snd st)
  | OpFindMatch sid =>
      let '(_, q, rt) := findMatch W sid (fst st) (snd st) in (q, rt)
  | OpCreateMatch a b => (createMatch a b (fst st), snd st)
  | OpClearMatch a b => (clearMatch a b (fst st), snd st)
  end.

Definition applyOps (W : World) (ops : list QueueOp) (st : MatchmakingQueue * Runtime)
  : MatchmakingQueue * Runtime :=
  fold_left (fun acc op => applyOp W op acc) ops st.

(** ** The properties the theorems are about *)

(** Every SessionID is the key of at most one queue entry. *)
Definition queueKeysUnique (q : MatchmakingQueue) : Prop :=
  NoDup (jsmap_keys (queue q)).

(** No SessionID is a key of the queue and a key of [matches]. *)
Definition queueDisjointFromMatches (q : MatchmakingQueue) : Prop :=
  ∀ s, s ∈ jsmap_keys (queue q) → matches q !! s = None.

(** The values stored in [matches] are truthy strings. *)
Definition matchValuesTruthy (q : MatchmakingQueue) : Prop :=
  ∀ k v, matches q !! k = Some v → v ≠ "".

(** [createMatch] is not given an empty SessionID. *)
Definition createArgsNonEmpty (op : QueueOp) : Prop :=
  match op with
  | OpCreateMatch a b => a ≠ "" ∧ b ≠ ""
  | _ => True
  end.

(** PartnerOf(A) = B implies PartnerOf(B) = A. *)
Definition pairingSymmetric (q : MatchmakingQueue) : Prop :=
  ∀ a b, getMatch a q = Some b → getMatch b q = Some a.

(** The discipline of the callers: [createMatch] pairs two sessions neither
    of which is matched (what [findMatch] returns to the driver), and
    [clearMatch] is given a session and its current partner. *)
Definition opAllowed (op : QueueOp) (q : MatchmakingQueue) : bool :=
  match op with
  | OpCreateMatch a b => negb (isMatched a q) && negb (isMatched b q)
  | OpClearMatch a b => bool_decide (getMatch a q = Some b)
  | _ => true
  end.

Fixpoint opsAllowed (W : World) (ops : list QueueOp) (st : MatchmakingQueue * Runtime)
  : bool :=
  match ops with
  | [] => true
  | op :: rest => opAllowed op (fst st) && opsAllowed W rest (applyOp W op st)
  end.

(** The compatibility rule in the words of the specification.  A region
    preference is set when it is present and not the empty string. *)
Definition compatibleSpec (q : MatchmakingQueue) (U C : QueuedUser) : Prop :=
  socketId C ≠ socketId U
  ∧ getMatch (socketId C) q = None
  ∧ (userId C ∉ blockedUsers U)
  ∧ (userId U ∉ blockedUsers C)
  ∧ (∀ r, region (preferences U) = Some r → r ≠ "" → r ≠ "any" →
          region (preferences C) = Some r)
  ∧ (∀ g, gender (preferences U) = Some g → g ≠ anyGender →
          gender (preferences C) = Some g).

(** *** [findMatch] in the words of the specification *)

(** The users a tier bucket offers the caller: those of its ids that are
    queued and compatible with the caller (in phase 1 the caller's own id is
    passed over before the lookup). *)
Definition bucketUsers (q : MatchmakingQueue) (callerId : string) (u : QueuedUser)
    (skipSelf : bool) (bucket : list string) : list QueuedUser :=
  omap (fun id =>
          if skipSelf && String.eqb id callerId then None
          else match jsmap_get id (queue q) with
               | Some c => if areCompatible q u c then Some c else None
               | None => None
               end) bucket.

(** Phase 1: the bucket of the caller's tier, if that tier has one. *)
Definition sameTierUsers (q : MatchmakingQueue) (callerId : string) (u : QueuedUser)
  : list QueuedUser :=
  match tierOfName (tierOr (tier (preferences u))) with
  | Some t => bucketUsers q callerId u true (bucketGet t (tierBuckets q))
  | None => []
  end.

(** Phase 2: the buckets of the other tiers, in the order of the map. *)
Definition crossTierUsers (q : MatchmakingQueue) (callerId : string) (u : QueuedUser)
  : list QueuedUser :=
  concat
    (map (fun t => bucketUsers q callerId u false (bucketGet t (tierBuckets q)))
       (List.filter
          (fun t => negb (String.eqb (tierName t) (tierOr (tier (preferences u)))))
          allTiers)).

(** The relaxed phase: every queued user but the caller that is unpaired
    and not in a block relation with the caller, each with the flag
    [candidate.preferences.tier === userTier]. *)
Definition relaxedUsers (q : MatchmakingQueue) (callerId : string) (u : QueuedUser)
  : list (QueuedUser * bool) :=
  map (fun c => (c, String.eqb (tier (preferences c)) (tierOr (tier (preferences u)))))
    (List.filter
       (fun c => negb (String.eqb (socketId c) callerId)
                 && negb (isMatched (socketId c) q)
                 && negb (isBlockedPair u c))
       (jsmap_values (queue q))).

Definition tagWith (tierMatch : bool) (l : list QueuedUser) : list (QueuedUser * bool) :=
  map (fun c => (c, tierMatch)) l.

(** The candidates of a list of users with their [tierMatch] flags: each is
    scored in turn, with the clock reads and the draw of its turn. *)
Definition scoreCandidates (W : World) (u : QueuedUser) (l : list (QueuedUser * bool))
    (acc : list MatchCandidate * Runtime) : list MatchCandidate * Runtime :=
  fold_left (fun a e => pushCandidate W u e.1 e.2 a) l acc.

(** [b]'s score exceeds [a]'s: the difference is positive. *)
Definition exceeds (b a : MatchCandidate) : bool := (0 <? score b - score a)%float.

(** Sorted by descending score: no candidate is followed by one whose score
    exceeds its own. *)
Definition sortedByScoreDesc (l : list MatchCandidate) : Prop :=
  StronglySorted (fun a b => exceeds b a = false) l.

(** The comparator is consistent on a list (the case in which
    [Array.prototype.sort] is specified): of two candidates at most one
    exceeds the other, and not exceeding is transitive.  It is on scores
    that are finite numbers. *)
Definition consistentComparator (l : list MatchCandidate) : bool :=
  forallb
    (fun a =>
       forallb
         (fun b =>
            negb (exceeds a b && exceeds b a)
            && forallb
                 (fun c => implb (negb (exceeds b a) && negb (exceeds c b))
                             (negb (exceeds c a))) l) l) l.

(** What is left of the scaled draw [x] after the scores of the candidates
    at positions 0 to [k] were subtracted from it, one after the other. *)
Definition remainderAfter (x : float) (top : list MatchCandidate) (k : nat) : float :=
  fold_left (fun r c => (r - score c)%float) (take (S k) top) x.

Definition usedUp (x : float) (top : list MatchCandidate) (k : nat) : bool :=
  (remainderAfter x top k <=? 0)%float.

(** Weighted random selection with weight = score, over binary64: the
    candidate at position [k] is chosen when it is the first at which the
    scaled draw is used up; if the draw is never used up (which rounding or
    a score that is not positive can cause), the first candidate is. *)
Definition rouletteChoice (x : float) (top : list MatchCandidate) (k : nat) : Prop :=
  (usedUp x top k = true ∧ ∀ j, (j < k)%nat → usedUp x top j = false)
  ∨ (k = 0%nat ∧ ∀ j, (j < length top)%nat → usedUp x top j = false).

(** [Math.random()] is in [0, 1). *)
Definition randomInUnit (W : World) : Prop :=
  ∀ n, (0 <= random W n)%Q ∧ (random W n < 1)%Q.

(** A match-ended event that carries [disconnected: true]. *)
Definition isMatchEndedDisconnected (e : Event) : bool :=
  match e with
  | EvMatchEnded _ _ _ (Some true) => true
  | _ => false
  end.

Definition isMatchFound (e : Event) : bool :=
  match e with
  | EvMatchFound _ _ _ => true
  | _ => false
  end.

(** The emissions of [after] that [before] did not have yet. *)
Definition newEmissions (before after : Server) : list Emission :=
  skipn (length (outbox before)) (outbox after).

Definition emissionsTo (sid : string) (l : list Emission) : list Event :=
  map event (List.filter (fun e => String.eqb (target e) sid) l).

(** The states of the examples.  s1 (user u1) and s2 (user u2) connect and
    ask for a match; in [queuedServer] the block list of s2 is still being
    fetched, in [pairedServer] it has arrived and the driver of s2 has paired
    the two. *)
Definition findMatchOf (uid : string) : FindMatchData :=
  {| fm_userId := uid; fm_preferences := None |}.

Definition queuedServer : Server :=
  run tickingWorld
    [InConnect "s1"; InConnect "s2";
     InFindMatch "s1" (findMatchOf "u1"); InBlocks 0 (Some []);
     InFindMatch "s2" (findMatchOf "u2")]
    initialServer.

Definition pairedServer : Server :=
  step tickingWorld (InBlocks 1 (Some [])) queuedServer.

(** s1 alone in the queue, its driver polling. *)
Definition searchingServer : Server :=
  run tickingWorld
    [InConnect "s1"; InFindMatch "s1" (findMatchOf "u1"); InBlocks 0 (Some [])]
    initialServer.

(** s1 and s2 queued, no search has run yet. *)
Definition twoQueued : MatchmakingQueue * Runtime :=
  applyOps tickingWorld [OpAddUser "s1" "u1" None; OpAddUser "s2" "u2" None]
    (emptyQueue, startRuntime).

(** s1 queued with a tier that has no bucket. *)
Definition goldQueued : MatchmakingQueue * Runtime :=
  addUser tickingWorld "s1" "u1"
    (Some {| arg_gender := None; arg_region := None; arg_tier := Some "gold";
             arg_blockedUserIds := None |})
    emptyQueue startRuntime.

Definition skipWithRequeue (uid : string) : SkipData :=
  {| skip_userId := Some uid; skip_preferences := None; skip_autoRequeue := Some true |}.

Definition plainSkip : SkipData :=
  {| skip_userId := None; skip_preferences := None; skip_autoRequeue := None |}.

(** s1 and s2 queued, and a fresh driver of s2 about to poll. *)
Definition pollingServer : Server :=
  setDrivers
    [{| driverSocket := "s2"; isCancelled := false; matchmakingInterval := None;
        checkCount := 0; cancelListener := true |}]
    (setRuntime twoQueued.2
       (setMq twoQueued.1 (onConnection "s2" (onConnection "s1" initialServer)))).

(** ** Invariants and frames used in the proofs *)

(** The invariant behind the exclusion of queue and pairing table. *)
Definition exclusionInv (q : MatchmakingQueue) : Prop :=
  queueKeysUnique q ∧ queueDisjointFromMatches q ∧ matchValuesTruthy q.

Definition symmetricMap (m : gmap string string) : Prop :=
  ∀ a b, m !! a = Some b → m !! b = Some a.

(** The part of the server a timer or flag helper cannot touch: the queue,
    the outbox, the clock and the socket every driver belongs to. *)
Definition sameCore (s s' : Server) : Prop :=
  mq s' = mq s ∧ outbox s' = outbox s ∧ runtime s' = runtime s
  ∧ map driverSocket (drivers s') = map driverSocket (drivers s).

(** What a step of a driver may do to the queue and to the drivers: drop
    queue entries, and leave every driver on its socket. *)
Definition driverFrame (s s' : Server) : Prop :=
  (∀ x, x ∈ jsmap_keys (queue (mq s')) → x ∈ jsmap_keys (queue (mq s)))
  ∧ map driverSocket (drivers s') = map driverSocket (drivers s).

(** All receive-message events of a list carry one timestamp. *)
Definition sameTimestamp (l : list Emission) : Prop :=
  ∃ t, ∀ e, e ∈ l →
    match event e with EvReceiveMessage _ t' _ => t' = t | _ => True end.

(** ** Further parts of the code *)

(** [getStats].  [matchedUsers] is the key set of the pairing table; the
    order in which [Array.from] lists it is not modelled. *)
Record Stats := {
  totalUsers : Z;
  matchedPairs : Q;
  tierFree : Z;
  tierPremium : Z;
  tierPro : Z;
  queueUsers : list string;
  matchedUsers : gset string
}.

Definition getStats (q : MatchmakingQueue) : Stats :=
  {| totalUsers := jsmap_size (queue q);
     matchedPairs := (inject_Z (Z.of_nat (size (matches q))) / 2)%Q;
     tierFree := Z.of_nat (length (bucketGet free (tierBuckets q)));
     tierPremium := Z.of_nat (length (bucketGet premium (tierBuckets q)));
     tierPro := Z.of_nat (length (bucketGet pro (tierBuckets q)));
     queueUsers := jsmap_keys (queue q);
     matchedUsers := dom (matches q) |}.

(** [video.ts] and the presence events of [chat.ts].  These handlers read
    the pairing table and emit; they change no state, so each is modelled
    as the list of what it emits.  Signaling payloads are opaque blobs. *)
Inductive RelayEvent :=
| RelOffer (offer from : string)
| RelAnswer (answer from : string)
| RelIceCandidate (candidate from : string)
| RelPeerVideoToggle (enabled : bool)
| RelPeerAudioToggle (enabled : bool)
| RelUserTyping
| RelUserStoppedTyping.

Record Relayed := {
  relTarget : string;
  relRoute : Route;
  relEvent : RelayEvent
}.

(** [targetSocket ? targetSocket.emit(...) : io.to(data.to).emit(...)] *)
Definition emitSignal (to : string) (e : RelayEvent) (s : Server) : list Relayed :=
  match sockets s !! to with
  | Some _ => [{| relTarget := to; relRoute := Direct; relEvent := e |}]
  | None => [{| relTarget := to; relRoute := ViaRoom; relEvent := e |}]
  end.

Definition onOffer (sid offer to : string) (s : Server) : list Relayed :=
  match getMatch sid (mq s) with
  | Some matchSocketId =>
      if jsTruthy matchSocketId && String.eqb matchSocketId to
      then emitSignal to (RelOffer offer sid) s
      else []
  | None => []
  end.

Definition onAnswer (sid answer to : string) (s : Server) : list Relayed :=
  match getMatch sid (mq s) with
  | Some matchSocketId =>
      if jsTruthy matchSocketId && String.eqb matchSocketId to
      then emitSignal to (RelAnswer answer sid) s
      else []
  | None => []
  end.

Definition onIceCandidate (sid candidate to : string) (s : Server) : list Relayed :=
  match getMatch sid (mq s) with
  | Some matchSocketId =>
      if jsTruthy matchSocketId && String.eqb matchSocketId to
      then emitSignal to (RelIceCandidate candidate sid) s
      else []
  | None => []
  end.

(** [if (matchSocketId) io.to(matchSocketId).emit(...)] *)
Definition emitToPartner (sid : string) (e : RelayEvent) (s : Server) : list Relayed :=
  match getMatch sid (mq s) with
  | Some matchSocketId =>
      if jsTruthy matchSocketId
      then [{| relTarget := matchSocketId; relRoute := ViaRoom; relEvent := e |}]
      else []
  | None => []
  end.

Definition onVideoToggle (sid : string) (enabled : bool) (s : Server) : list Relayed :=
  emitToPartner sid (RelPeerVideoToggle enabled) s.

Definition onAudioToggle (sid : string) (enabled : bool) (s : Server) : list Relayed :=
  emitToPartner sid (RelPeerAudioToggle enabled) s.

Definition onTyping (sid : string) (s : Server) : list Relayed :=
  emitToPartner sid RelUserTyping s.

Definition onStopTyping (sid : string) (s : Server) : list Relayed :=
  emitToPartner sid RelUserStoppedTyping s.

(** [utils/cache.ts]: [class SimpleCache].  The map is only looked up, and
    [cleanup] deletes every expired entry whatever the iteration order. *)
Record CacheEntry (T : Type) := {
  value : T;
  expiresAt : Z
}.
Arguments value {T} _.
Arguments expiresAt {T} _.

Definition cacheSet {T : Type} (W : World) (key : string) (v : T) (ttlSeconds : option Z)
    (cache : gmap string (CacheEntry T)) (rt : Runtime)
  : gmap string (CacheEntry T) * Runtime :=
  let '(t, rt1) := dateNow W rt in
  (<[key := {| value := v; expiresAt := t + default 60 ttlSeconds * 1000 |}]> cache, rt1).

Definition cacheGet {T : Type} (W : World) (key : string)
    (cache : gmap string (CacheEntry T)) (rt : Runtime)
  : option T * gmap string (CacheEntry T) * Runtime :=
  match cache !! key with
  | None => (None, cache, rt)
  | Some entry =>
      let '(t, rt1) := dateNow W rt in
      if expiresAt entry <? t then (None, delete key cache, rt1)
      else (Some (value entry), cache, rt1)
  end.

Definition cacheDelete {T : Type} (key : string) (cache : gmap string (CacheEntry T))
  : gmap string (CacheEntry T) :=
  delete key cache.

Definition cacheClear {T : Type} (cache : gmap string (CacheEntry T))
  : gmap string (CacheEntry T) := ∅.

Definition cacheCleanup {T : Type} (W : World) (cache : gmap string (CacheEntry T))
    (rt : Runtime) : gmap string (CacheEntry T) * Runtime :=
  let '(t, rt1) := dateNow W rt in
  (filter (fun kv => ¬ (expiresAt kv.2 < t)) cache, rt1).

(** [utils/moderation.ts]: [generateNickname].  The nickname is the
    concatenation of the three parts; they are kept apart here, and an array
    access out of range is [undefined]. *)
Definition adjectives : list string :=
  ["Swift"; "Mystic"; "Cosmic"; "Neon"; "Cyber"; "Quantum"; "Digital"; "Virtual"].

Definition nouns : list string :=
  ["Phoenix"; "Wolf"; "Eagle"; "Dragon"; "Tiger"; "Falcon"; "Shark"; "Lion"].

(** [arr[i]] *)
Definition jsIndex (arr : list string) (i : Z) : option string :=
  if i <? 0 then None else arr !! Z.to_nat i.

(** [Math.floor(Math.random() * n)] *)
Definition randomBelow (W : World) (n : Z) (rt : Runtime) : Z * Runtime :=
  let '(r, rt1) := mathRandom W rt in (Qfloor (r * inject_Z n), rt1).

Record Nickname := {
  nickAdjective : option string;
  nickNoun : option string;
  nickNumber : Z
}.

Definition generateNickname (W : World) (rt : Runtime) : Nickname * Runtime :=
  let '(i, rt1) := randomBelow W (Z.of_nat (length adjectives)) rt in
  let adjective := jsIndex adjectives i in
  let '(j, rt2) := randomBelow W (Z.of_nat (length nouns)) rt1 in
  let noun := jsIndex nouns j in
  let '(number, rt3) := randomBelow W 9999 rt2 in
  ({| nickAdjective := adjective; nickNoun := noun; nickNumber := number |}, rt3).

(** ** Further invariants *)

(** Every queue entry is stored under its own socket id. *)
Definition queueKeyed (q : MatchmakingQueue) : Prop :=
  Forall (fun e => socketId e.2 = e.1) (queue q).

(** No queued socket id is the empty string. *)
Definition queueKeysTruthy (q : MatchmakingQueue) : Prop :=
  Forall (fun k => k ≠ "") (jsmap_keys (queue q)).

(** The queue entries of one tier, in queue order. *)
Definition tierEntries (t : Tier) (m : list (string * QueuedUser))
  : list (string * QueuedUser) :=
  List.filter (fun e => String.eqb (tierOr (tier (preferences e.2))) (tierName t)) m.

(** The queue entries whose tier has no bucket. *)
Definition unbucketedEntries (m : list (string * QueuedUser))
  : list (string * QueuedUser) :=
  List.filter
    (fun e => match tierOfName (tierOr (tier (preferences e.2))) with
              | Some _ => false
              | None => true
              end) m.



(** Each tier bucket lists, in order, the queued sessions of its tier. *)
Definition bucketsMirrorQueue (q : MatchmakingQueue) : Prop :=
  ∀ t, bucketGet t (tierBuckets q) = jsmap_keys (tierEntries t (queue q)).

(** [socketIdToUserId] maps exactly the queued sessions, to their user. *)
Definition userIdsMirrorQueue (q : MatchmakingQueue) : Prop :=
  ∀ k, socketIdToUserId q !! k = userId <$> jsmap_get k (queue q).

Definition indexInv (q : MatchmakingQueue) : Prop :=
  queueKeysUnique q ∧ queueKeyed q ∧ bucketsMirrorQueue q ∧ userIdsMirrorQueue q.

Definition pairInv (q : MatchmakingQueue) : Prop :=
  queueKeysTruthy q ∧ queueDisjointFromMatches q ∧ matchValuesTruthy q
  ∧ pairingSymmetric q.

Definition serverInv (q : MatchmakingQueue) : Prop := indexInv q ∧ pairInv q.

(** What every candidate [findMatch] collects for caller [sid] satisfies. *)
Definition candidateOk (q : MatchmakingQueue) (sid : string) (u : QueuedUser)
    (c : MatchCandidate) : Prop :=
  user c ∈ jsmap_values (queue q)
  ∧ socketId (user c) ≠ sid
  ∧ isMatched (socketId (user c)) q = false
  ∧ isBlockedPair u (user c) = false.

Arguments removeUser : simpl never.
Arguments findMatch : simpl never.
Arguments createMatch : simpl never.
Arguments addUser : simpl never.

(** * Proofs *)

(** ** JavaScript values and maps *)

Lemma jsTruthy_true (s : string) : jsTruthy s = true ↔ s ≠ "".
Proof.
  unfold jsTruthy. destruct (String.eqb_spec s ""); simpl; split; intros; congruence.
Qed.

Lemma isNil_true {A} (l : list A) : isNil l = true ↔ l = [].
Proof. destruct l; cbn; split; intros; congruence. Qed.

Section JSMapFacts.
Context {V : Type}.
Implicit Types (m : list (string * V)) (k s : string) (v : V).

Lemma jsmap_keys_delete m k s :
  s ∈ jsmap_keys (jsmap_delete k m) ↔ s ≠ k ∧ s ∈ jsmap_keys m.
Proof.
  induction m as [|[k' v'] m IH]; simpl.
  - split; [intros H; inversion H | intros [_ H]; inversion H].
  - destruct (String.eqb_spec k k') as [->|Hne]; simpl.
    + rewrite IH, elem_of_cons. intuition congruence.
    + rewrite !elem_of_cons, IH. intuition congruence.
Qed.

Lemma jsmap_keys_set m k v s :
  s ∈ jsmap_keys (jsmap_set k v m) ↔ s = k ∨ s ∈ jsmap_keys m.
Proof.
  induction m as [|[k' v'] m IH]; simpl.
  - rewrite list_elem_of_singleton. split; [auto | intros [?|H]; [done | inversion H]].
  - destruct (String.eqb_spec k k') as [->|Hne]; simpl.
    + rewrite !elem_of_cons. intuition congruence.
    + rewrite !elem_of_cons, IH. intuition congruence.
Qed.

Lemma jsmap_delete_NoDup m k :
  NoDup (jsmap_keys m) → NoDup (jsmap_keys (jsmap_delete k m)).
Proof.
  induction m as [|[k' v'] m IH]; simpl; [done|].
  rewrite NoDup_cons. intros [Hk Hm].
  destruct (String.eqb_spec k k'); simpl; [auto|].
  apply NoDup_cons. split; [|auto].
  rewrite jsmap_keys_delete. tauto.
Qed.

Lemma jsmap_set_NoDup m k v :
  NoDup (jsmap_keys m) → NoDup (jsmap_keys (jsmap_set k v m)).
Proof.
  induction m as [|[k' v'] m IH]; simpl.
  - intros _. apply NoDup_singleton.
  - rewrite NoDup_cons. intros [Hk Hm].
    destruct (String.eqb_spec k k') as [->|Hne]; simpl.
    + apply NoDup_cons. auto.
    + apply NoDup_cons. split; [|auto].
      rewrite jsmap_keys_set. intros [?|?]; congruence.
Qed.

Lemma jsmap_get_Some_keys m k v : jsmap_get k m = Some v → k ∈ jsmap_keys m.
Proof.
  induction m as [|[k' v'] m IH]; simpl; [done|].
  destruct (String.eqb_spec k k') as [->|Hne]; intros H; apply elem_of_cons; auto.
Qed.

Lemma jsmap_get_None_keys m k : jsmap_get k m = None ↔ k ∉ jsmap_keys m.
Proof.
  induction m as [|[k' v'] m IH]; simpl.
  - split; [intros _ H; inversion H | done].
  - rewrite not_elem_of_cons. destruct (String.eqb_spec k k') as [->|Hne].
    + split; [done | intros [? _]; congruence].
    + rewrite IH. tauto.
Qed.

Lemma jsmap_keys_set_present m k v :
  k ∈ jsmap_keys m → jsmap_keys (jsmap_set k v m) = jsmap_keys m.
Proof.
  induction m as [|[k' v'] m IH]; simpl; [intros H; inversion H|].
  destruct (String.eqb_spec k k') as [->|Hne]; simpl; [done|].
  rewrite elem_of_cons. intros [?|?]; [congruence|]. f_equal. auto.
Qed.

Lemma jsmap_get_delete m k : jsmap_get k (jsmap_delete k m) = None.
Proof. apply jsmap_get_None_keys. rewrite jsmap_keys_delete. tauto. Qed.

Lemma jsmap_get_Some_values m k v : jsmap_get k m = Some v → v ∈ jsmap_values m.
Proof.
  induction m as [|[k' v'] m IH]; cbn [jsmap_get jsmap_values map snd]; [done|].
  destruct (String.eqb k k').
  - intros [= ->]. apply elem_of_cons. by left.
  - intros H. apply elem_of_cons. right. by apply IH.
Qed.

Lemma jsmap_values_set m k v x :
  x ∈ jsmap_values (jsmap_set k v m) → x = v ∨ x ∈ jsmap_values m.
Proof.
  induction m as [|[k' v'] m IH]; cbn [jsmap_set jsmap_values map snd].
  - intros H. apply list_elem_of_singleton in H. by left.
  - destruct (String.eqb k k'); cbn [map snd]; rewrite !elem_of_cons.
    + intros [?|?]; auto.
    + intros [?|H]; [auto|]. apply IH in H as [?|?]; auto.
Qed.

Lemma jsmap_has_true m k : jsmap_has k m = true ↔ is_Some (jsmap_get k m).
Proof.
  unfold jsmap_has. destruct (jsmap_get k m); split; try done.
  all: try (intros [x Hx]; discriminate Hx).
Qed.
End JSMapFacts.

(** ** The queue operations *)

Lemma isMatched_false s q : isMatched s q = false ↔ matches q !! s = None.
Proof.
  unfold isMatched. rewrite bool_decide_eq_false, <- eq_None_not_Some. done.
Qed.

Lemma removeUser_queue_keys k b q s :
  s ∈ jsmap_keys (queue (removeUser k b q)) ↔ s ≠ k ∧ s ∈ jsmap_keys (queue q).
Proof.
  unfold removeUser.
  destruct (jsmap_get k (queue q)) as [u|] eqn:Hget; simpl.
  - destruct b; simpl; [apply jsmap_keys_delete|].
    destruct (matches q !! k) as [m|]; [destruct (jsTruthy m)|]; simpl;
      apply jsmap_keys_delete.
  - apply jsmap_get_None_keys in Hget.
    assert (Hs : s ∈ jsmap_keys (queue q) ↔ s ≠ k ∧ s ∈ jsmap_keys (queue q))
      by (split; [intros H; split; [congruence | done] | tauto]).
    destruct b; simpl; [exact Hs|].
    destruct (matches q !! k) as [m|]; [destruct (jsTruthy m)|]; simpl; exact Hs.
Qed.

Lemma removeUser_queue_get k b q : jsmap_get k (queue (removeUser k b q)) = None.
Proof. apply jsmap_get_None_keys. rewrite removeUser_queue_keys. tauto. Qed.

Lemma removeUser_queue_NoDup k b q :
  queueKeysUnique q → queueKeysUnique (removeUser k b q).
Proof.
  unfold queueKeysUnique, removeUser. intros Hnd.
  destruct (jsmap_get k (queue q)) as [u|]; simpl.
  - destruct b; simpl; [by apply jsmap_delete_NoDup|].
    destruct (matches q !! k) as [m|]; [destruct (jsTruthy m)|]; simpl;
      by apply jsmap_delete_NoDup.
  - destruct b; simpl; [done|].
    destruct (matches q !! k) as [m|]; [destruct (jsTruthy m)|]; simpl; done.
Qed.

(** The pairing table after [removeUser]. *)
Lemma removeUser_matches k b q :
  matches (removeUser k b q)
  = if b then matches q
    else match matches q !! k with
         | Some m => if jsTruthy m then delete m (delete k (matches q)) else matches q
         | None => matches q
         end.
Proof.
  unfold removeUser.
  destruct (jsmap_get k (queue q)) as [u|]; cbn [matches];
    destruct b; cbn [matches]; try reflexivity;
    destruct (matches q !! k) as [m|]; try reflexivity;
    destruct (jsTruthy m); reflexivity.
Qed.

Lemma removeUser_lastMatchAttempt k b q :
  lastMatchAttempt (removeUser k b q) = delete k (lastMatchAttempt q).
Proof.
  unfold removeUser. destruct (jsmap_get k (queue q)); cbn [lastMatchAttempt matches];
    destruct b; cbn [lastMatchAttempt matches]; try reflexivity;
    destruct (matches q !! k) as [m|]; try reflexivity; destruct (jsTruthy m); reflexivity.
Qed.

(** [removeUser] only ever deletes entries of the pairing table. *)
Lemma removeUser_matches_sub k b q x v :
  matches (removeUser k b q) !! x = Some v → matches q !! x = Some v.
Proof.
  rewrite removeUser_matches. destruct b; [done|].
  destruct (matches q !! k) as [m|]; [destruct (jsTruthy m)|]; try done.
  intros H. apply lookup_delete_Some in H as [_ H].
  by apply lookup_delete_Some in H as [_ H].
Qed.

Lemma removeUser_matches_None k b q x :
  matches q !! x = None → matches (removeUser k b q) !! x = None.
Proof.
  intros H. destruct (matches (removeUser k b q) !! x) as [v|] eqn:E; [|done].
  apply removeUser_matches_sub in E. congruence.
Qed.

Lemma removeUser_keep_matches k q : matches (removeUser k true q) = matches q.
Proof. by rewrite removeUser_matches. Qed.

(** With [keepMatch = false] the caller's own entry goes, unless its value
    is the empty string. *)
Lemma removeUser_clears_own k q :
  matchValuesTruthy q → matches (removeUser k false q) !! k = None.
Proof.
  intros Hv. rewrite removeUser_matches.
  destruct (matches q !! k) as [m|] eqn:Hm; [|done].
  destruct (jsTruthy m) eqn:Ht.
  - destruct (decide (m = k)) as [->|Hne]; [apply lookup_delete_eq|].
    rewrite lookup_delete_ne by done. apply lookup_delete_eq.
  - apply Hv in Hm. apply jsTruthy_true in Hm. congruence.
Qed.

Lemma removeUser_clears_pair sid pid q :
  getMatch sid q = Some pid → pid ≠ "" →
  getMatch sid (removeUser sid false q) = None
  ∧ getMatch pid (removeUser sid false q) = None.
Proof.
  unfold getMatch. intros Hsid Hpid. rewrite removeUser_matches, Hsid.
  apply jsTruthy_true in Hpid. rewrite Hpid. split.
  - destruct (decide (pid = sid)) as [->|Hne]; [apply lookup_delete_eq|].
    rewrite lookup_delete_ne by done. apply lookup_delete_eq.
  - apply lookup_delete_eq.
Qed.


Lemma addUser_queue_keys W sid uid prefs q rt s :
  s ∈ jsmap_keys (queue (addUser W sid uid prefs q rt).1)
  ↔ s = sid ∨ s ∈ jsmap_keys (queue q).
Proof.
  unfold addUser, dateNow. cbn [fst snd queue].
  rewrite jsmap_keys_set, removeUser_queue_keys.
  destruct (decide (s = sid)); tauto.
Qed.

Lemma addUser_matches W sid uid prefs q rt :
  matches (addUser W sid uid prefs q rt).1 = matches (removeUser sid false q).
Proof. reflexivity. Qed.

Lemma addUser_queue_NoDup W sid uid prefs q rt :
  queueKeysUnique q → queueKeysUnique (addUser W sid uid prefs q rt).1.
Proof.
  intros H. unfold queueKeysUnique, addUser, dateNow. cbn [fst snd queue].
  apply jsmap_set_NoDup. by apply removeUser_queue_NoDup.
Qed.

(** [findMatch] leaves the state alone or updates the caller's own entry. *)
Lemma findMatch_state W sid q rt :
  (findMatch W sid q rt).1.2 = q
  ∨ ∃ u0 t, jsmap_get sid (queue q) = Some u0
            ∧ (findMatch W sid q rt).1.2
              = withQueue (jsmap_set sid (touchUser t u0) (queue q)) q.
Proof.
  unfold findMatch.
  destruct (isMatched sid q); [by left|].
  destruct (jsmap_get sid (queue q)) as [u0|] eqn:Hget; [|by left].
  right. exists u0, (now W (clockReads rt)). split; [done|].
  unfold dateNow. cbv beta iota zeta.
  destruct (collectCandidates _ _ _ _ _) as [cands rt2].
  destruct (isNil cands); [done|].
  by destruct (selectMatch W cands rt2).
Qed.

Lemma findMatch_matches W sid q rt : matches (findMatch W sid q rt).1.2 = matches q.
Proof.
  destruct (findMatch_state W sid q rt) as [->|(u0 & t & _ & ->)]; reflexivity.
Qed.

Lemma findMatch_queue_keys W sid q rt :
  jsmap_keys (queue (findMatch W sid q rt).1.2) = jsmap_keys (queue q).
Proof.
  destruct (findMatch_state W sid q rt) as [->|(u0 & t & Hget & ->)]; [done|].
  simpl. apply jsmap_keys_set_present. by eapply jsmap_get_Some_keys.
Qed.

Lemma createMatch_matches a b q :
  matches (createMatch a b q) = <[b := a]> (<[a := b]> (matches q)).
Proof. unfold createMatch. by rewrite !removeUser_keep_matches. Qed.

Lemma createMatch_queue_keys a b q s :
  s ∈ jsmap_keys (queue (createMatch a b q))
  ↔ s ≠ a ∧ s ≠ b ∧ s ∈ jsmap_keys (queue q).
Proof. unfold createMatch. rewrite !removeUser_queue_keys. simpl. tauto. Qed.

Lemma createMatch_drops_caller a b q : jsmap_get a (queue (createMatch a b q)) = None.
Proof. apply jsmap_get_None_keys. rewrite createMatch_queue_keys. tauto. Qed.

Lemma clearMatch_unmatches a b q :
  isMatched a (clearMatch a b q) = false ∧ isMatched b (clearMatch a b q) = false.
Proof.
  rewrite !isMatched_false. unfold clearMatch. cbn [matches withMatches]. split.
  - destruct (decide (b = a)) as [->|Hne]; [apply lookup_delete_eq|].
    rewrite lookup_delete_ne by done. apply lookup_delete_eq.
  - apply lookup_delete_eq.
Qed.

Lemma getUserWaitTime_absent W sid q rt :
  jsmap_get sid (queue q) = None → getUserWaitTime W sid q rt = (0, rt).
Proof. intros H. unfold getUserWaitTime. by rewrite H. Qed.

(** ** Queue and pairing table exclude each other *)

Lemma applyOp_exclusionInv W op st :
  createArgsNonEmpty op → exclusionInv st.1 → exclusionInv (applyOp W op st).1.
Proof.
  intros Hop (Hnd & Hdis & Hv).
  destruct op as [sid uid prefs|sid keep|sid|a b|a b]; cbn [applyOp fst snd].
  - split; [by apply addUser_queue_NoDup|]. split.
    + intros s Hs. rewrite addUser_matches.
      apply addUser_queue_keys in Hs as [->|Hs].
      * by apply removeUser_clears_own.
      * apply removeUser_matches_None. by apply Hdis.
    + intros k v Hk. rewrite addUser_matches in Hk.
      apply removeUser_matches_sub in Hk. eauto.
  - split; [by apply removeUser_queue_NoDup|]. split.
    + intros s Hs. apply removeUser_queue_keys in Hs as [_ Hs].
      apply removeUser_matches_None. by apply Hdis.
    + intros k v Hk. apply removeUser_matches_sub in Hk. eauto.
  - destruct (findMatch W sid st.1 st.2) as [[r q'] rt'] eqn:E. cbn [fst snd].
    assert (Hq : q' = (findMatch W sid st.1 st.2).1.2) by (by rewrite E).
    subst q'. split; [|split].
    + unfold queueKeysUnique. by rewrite findMatch_queue_keys.
    + intros s. rewrite findMatch_queue_keys, findMatch_matches. apply Hdis.
    + intros k v. rewrite findMatch_matches. apply Hv.
  - destruct Hop as [Ha Hb]. split; [|split].
    + unfold createMatch. by do 2 apply removeUser_queue_NoDup.
    + intros s Hs. apply createMatch_queue_keys in Hs as (Hsa & Hsb & Hs).
      rewrite createMatch_matches. rewrite !lookup_insert_ne by done. by apply Hdis.
    + intros k v. rewrite createMatch_matches.
      rewrite lookup_insert_Some. intros [[_ <-]|[_ Hk]]; [done|].
      apply lookup_insert_Some in Hk as [[_ <-]|[_ Hk]]; [done|]. eauto.
  - split; [done|]. split.
    + intros s Hs. simpl.
      destruct (delete b (delete a (matches st.1)) !! s) as [v|] eqn:E; [|done].
      apply lookup_delete_Some in E as [_ E]. apply lookup_delete_Some in E as [_ E].
      rewrite (Hdis s Hs) in E. done.
    + intros k v Hk. simpl in Hk.
      apply lookup_delete_Some in Hk as [_ Hk]. apply lookup_delete_Some in Hk as [_ Hk].
      eauto.
Qed.

Lemma applyOps_exclusionInv W ops st :
  Forall createArgsNonEmpty ops → exclusionInv st.1 → exclusionInv (applyOps W ops st).1.
Proof.
  revert st. induction ops as [|op ops IH]; intros st Hops Hinv; [done|].
  apply Forall_cons in Hops as [Hop Hops].
  simpl. apply IH; [done|]. by apply applyOp_exclusionInv.
Qed.

Lemma emptyQueue_exclusionInv : exclusionInv emptyQueue.
Proof.
  split; [apply NoDup_nil_2|]. split.
  - intros s Hs. inversion Hs.
  - intros k v Hk. simpl in Hk. by rewrite lookup_empty in Hk.
Qed.

(** C1.  Starting from the empty state, after every sequence of addUser,
    removeUser, findMatch, createMatch and clearMatch calls on SessionIDs,
    each SessionID is the key of at most one queue entry and no SessionID is
    a key of both the queue and the pairing table.  A SessionID is a
    socket.io id, a non-empty string (the handlers return on [!socket.id]);
    the only place where this matters is [createMatch], so that is the
    hypothesis.  Every prefix of such a sequence is such a sequence, so this
    holds at every point of the run. *)
Theorem queue_pairing_exclusion W ops rt :
  Forall createArgsNonEmpty ops →
  queueKeysUnique (applyOps W ops (emptyQueue, rt)).1
  ∧ queueDisjointFromMatches (applyOps W ops (emptyQueue, rt)).1.
Proof.
  intros Hops.
  destruct (applyOps_exclusionInv W ops (emptyQueue, rt) Hops emptyQueue_exclusionInv)
    as (H1 & H2 & _).
  done.
Qed.

Lemma queue_pairing_exclusion_witness :
  queueKeysUnique
    (applyOps tickingWorld
       [OpAddUser "s1" "u1" None; OpAddUser "s2" "u2" None; OpFindMatch "s1";
        OpCreateMatch "s1" "s2"; OpAddUser "s1" "u1" None; OpRemoveUser "s2" false]
       (emptyQueue, startRuntime)).1
  ∧ queueDisjointFromMatches
      (applyOps tickingWorld
         [OpAddUser "s1" "u1" None; OpAddUser "s2" "u2" None; OpFindMatch "s1";
          OpCreateMatch "s1" "s2"; OpAddUser "s1" "u1" None; OpRemoveUser "s2" false]
         (emptyQueue, startRuntime)).1.
Proof.
  apply (queue_pairing_exclusion tickingWorld).
  repeat constructor; discriminate.
Defined.

(** Why the ids given to [createMatch] have to be SessionIDs: the empty
    string is falsy, so once "a" is paired with it, [removeUser] inside
    [addUser] takes the partner of "a" for absent, and "a" ends up in the
    queue and in the pairing table. *)
Lemma createMatch_with_empty_id :
  ¬ (queueKeysUnique
       (applyOps tickingWorld [OpCreateMatch "a" ""; OpAddUser "a" "u" None]
          (emptyQueue, startRuntime)).1
     ∧ queueDisjointFromMatches
         (applyOps tickingWorld [OpCreateMatch "a" ""; OpAddUser "a" "u" None]
            (emptyQueue, startRuntime)).1).
Proof.
  intros [_ H]. specialize (H "a").
  assert (Hin : "a" ∈ jsmap_keys
            (queue (applyOps tickingWorld [OpCreateMatch "a" ""; OpAddUser "a" "u" None]
                      (emptyQueue, startRuntime)).1)).
  { vm_compute. apply elem_of_cons. by left. }
  specialize (H Hin). vm_compute in H. discriminate H.
Qed.

(** ** Symmetry of the pairing table *)

Lemma symmetricMap_delete_pair (m : gmap string string) a b :
  symmetricMap m → m !! a = Some b → symmetricMap (delete b (delete a m)).
Proof.
  intros Hsym Hab x y Hxy.
  apply lookup_delete_Some in Hxy as [Hxb Hxy].
  apply lookup_delete_Some in Hxy as [Hxa Hxy].
  pose proof (Hsym _ _ Hxy) as Hyx.
  pose proof (Hsym _ _ Hab) as Hba.
  rewrite !lookup_delete_ne; [done| |]; intros <-; congruence.
Qed.

Lemma symmetricMap_insert_pair (m : gmap string string) a b :
  symmetricMap m → m !! a = None → m !! b = None →
  symmetricMap (<[b := a]> (<[a := b]> m)).
Proof.
  intros Hsym Ha Hb x y Hxy.
  apply lookup_insert_Some in Hxy as [[<- <-]|[Hxb Hxy]].
  - destruct (decide (b = a)) as [->|Hne]; [apply lookup_insert_eq|].
    rewrite lookup_insert_ne by done. apply lookup_insert_eq.
  - apply lookup_insert_Some in Hxy as [[<- <-]|[Hxa Hxy]]; [apply lookup_insert_eq|].
    pose proof (Hsym _ _ Hxy) as Hyx.
    rewrite !lookup_insert_ne; [done| |]; intros <-; congruence.
Qed.

Lemma removeUser_symmetric k b q :
  pairingSymmetric q → pairingSymmetric (removeUser k b q).
Proof.
  unfold pairingSymmetric, getMatch. rewrite removeUser_matches. intros Hsym.
  destruct b; [done|].
  destruct (matches q !! k) as [m|] eqn:Hk; [|done].
  destruct (jsTruthy m); [|done].
  by apply symmetricMap_delete_pair.
Qed.

Lemma applyOp_symmetric W op st :
  opAllowed op st.1 = true → pairingSymmetric st.1 → pairingSymmetric (applyOp W op st).1.
Proof.
  intros Hop Hsym.
  destruct op as [sid uid prefs|sid keep|sid|a b|a b]; cbn [applyOp fst snd].
  - unfold pairingSymmetric, getMatch. rewrite addUser_matches.
    by apply removeUser_symmetric.
  - by apply removeUser_symmetric.
  - destruct (findMatch W sid st.1 st.2) as [[r q'] rt'] eqn:E. cbn [fst snd].
    assert (Hq : q' = (findMatch W sid st.1 st.2).1.2) by (by rewrite E).
    subst q'. unfold pairingSymmetric, getMatch. by rewrite findMatch_matches.
  - cbn [opAllowed] in Hop. apply andb_true_iff in Hop as [Ha Hb].
    apply negb_true_iff, isMatched_false in Ha.
    apply negb_true_iff, isMatched_false in Hb.
    unfold pairingSymmetric, getMatch. rewrite createMatch_matches.
    by apply symmetricMap_insert_pair.
  - cbn [opAllowed] in Hop. apply bool_decide_eq_true in Hop.
    unfold pairingSymmetric, getMatch, clearMatch. cbn [matches withMatches].
    by apply symmetricMap_delete_pair.
Qed.

Lemma applyOps_symmetric W ops st :
  opsAllowed W ops st = true → pairingSymmetric st.1 →
  pairingSymmetric (applyOps W ops st).1.
Proof.
  revert st. induction ops as [|op ops IH]; intros st Hall Hsym; [done|].
  cbn [opsAllowed] in Hall. apply andb_true_iff in Hall as [Hop Hall].
  cbn [applyOps fold_left]. apply IH; [done|]. by apply applyOp_symmetric.
Qed.

(** C2 (amended).  Starting from the empty state, the pairing relation is
    symmetric (getMatch(A) = B implies getMatch(B) = A) after every sequence
    of queue operations in which createMatch pairs two sessions neither of
    which is matched and clearMatch is given a session and its current
    partner; addUser, removeUser and findMatch take arbitrary arguments.
    Every prefix of such a sequence is such a sequence, so this holds after
    every operation. *)
Theorem pairing_symmetric W ops rt :
  opsAllowed W ops (emptyQueue, rt) = true →
  pairingSymmetric (applyOps W ops (emptyQueue, rt)).1.
Proof.
  intros Hall. apply applyOps_symmetric; [done|].
  intros a b H. unfold getMatch in H. cbn in H. by rewrite lookup_empty in H.
Qed.

Lemma pairing_symmetric_witness :
  pairingSymmetric
    (applyOps tickingWorld
       [OpAddUser "s1" "u1" None; OpAddUser "s2" "u2" None; OpCreateMatch "s1" "s2";
        OpRemoveUser "s3" false; OpClearMatch "s2" "s1"; OpAddUser "s1" "u1" None]
       (emptyQueue, startRuntime)).1.
Proof.
  apply (pairing_symmetric tickingWorld). vm_compute. reflexivity.
Defined.

(** C2 as stated fails: clearMatch with a second argument that is not the
    partner of the first deletes one half of a pairing only. *)
Lemma pairing_symmetric_fails_on_foreign_clearMatch :
  ¬ pairingSymmetric
      (applyOps tickingWorld [OpCreateMatch "a" "b"; OpClearMatch "a" "c"]
         (emptyQueue, startRuntime)).1.
Proof.
  intros H. specialize (H "b" "a").
  assert (Hb : getMatch "b"
            (applyOps tickingWorld [OpCreateMatch "a" "b"; OpClearMatch "a" "c"]
               (emptyQueue, startRuntime)).1 = Some "a") by (vm_compute; reflexivity).
  specialize (H Hb). vm_compute in H. discriminate H.
Qed.

(** ** The compatibility rule *)

Lemma regionFilterRejects_false u c :
  regionFilterRejects u c = false
  ↔ ∀ r, region (preferences u) = Some r → r ≠ "" → r ≠ "any" →
         region (preferences c) = Some r.
Proof.
  unfold regionFilterRejects.
  destruct (region (preferences u)) as [r|]; [|split; [intros _ r H; discriminate H | done]].
  destruct (String.eqb_spec r "") as [->|Hr].
  { split; [intros _ r H Hne; injection H as <-; done | done]. }
  destruct (String.eqb_spec r "any") as [->|Hany].
  { replace (jsTruthy "any") with true by reflexivity. cbn [negb andb].
    split; [intros _ r H _ Hne; injection H as <-; done | done]. }
  assert (Ht : jsTruthy r = true) by (by apply jsTruthy_true).
  rewrite Ht. cbn [negb andb].
  destruct (region (preferences c)) as [mr|].
  - destruct (String.eqb_spec r mr) as [<-|Hne].
    + rewrite Ht. destruct (String.eqb_spec r "any"); [done|]. cbn.
      split; [intros _ r' H _ _; congruence | done].
    + rewrite orb_true_r. split; [done|].
      intros H. specialize (H r eq_refl Hr Hany). congruence.
  - split; [done|]. intros H. specialize (H r eq_refl Hr Hany). discriminate H.
Qed.

Lemma Gender_eqb_eq a b : Gender_eqb a b = true ↔ a = b.
Proof. destruct a, b; cbn; split; intros; congruence. Qed.

Lemma genderFilterRejects_false u c :
  genderFilterRejects u c = false
  ↔ ∀ g, gender (preferences u) = Some g → g ≠ anyGender →
         gender (preferences c) = Some g.
Proof.
  unfold genderFilterRejects.
  destruct (gender (preferences u)) as [g|]; [|split; [intros _ g H; discriminate H | done]].
  destruct (Gender_eqb g anyGender) eqn:Hg; cbn [negb andb].
  { destruct g; try discriminate Hg.
    split; [intros _ g [= <-] Hne; done | done]. }
  assert (Hne : g ≠ anyGender) by (intros ->; discriminate Hg).
  destruct (gender (preferences c)) as [mg|].
  - destruct (Gender_eqb mg anyGender) eqn:Hmg; cbn [orb].
    + destruct mg; try discriminate Hmg.
      split; [done|]. intros H. specialize (H g eq_refl Hne). congruence.
    + destruct (Gender_eqb g mg) eqn:Hgm; cbn [negb].
      * apply Gender_eqb_eq in Hgm as <-.
        split; [intros _ g' [= <-] _; reflexivity | done].
      * split; [done|]. intros H. specialize (H g eq_refl Hne).
        injection H as ->. rewrite (proj2 (Gender_eqb_eq g g) eq_refl) in Hgm.
        discriminate Hgm.
  - split; [done|]. intros H. specialize (H g eq_refl Hne). discriminate H.
Qed.

(** C8.  [areCompatible(U, C)] is true exactly when C is another session
    than U, C is not in a pairing, neither block list holds the other's
    UserID, and for region and for gender: if the preference of U is set and
    not 'any', the preference of C equals it.  The preferences of C occur
    only as the values compared with those of U: they filter nothing
    themselves. *)
Theorem areCompatible_spec q U C : areCompatible q U C = true ↔ compatibleSpec q U C.
Proof.
  unfold areCompatible, compatibleSpec, isBlockedPair, getMatch.
  destruct (String.eqb_spec (socketId C) (socketId U)) as [Heq|Hne].
  { split; [done | intros [H _]; done]. }
  destruct (isMatched (socketId C) q) eqn:Hm.
  { split; [done|]. intros (_ & H & _). apply isMatched_false in H. congruence. }
  apply isMatched_false in Hm.
  destruct (bool_decide (userId C ∈ blockedUsers U)) eqn:Hb1; cbn [orb].
  { apply bool_decide_eq_true in Hb1. split; [done | intros (_ & _ & H & _); done]. }
  apply bool_decide_eq_false in Hb1.
  destruct (bool_decide (userId U ∈ blockedUsers C)) eqn:Hb2.
  { apply bool_decide_eq_true in Hb2. split; [done | intros (_ & _ & _ & H & _); done]. }
  apply bool_decide_eq_false in Hb2.
  destruct (regionFilterRejects U C) eqn:Hr.
  { split; [done|]. intros (_ & _ & _ & _ & H & _).
    apply (proj2 (regionFilterRejects_false U C)) in H. congruence. }
  pose proof (proj1 (regionFilterRejects_false U C) Hr) as Hr'.
  destruct (genderFilterRejects U C) eqn:Hg.
  { split; [done|]. intros (_ & _ & _ & _ & _ & H).
    apply (proj2 (genderFilterRejects_false U C)) in H. congruence. }
  pose proof (proj1 (genderFilterRejects_false U C) Hg) as Hg'.
  split; [intros _ | done]. repeat split; done.
Qed.

(** ** Sorting and weighted selection *)

Lemma insertByScore_perm c l : Permutation (insertByScore c l) (c :: l).
Proof.
  induction l as [|d l IH]; cbn [insertByScore]; [done|].
  destruct (0 <? compareDesc c d)%float; [|done].
  rewrite IH. apply perm_swap.
Qed.

Lemma sortByScoreDesc_perm l : Permutation (sortByScoreDesc l) l.
Proof.
  induction l as [|c l IH]; [done|].
  cbn [sortByScoreDesc fold_right]. rewrite insertByScore_perm.
  by apply perm_skip.
Qed.

(** What a consistent comparator gives. *)
Lemma consistentComparator_spec l :
  consistentComparator l = true →
  (∀ a b, a ∈ l → b ∈ l → exceeds a b = true → exceeds b a = false)
  ∧ (∀ a b c, a ∈ l → b ∈ l → c ∈ l →
       exceeds b a = false → exceeds c b = false → exceeds c a = false).
Proof.
  unfold consistentComparator. rewrite forallb_forall. intros H. split.
  - intros a b Ha Hb Hab. rewrite list_elem_of_In in Ha, Hb.
    specialize (H a Ha). rewrite forallb_forall in H. specialize (H b Hb).
    apply andb_true_iff in H as [H _]. rewrite Hab in H.
    by destruct (exceeds b a).
  - intros a b c Ha Hb Hc Hba Hcb. rewrite list_elem_of_In in Ha, Hb, Hc.
    specialize (H a Ha). rewrite forallb_forall in H. specialize (H b Hb).
    apply andb_true_iff in H as [_ H]. rewrite forallb_forall in H.
    specialize (H c Hc). rewrite Hba, Hcb in H. cbn [implb negb andb] in H.
    by destruct (exceeds c a).
Qed.

Lemma insertByScore_sorted all c l :
  consistentComparator all = true → c ∈ all → (∀ x, x ∈ l → x ∈ all) →
  sortedByScoreDesc l → sortedByScoreDesc (insertByScore c l).
Proof.
  intros Hcons Hc. apply consistentComparator_spec in Hcons as [Hasym Htrans].
  unfold sortedByScoreDesc.
  induction l as [|d l IH]; cbn [insertByScore]; intros Hsub Hs.
  - apply SSorted_cons; [apply SSorted_nil | apply List.Forall_nil].
  - apply StronglySorted_inv in Hs as [Hl Hd].
    assert (Hdall : d ∈ all) by (apply Hsub, elem_of_cons; by left).
    assert (Hlall : ∀ x, x ∈ l → x ∈ all)
      by (intros x Hx; apply Hsub, elem_of_cons; by right).
    change (0 <? compareDesc c d)%float with (exceeds d c).
    destruct (exceeds d c) eqn:Hdc.
    + apply SSorted_cons; [by apply IH|].
      apply List.Forall_forall. intros x Hx.
      apply (Permutation_in _ (insertByScore_perm c l)) in Hx as [<-|Hx].
      * by apply Hasym.
      * by apply (proj1 (List.Forall_forall _ _) Hd).
    + apply SSorted_cons; [by apply SSorted_cons|].
      apply List.Forall_cons; [done|].
      apply List.Forall_forall. intros x Hx.
      apply (Htrans c d x); try done.
      * apply Hlall. by apply list_elem_of_In.
      * by apply (proj1 (List.Forall_forall _ _) Hd).
Qed.

Lemma sortByScoreDesc_sorted l :
  consistentComparator l = true → sortedByScoreDesc (sortByScoreDesc l).
Proof.
  intros Hcons.
  assert (H : ∀ l', (∀ x, x ∈ l' → x ∈ l) → sortedByScoreDesc (sortByScoreDesc l')).
  { induction l' as [|c l' IH]; intros Hsub; [apply SSorted_nil|].
    cbn [sortByScoreDesc fold_right].
    apply (insertByScore_sorted l); [done| | |].
    - apply Hsub, elem_of_cons. by left.
    - intros x Hx. apply Hsub, elem_of_cons. right.
      by rewrite <- (sortByScoreDesc_perm l').
    - apply IH. intros x Hx. apply Hsub, elem_of_cons. by right. }
  by apply H.
Qed.

Lemma topCandidatesOf_take l : topCandidatesOf l = take 5 (sortByScoreDesc l).
Proof.
  unfold topCandidatesOf.
  destruct (Nat.le_gt_cases (length (sortByScoreDesc l)) 5) as [Hle|Hgt].
  - rewrite Nat.min_r by done. rewrite firstn_all. symmetry. by apply take_ge.
  - rewrite Nat.min_l by lia. done.
Qed.

Lemma topCandidatesOf_nonempty l : l ≠ [] → topCandidatesOf l ≠ [].
Proof.
  intros Hl. rewrite topCandidatesOf_take.
  pose proof (Permutation_length (sortByScoreDesc_perm l)) as Hlen.
  destruct (sortByScoreDesc l) as [|c s]; [|done].
  destruct l; [done | discriminate Hlen].
Qed.

Lemma remainderAfter_0 x c rest : remainderAfter x (c :: rest) 0 = (x - score c)%float.
Proof. unfold remainderAfter. cbn [take fold_left]. by rewrite take_0. Qed.

Lemma remainderAfter_S x c rest k :
  remainderAfter x (c :: rest) (S k) = remainderAfter (x - score c)%float rest k.
Proof. reflexivity. Qed.

(** The loop stops at the first position at which the draw is used up. *)
Lemma pickWeighted_Some x top u :
  pickWeighted x top = Some u →
  ∃ k c, top !! k = Some c ∧ u = user c
         ∧ usedUp x top k = true ∧ ∀ j, (j < k)%nat → usedUp x top j = false.
Proof.
  revert x. induction top as [|c rest IH]; intros x; cbn [pickWeighted]; [done|].
  destruct (x - score c <=? 0)%float eqn:Hle.
  - intros [= <-]. exists 0%nat, c. split; [done|]. split; [done|].
    unfold usedUp. rewrite remainderAfter_0. split; [done|]. lia.
  - intros Hpick. apply IH in Hpick as (k & c' & Hk & -> & Hstop & Hbefore).
    exists (S k), c'. split; [done|]. split; [done|]. unfold usedUp in *.
    split; [by rewrite remainderAfter_S|].
    intros [|j] Hj; [by rewrite remainderAfter_0|].
    rewrite remainderAfter_S. apply Hbefore. lia.
Qed.

Lemma pickWeighted_None x top :
  pickWeighted x top = None → ∀ j, (j < length top)%nat → usedUp x top j = false.
Proof.
  revert x. induction top as [|c rest IH]; intros x; cbn [pickWeighted length].
  - intros _ j Hj. lia.
  - destruct (x - score c <=? 0)%float eqn:Hle; [done|].
    intros Hpick [|j] Hj; unfold usedUp.
    + by rewrite remainderAfter_0.
    + rewrite remainderAfter_S. apply (IH _ Hpick). lia.
Qed.

Lemma selectMatch_choice W cands rt :
  cands ≠ [] →
  ∃ k c, topCandidatesOf cands !! k = Some c
         ∧ (selectMatch W cands rt).1 = Some (user c)
         ∧ rouletteChoice
             (Q2F (random W (randomDraws rt))
              * fold_left (fun sum c => sum + score c) (topCandidatesOf cands) 0)%float
             (topCandidatesOf cands) k.
Proof.
  intros Hne. unfold selectMatch, mathRandom, totalScoreOf. cbv beta iota zeta.
  destruct (pickWeighted _ (topCandidatesOf cands)) as [p|] eqn:Hpick; cbn [fst].
  - apply pickWeighted_Some in Hpick as (k & c & Hk & -> & Hstop & Hbefore).
    exists k, c. split; [done|]. split; [done|]. by left.
  - pose proof (pickWeighted_None _ _ Hpick) as Hnone.
    pose proof (topCandidatesOf_nonempty cands Hne) as Htop.
    destruct (topCandidatesOf cands) as [|c top] eqn:E; [done|].
    exists 0%nat, c. split; [done|]. split; [done|]. right. by split.
Qed.

Lemma selectMatch_some W cands rt :
  cands ≠ [] →
  ∃ c, c ∈ topCandidatesOf cands ∧ (selectMatch W cands rt).1 = Some (user c).
Proof.
  intros Hne. destruct (selectMatch_choice W cands rt Hne) as (k & c & Hk & Hsel & _).
  exists c. split; [|done]. by eapply list_elem_of_lookup_2.
Qed.

(** The selection follows binary64: 0.8 * 500 is 400 exactly, so with five
    candidates of score 100 the draw 0.8 is used up at the fourth, not at
    the fifth. *)
Lemma pickWeighted_binary64 (u0 u1 u2 u3 u4 : QueuedUser) :
  let c u := {| user := u; score := 100; tierMatch := true; waitTimeBonus := 0 |} in
  pickWeighted (Q2F (8 # 10) * totalScoreOf [c u0; c u1; c u2; c u3; c u4])%float
    [c u0; c u1; c u2; c u3; c u4]
  = Some u3.
Proof. intros c. vm_compute. reflexivity. Qed.

(** ** The three phases collect what the specification names *)

Lemma scoreCandidates_app W u l1 l2 acc :
  scoreCandidates W u (l1 ++ l2) acc = scoreCandidates W u l2 (scoreCandidates W u l1 acc).
Proof. unfold scoreCandidates. apply fold_left_app. Qed.

Lemma scoreCandidates_cons W u e l acc :
  scoreCandidates W u (e :: l) acc
  = scoreCandidates W u l (pushCandidate W u e.1 e.2 acc).
Proof. reflexivity. Qed.

(** Scoring adds one candidate per user, in order, with the user's flag. *)
Lemma scoreCandidates_users W u l acc :
  map (fun c => (user c, tierMatch c)) (scoreCandidates W u l acc).1
  = map (fun c => (user c, tierMatch c)) acc.1 ++ l.
Proof.
  revert acc. induction l as [|[c tm] l IH]; intros acc.
  - by rewrite app_nil_r.
  - rewrite scoreCandidates_cons, IH. unfold pushCandidate. cbn [fst snd].
    destruct (calculateMatchScore W u c tm acc.2) as [sc rt1]. cbn [fst].
    rewrite map_app. cbn [map user tierMatch]. by rewrite <- app_assoc.
Qed.

Lemma scoreCandidates_isNil W u l rt :
  isNil (scoreCandidates W u l ([], rt)).1 = isNil l.
Proof.
  pose proof (scoreCandidates_users W u l ([], rt)) as H. cbn [fst map app] in H.
  destruct l, (scoreCandidates W u _ _).1; try done.
Qed.

Lemma scanBucket_spec W q callerId u skipSelf tm bucket acc :
  scanBucket W q callerId u skipSelf tm bucket acc
  = scoreCandidates W u (tagWith tm (bucketUsers q callerId u skipSelf bucket)) acc.
Proof.
  revert acc. induction bucket as [|id rest IH]; intros acc; [done|].
  cbn [scanBucket]. rewrite IH. unfold bucketUsers. cbn [omap list_omap].
  destruct (skipSelf && String.eqb id callerId); [done|].
  destruct (jsmap_get id (queue q)) as [c|]; [|done].
  destruct (areCompatible q u c); done.
Qed.

Lemma scanCrossTier_spec W q callerId u userTier tiers acc :
  scanCrossTier W q callerId u userTier tiers acc
  = scoreCandidates W u
      (tagWith false
         (concat
            (map (fun t => bucketUsers q callerId u false (bucketGet t (tierBuckets q)))
               (List.filter (fun t => negb (String.eqb (tierName t) userTier)) tiers))))
      acc.
Proof.
  revert acc. induction tiers as [|t rest IH]; intros acc; [done|].
  cbn [scanCrossTier List.filter]. rewrite IH.
  destruct (String.eqb (tierName t) userTier); cbn [negb]; [done|].
  cbn [map concat]. unfold tagWith. rewrite map_app.
  rewrite scoreCandidates_app. by rewrite scanBucket_spec.
Qed.

Lemma scanRelaxed_spec W q callerId u userTier values acc :
  scanRelaxed W q callerId u userTier values acc
  = scoreCandidates W u
      (map (fun c => (c, String.eqb (tier (preferences c)) userTier))
         (List.filter
            (fun c => negb (String.eqb (socketId c) callerId)
                      && negb (isMatched (socketId c) q)
                      && negb (isBlockedPair u c)) values))
      acc.
Proof.
  revert acc. induction values as [|c rest IH]; intros acc; [done|].
  cbn [scanRelaxed List.filter]. rewrite IH.
  destruct (String.eqb (socketId c) callerId); cbn [negb andb]; [done|].
  destruct (isMatched (socketId c) q); cbn [negb andb]; [done|].
  destruct (isBlockedPair u c); cbn [negb andb]; done.
Qed.

(** [collectCandidates] scores the users the specification names: the
    same-tier users; after them the cross-tier users if there is no
    same-tier user or the caller has waited more than 10 000 ms; and the
    relaxed users if that leaves nobody. *)
Lemma collectCandidates_spec W q callerId u rt :
  collectCandidates W q callerId u rt
  = scoreCandidates W u
      (let same := tagWith true (sameTierUsers q callerId u) in
       let cross := tagWith false (crossTierUsers q callerId u) in
       let strict := if isNil same || (10000 <? waitTime u) then same ++ cross else same in
       if isNil strict then relaxedUsers q callerId u else strict)
      ([], rt).
Proof.
  unfold collectCandidates. cbv zeta.
  set (userTier := tierOr (tier (preferences u))).
  assert (H1 : match tierOfName userTier with
               | Some t =>
                   scanBucket W q callerId u true true (bucketGet t (tierBuckets q)) ([], rt)
               | None => ([], rt)
               end
               = scoreCandidates W u (tagWith true (sameTierUsers q callerId u)) ([], rt)).
  { unfold sameTierUsers. fold userTier.
    destruct (tierOfName userTier); [apply scanBucket_spec | done]. }
  rewrite H1. clear H1.
  set (same := tagWith true (sameTierUsers q callerId u)).
  set (cross := tagWith false (crossTierUsers q callerId u)).
  rewrite scoreCandidates_isNil.
  assert (H2 : (if isNil same || (10000 <? waitTime u)
                then scanCrossTier W q callerId u userTier allTiers
                       (scoreCandidates W u same ([], rt))
                else scoreCandidates W u same ([], rt))
               = scoreCandidates W u
                   (if isNil same || (10000 <? waitTime u) then same ++ cross else same)
                   ([], rt)).
  { destruct (isNil same || (10000 <? waitTime u)); [|done].
    rewrite scanCrossTier_spec, scoreCandidates_app. done. }
  rewrite H2. clear H2.
  set (strict := if isNil same || (10000 <? waitTime u) then same ++ cross else same).
  rewrite scoreCandidates_isNil.
  destruct (isNil strict) eqn:Hnil; [|done].
  rewrite scanRelaxed_spec.
  destruct strict; [|done]. done.
Qed.

(** ** [findMatch] *)

Lemma findMatch_queued W sid q rt u0 :
  isMatched sid q = false →
  jsmap_get sid (queue q) = Some u0 →
  findMatch W sid q rt
  = let u := touchUser (now W (clockReads rt)) u0 in
    let q1 := withQueue (jsmap_set sid u (queue q)) q in
    let cs := collectCandidates W q1 sid u (dateNow W rt).2 in
    if isNil cs.1 then (None, q1, cs.2)
    else ((selectMatch W cs.1 cs.2).1, q1, (selectMatch W cs.1 cs.2).2).
Proof.
  intros Hm Hget. unfold findMatch. rewrite Hm, Hget.
  unfold dateNow. cbv beta iota zeta. cbn [snd].
  destruct (collectCandidates _ _ _ _ _) as [cands rt2]. cbn [fst snd].
  destruct (isNil cands); [done|].
  by destruct (selectMatch W cands rt2).
Qed.

(** C9.  For a queued, unmatched caller, whose entry gets the wait time of
    this call ([now - timestamp]) first: [findMatch] scores the same-tier
    users (queued, compatible, in the bucket of the caller's tier); it goes
    through the buckets of the other tiers, adding their compatible users
    with tierMatch false, exactly when there is no same-tier candidate or
    the wait time exceeds 10 000 ms; and it falls back to the relaxed users
    when that leaves nobody.  It returns none exactly when no phase produced
    a candidate.  Otherwise the candidates are sorted (a permutation, by
    descending score when the comparator is consistent on them), the first
    five at most are kept, and the candidate returned is chosen among them
    by weighted random selection with weight = score: the draw is scaled by
    the sum of the five scores and the candidate at which it is used up
    first is taken (the first candidate if it never is). *)
Theorem findMatch_phases W sid q rt u0 :
  isMatched sid q = false →
  jsmap_get sid (queue q) = Some u0 →
  let wait := now W (clockReads rt) - timestamp u0 in
  let u := {| socketId := socketId u0; userId := userId u0;
              preferences := preferences u0; timestamp := timestamp u0;
              waitTime := wait; blockedUsers := blockedUsers u0;
              searchAttempts := searchAttempts u0 + 1 |} in
  let q1 := withQueue (jsmap_set sid u (queue q)) q in
  let same := tagWith true (sameTierUsers q1 sid u) in
  let cross := tagWith false (crossTierUsers q1 sid u) in
  let strict := if isNil same || (10000 <? wait) then same ++ cross else same in
  let users := if isNil strict then relaxedUsers q1 sid u else strict in
  let scored :=
    scoreCandidates W u users
      ([], {| clockReads := S (clockReads rt); randomDraws := randomDraws rt |}) in
  let result := (findMatch W sid q rt).1.1 in
  let sorted := sortByScoreDesc scored.1 in
  let top := take 5 sorted in
  (findMatch W sid q rt).1.2 = q1
  ∧ map (fun c => (user c, tierMatch c)) scored.1 = users
  ∧ (result = None ↔ users = [])
  ∧ (users ≠ [] →
       Permutation sorted scored.1
       ∧ (consistentComparator scored.1 = true → sortedByScoreDesc sorted)
       ∧ ∃ k c, top !! k = Some c ∧ result = Some (user c)
                ∧ rouletteChoice
                    (Q2F (random W (randomDraws scored.2))
                     * fold_left (fun sum c => sum + score c) top 0)%float
                    top k).
Proof.
  intros Hm Hget wait u q1 same cross strict users scored result sorted top.
  pose proof (findMatch_queued W sid q rt u0 Hm Hget) as Hfind. cbv zeta in Hfind.
  change (touchUser (now W (clockReads rt)) u0) with u in Hfind.
  fold q1 in Hfind.
  rewrite (collectCandidates_spec W q1 sid u) in Hfind. cbv zeta in Hfind.
  change (waitTime u) with wait in Hfind.
  fold same cross in Hfind. fold strict in Hfind. fold users in Hfind.
  change (scoreCandidates W u users ([], (dateNow W rt).2)) with scored in Hfind.
  pose proof (scoreCandidates_users W u users
                ([], {| clockReads := S (clockReads rt); randomDraws := randomDraws rt |}))
    as Husers.
  fold scored in Husers. cbn [fst map app] in Husers.
  pose proof (scoreCandidates_isNil W u users
                {| clockReads := S (clockReads rt); randomDraws := randomDraws rt |})
    as Hnil.
  fold scored in Hnil.
  assert (Hq1 : (findMatch W sid q rt).1.2 = q1).
  { rewrite Hfind. by destruct (isNil scored.1). }
  assert (Hres : result = if isNil users then None
                          else (selectMatch W scored.1 scored.2).1).
  { unfold result. rewrite Hfind, Hnil. by destruct (isNil users). }
  split; [exact Hq1|]. split; [exact Husers|]. split.
  - rewrite Hres. destruct (isNil users) eqn:E.
    + apply isNil_true in E. done.
    + assert (Hne : scored.1 ≠ []).
      { intros H. rewrite H in Hnil. cbn in Hnil. congruence. }
      destruct (selectMatch_some W _ scored.2 Hne) as (c & _ & ->).
      split; [done|]. intros H. apply isNil_true in H. congruence.
  - intros Hne.
    assert (Hne' : scored.1 ≠ []).
    { intros H. rewrite H in Hnil. cbn in Hnil. symmetry in Hnil.
      apply isNil_true in Hnil. done. }
    split; [apply sortByScoreDesc_perm|]. split; [apply sortByScoreDesc_sorted|].
    rewrite Hres. destruct (isNil users) eqn:E.
    { apply isNil_true in E. done. }
    unfold top, sorted. rewrite <- topCandidatesOf_take.
    apply selectMatch_choice. done.
Qed.

Lemma findMatch_phases_witness :
  ∃ c, (findMatch tickingWorld "s1" twoQueued.1 twoQueued.2).1.1 = Some (user c)
       ∧ socketId (user c) = "s2".
Proof.
  destruct (jsmap_get "s1" (queue twoQueued.1)) as [u0|] eqn:Hget;
    [|vm_compute in Hget; discriminate Hget].
  assert (Hm : isMatched "s1" twoQueued.1 = false) by (vm_compute; reflexivity).
  pose proof (findMatch_phases tickingWorld "s1" twoQueued.1 twoQueued.2 u0 Hm Hget) as H.
  cbv zeta in H. destruct H as (_ & _ & _ & Hsel).
  vm_compute in Hget. injection Hget as <-.
  destruct Hsel as (_ & _ & k & c & Hk & Hres & _).
  - vm_compute. discriminate.
  - exists c. split; [exact Hres|].
    vm_compute in Hk. destruct k as [|k]; [|destruct k; discriminate Hk].
    injection Hk as <-. reflexivity.
Defined.

(** ** Helpers of the handlers *)

Lemma sameCore_refl s : sameCore s s.
Proof. by repeat split. Qed.

Lemma sameCore_trans s1 s2 s3 : sameCore s1 s2 → sameCore s2 s3 → sameCore s1 s3.
Proof.
  intros (A1 & A2 & A3 & A4) (B1 & B2 & B3 & B4).
  repeat split; congruence.
Qed.

Lemma map_driverSocket_insert (l : list Driver) d dr dr' :
  l !! d = Some dr → driverSocket dr' = driverSocket dr →
  map driverSocket (<[d := dr']> l) = map driverSocket l.
Proof.
  revert d. induction l as [|x l IH]; intros [|d] Hl Hs; try done; cbn in *.
  - injection Hl as ->. by rewrite Hs.
  - f_equal. by apply IH.
Qed.

Lemma updateDriver_sameCore d f s :
  (∀ dr, driverSocket (f dr) = driverSocket dr) → sameCore s (updateDriver d f s).
Proof.
  intros Hf. unfold updateDriver.
  destruct (drivers s !! d) as [dr|] eqn:Hd; [|apply sameCore_refl].
  repeat split. cbn [drivers setDrivers]. by eapply map_driverSocket_insert.
Qed.

Lemma clearTimeout_sameCore t s : sameCore s (clearTimeout t s).
Proof. by repeat split. Qed.

Lemma stopOwnTimer_sameCore d s : sameCore s (stopOwnTimer d s).
Proof.
  unfold stopOwnTimer.
  destruct (drivers s !! d) as [dr|]; [|apply sameCore_refl].
  destruct (matchmakingInterval dr) as [t|]; [|apply sameCore_refl].
  eapply sameCore_trans; [apply (clearTimeout_sameCore t)|].
  eapply sameCore_trans; [apply (updateDriver_sameCore d (withInterval None)); done|].
  by repeat split.
Qed.

Lemma cancelSelf_sameCore d sid s : sameCore s (cancelSelf d sid s).
Proof.
  unfold cancelSelf.
  eapply sameCore_trans; [apply (updateDriver_sameCore d cancelDriver); done|].
  eapply sameCore_trans; [|apply stopOwnTimer_sameCore].
  by repeat split.
Qed.

Lemma stopIntervalOf_sameCore id iv s : sameCore s (stopIntervalOf id iv s).
Proof.
  unfold stopIntervalOf. destruct iv as [[t|]|]; try apply sameCore_refl.
  by repeat split.
Qed.

Lemma stopIntervalOf_drivers id iv s : drivers (stopIntervalOf id iv s) = drivers s.
Proof. unfold stopIntervalOf. by destruct iv as [[t|]|]. Qed.

Lemma stopIntervalOf_nextTimer id iv s : nextTimer (stopIntervalOf id iv s) = nextTimer s.
Proof. unfold stopIntervalOf. by destruct iv as [[t|]|]. Qed.

Lemma stopIntervalOf_timers id iv s e :
  e ∈ timers (stopIntervalOf id iv s) → e ∈ timers s.
Proof.
  unfold stopIntervalOf. destruct iv as [[t|]|]; try done.
  cbn [timers setCancelled setIntervals clearTimeout setTimers].
  rewrite !list_elem_of_In, filter_In. tauto.
Qed.

Lemma removeAllCancelListeners_sameCore sid s : sameCore s (removeAllCancelListeners sid s).
Proof.
  unfold removeAllCancelListeners.
  assert (Hmap : ∀ l, map driverSocket
            (map (fun dr => if String.eqb (driverSocket dr) sid
                            then withCancelListener false dr else dr) l)
            = map driverSocket l).
  { intros l. rewrite map_map. apply map_ext. intros dr.
    by destruct (String.eqb (driverSocket dr) sid). }
  destruct (sockets s !! sid) as [so|]; repeat split; cbn [drivers setDrivers setSockets];
    apply Hmap.
Qed.

Lemma scheduleNext_sameCore d s : sameCore s (scheduleNext d s).
Proof.
  unfold scheduleNext.
  destruct (drivers s !! d) as [dr|]; [|apply sameCore_refl].
  destruct (isCancelled dr); [apply sameCore_refl|].
  destruct (isMatched (driverSocket dr) (mq s)).
  { by apply updateDriver_sameCore. }
  unfold setTimeout. cbv beta iota zeta.
  set (s1 := setTimers _ _ s).
  apply (sameCore_trans s s1); [by repeat split|].
  eapply sameCore_trans;
    [apply (updateDriver_sameCore d (withInterval (Some (nextTimer s)))); done|].
  by repeat split.
Qed.

(** A property every listener preserves holds after all listeners ran. *)
Lemma forDriversOf_preserves (J : Server → Prop) sid only listener s :
  (∀ d st, J st → J (listener d sid st)) → J s → J (forDriversOf sid only listener s).
Proof.
  intros Hstep. unfold forDriversOf.
  generalize (seq 0 (length (drivers s))). intros l. revert s.
  induction l as [|d l IH]; intros s Hs; [done|].
  cbn [fold_left]. apply IH.
  destruct (drivers s !! d) as [dr|]; [|done].
  destruct (_ && _); [by apply Hstep | done].
Qed.

(** ** Disconnect *)

Lemma driverDisconnect_quiet d sid s x :
  outbox (driverDisconnect d sid s) = outbox s
  ∧ (getMatch x (mq s) = None → getMatch x (mq (driverDisconnect d sid s)) = None).
Proof.
  unfold driverDisconnect.
  destruct (cancelSelf_sameCore d sid s) as (Hmq & Hout & _).
  set (s1 := cancelSelf d sid s) in *.
  destruct (negb _); cbn [outbox mq setMq setCancelled setIntervals]; rewrite ?Hmq, ?Hout.
  - split; [done|]. apply removeUser_matches_None.
  - done.
Qed.

(** C3.  The code does less than the claim: when the connection of a session
    paired with a partner P (a non-empty SessionID) drops, the disconnect
    listeners remove both halves of the pairing record, as claimed, but they
    emit nothing at all, so P is sent no match-ended event. *)
Theorem disconnect_clears_pairing_silently sid pid s :
  getMatch sid (mq s) = Some pid → pid ≠ "" →
  outbox (onDisconnect sid s) = outbox s
  ∧ getMatch sid (mq (onDisconnect sid s)) = None
  ∧ getMatch pid (mq (onDisconnect sid s)) = None.
Proof.
  intros Hsid Hpid. unfold onDisconnect.
  destruct (removeUser_clears_pair sid pid (mq s) Hsid Hpid) as [H1 H2].
  apply (forDriversOf_preserves
           (fun st => outbox st = outbox s ∧ getMatch sid (mq st) = None
                      ∧ getMatch pid (mq st) = None)).
  - intros d st (Ho & Hs' & Hp').
    destruct (driverDisconnect_quiet d sid st sid) as [Ho1 Hs1].
    destruct (driverDisconnect_quiet d sid st pid) as [_ Hp1].
    split; [congruence|]. split; auto.
  - cbn [outbox mq setMq setSockets]. done.
Qed.

Lemma disconnect_clears_pairing_silently_witness :
  outbox (onDisconnect "s1" pairedServer) = outbox pairedServer
  ∧ getMatch "s1" (mq (onDisconnect "s1" pairedServer)) = None
  ∧ getMatch "s2" (mq (onDisconnect "s1" pairedServer)) = None.
Proof.
  apply (disconnect_clears_pairing_silently "s1" "s2" pairedServer);
    [vm_compute; reflexivity | discriminate].
Defined.

(** The failing run: s1 and s2 are paired, s1 disconnects, and no
    match-ended event with disconnected: true is addressed to s2. *)
Lemma disconnect_sends_no_match_ended :
  getMatch "s1" (mq pairedServer) = Some "s2"
  ∧ ¬ ∃ e, e ∈ newEmissions pairedServer (step tickingWorld (InDisconnect "s1") pairedServer)
           ∧ target e = "s2" ∧ isMatchEndedDisconnected (event e) = true.
Proof.
  split; [vm_compute; reflexivity|].
  intros (e & He & _). vm_compute in He. inversion He.
Qed.

(** ** Chat *)

(** C10.  A send-message from a session without a partner emits the event
    'error' with the message 'No active match' to the sender, addresses
    nothing to anyone else, and leaves the whole state but the outbox, in
    particular the queue and the pairing table, unchanged. *)
Theorem sendMessage_without_partner W sid message s :
  getMatch sid (mq s) = None →
  onSendMessage W sid message s = emitTo sid (EvError "No active match") s
  ∧ outbox (onSendMessage W sid message s)
    = outbox s ++ [{| target := sid; route := Direct; event := EvError "No active match" |}]
  ∧ mq (onSendMessage W sid message s) = mq s.
Proof.
  intros H. unfold onSendMessage. rewrite H. done.
Qed.

Lemma sendMessage_without_partner_witness :
  outbox (onSendMessage tickingWorld "s1" "hi" searchingServer)
  = outbox searchingServer
    ++ [{| target := "s1"; route := Direct; event := EvError "No active match" |}]
  ∧ mq (onSendMessage tickingWorld "s1" "hi" searchingServer) = mq searchingServer.
Proof.
  apply (sendMessage_without_partner tickingWorld "s1" "hi" searchingServer).
  vm_compute. reflexivity.
Defined.

(** C6 (amended).  An allowed send-message from a paired sender is delivered
    as receive-message to the sender and to the partner; the two copies
    carry the same message and the same senderId, and each carries its own
    reading of the clock, the sender's first: the timestamps are equal only
    if the clock did not advance between the two readings. *)
Theorem sendMessage_relay W sid pid message s :
  getMatch sid (mq s) = Some pid → pid ≠ "" → isProfane W message = false →
  ∃ r,
    outbox (onSendMessage W sid message s)
    = outbox s
      ++ [{| target := sid; route := Direct;
             event := EvReceiveMessage message (now W (clockReads (runtime s))) sid |};
          {| target := pid; route := r;
             event := EvReceiveMessage message (now W (S (clockReads (runtime s)))) sid |}]
    ∧ mq (onSendMessage W sid message s) = mq s.
Proof.
  intros Hsid Hpid Hprof. unfold onSendMessage.
  apply jsTruthy_true in Hpid. rewrite Hsid, Hpid, Hprof.
  unfold dateNow. cbv beta iota zeta.
  cbn [runtime sockets emitTo setOutbox setRuntime clockReads].
  destruct (sockets s !! pid) as [so|]; [destruct (connected so)|];
    eexists; cbn [outbox mq emitTo emitToRoom setOutbox setRuntime];
    rewrite <- app_assoc; split; reflexivity.
Qed.

Lemma sendMessage_relay_witness :
  ∃ r,
    outbox (onSendMessage tickingWorld "s1" "hi" pairedServer)
    = outbox pairedServer
      ++ [{| target := "s1"; route := Direct; event := EvReceiveMessage "hi" 1006 "s1" |};
          {| target := "s2"; route := r; event := EvReceiveMessage "hi" 1007 "s1" |}]
    ∧ mq (onSendMessage tickingWorld "s1" "hi" pairedServer) = mq pairedServer.
Proof.
  apply (sendMessage_relay tickingWorld "s1" "s2" "hi" pairedServer);
    [vm_compute; reflexivity | discriminate | reflexivity].
Defined.

(** C6 as stated fails: with a clock that advances between the two
    [Date.now()] calls the copies carry different timestamps. *)
Lemma sendMessage_timestamps_differ :
  ¬ sameTimestamp
      (newEmissions pairedServer (step tickingWorld (InSendMessage "s1" "hi") pairedServer)).
Proof.
  intros [t Ht].
  pose proof (Ht {| target := "s1"; route := Direct;
                    event := EvReceiveMessage "hi" 1006 "s1" |}) as H1.
  pose proof (Ht {| target := "s2"; route := Direct;
                    event := EvReceiveMessage "hi" 1007 "s1" |}) as H2.
  cbn [event] in H1, H2.
  assert (E1 : 1006 = t) by (apply H1; vm_compute; apply elem_of_cons; by left).
  assert (E2 : 1007 = t).
  { apply H2. vm_compute. apply elem_of_cons. right. apply elem_of_cons. by left. }
  lia.
Qed.

(** ** Skip without a partner against cancel-match *)












(** ** The search driver *)

Lemma driverFrame_refl s : driverFrame s s.
Proof. by split. Qed.

Lemma driverFrame_trans s1 s2 s3 : driverFrame s1 s2 → driverFrame s2 s3 → driverFrame s1 s3.
Proof. intros [A1 A2] [B1 B2]. split; [auto | congruence]. Qed.

Lemma sameCore_driverFrame s s' : sameCore s s' → driverFrame s s'.
Proof. intros (Hmq & _ & _ & Hd). split; [by rewrite Hmq | done]. Qed.

(** What [announceMatch] emits and what it does to queue and drivers. *)
Lemma announceMatch_effect W d sid m s :
  (∃ r1 r2,
     outbox (announceMatch W d sid m s)
     = outbox s
       ++ [{| target := sid; route := Direct;
              event := EvMatchFound (socketId m) (userId m) (waitTime m) |};
           {| target := socketId m; route := r1; event := EvMatchFound sid sid 0 |};
           {| target := socketId m; route := r2; event := EvMatchmakingStopped |}])
  ∧ mq (announceMatch W d sid m s) = createMatch sid (socketId m) (mq s)
  ∧ map driverSocket (drivers (announceMatch W d sid m s)) = map driverSocket (drivers s).
Proof.
  unfold announceMatch.
  set (s2 := setCancelled _ (updateDriver d cancelDriver s)).
  assert (H2 : sameCore s s2).
  { eapply sameCore_trans; [apply (updateDriver_sameCore d cancelDriver); done|].
    by repeat split. }
  set (s3 := stopOwnTimer d s2).
  assert (H3 : sameCore s s3).
  { eapply sameCore_trans; [exact H2 | apply stopOwnTimer_sameCore]. }
  set (s4 := match matchmakingIntervals s3 !! socketId m with
             | Some (Some t) => _
             | _ => s3
             end).
  assert (H4 : sameCore s s4).
  { unfold s4.
    destruct (matchmakingIntervals s3 !! socketId m) as [[t|]|];
      [|exact H3|exact H3].
    eapply sameCore_trans; [exact H3|]. by repeat split. }
  destruct H4 as (Hmq & Hout & Hrt & Hdrv).
  cbn [mq setMq runtime].
  rewrite getUserWaitTime_absent by apply createMatch_drops_caller.
  set (s7 := emitTo sid _ (setRuntime _ (setMq _ s4))).
  set (s8 := match sockets s7 !! socketId m with
             | Some so => if connected so then _ else _
             | None => _
             end).
  assert (H8 : ∃ r1, outbox s8
                = outbox s ++ [{| target := sid; route := Direct;
                                  event := EvMatchFound (socketId m) (userId m) (waitTime m) |};
                               {| target := socketId m; route := r1;
                                  event := EvMatchFound sid sid 0 |}]
              ∧ mq s8 = createMatch sid (socketId m) (mq s)
              ∧ map driverSocket (drivers s8) = map driverSocket (drivers s)).
  { unfold s8. destruct (sockets s7 !! socketId m) as [so|]; [destruct (connected so)|];
      eexists; cbn [outbox mq drivers emitTo emitToRoom setOutbox setRuntime setMq s7];
      rewrite Hout, Hmq, Hdrv, <- app_assoc; done. }
  destruct H8 as (r1 & Hout8 & Hmq8 & Hdrv8).
  destruct (removeAllCancelListeners_sameCore sid s8) as (Hmq9 & Hout9 & _ & Hdrv9).
  set (s9 := removeAllCancelListeners sid s8) in *.
  set (s10 := match sockets s7 !! socketId m with
              | Some _ => emitTo (socketId m) EvMatchmakingStopped s9
              | None => emitToRoom (socketId m) EvMatchmakingStopped s9
              end).
  assert (H10 : ∃ r2, outbox s10
                 = outbox s9 ++ [{| target := socketId m; route := r2;
                                    event := EvMatchmakingStopped |}]
               ∧ mq s10 = mq s9
               ∧ drivers s10 = drivers s9).
  { unfold s10. destruct (sockets s7 !! socketId m); eexists; done. }
  destruct H10 as (r2 & Hout10 & Hmq10 & Hdrv10).
  destruct (updateDriver_sameCore d (withCheckCount 0) s10) as (Hmq11 & Hout11 & _ & Hdrv11);
    [done|].
  split; [|split].
  - exists r1, r2. rewrite Hout11, Hout10, Hout9, Hout8, <- app_assoc. done.
  - congruence.
  - congruence.
Qed.

Lemma checkForMatch_frame W d s : driverFrame s (checkForMatch W d s).
Proof.
  unfold checkForMatch.
  destruct (drivers s !! d) as [dr|]; [|apply driverFrame_refl].
  destruct (_ || _); [apply driverFrame_refl|].
  destruct (negb _); [apply sameCore_driverFrame, cancelSelf_sameCore|].
  destruct (isMatched _ _); [apply sameCore_driverFrame, cancelSelf_sameCore|].
  set (s1 := updateDriver d _ s).
  assert (H1 : sameCore s s1) by (by apply updateDriver_sameCore).
  destruct H1 as (Hmq & _ & _ & Hdrv).
  destruct (findMatch W (driverSocket dr) (mq s1) (runtime s1)) as [[found q1] rt1] eqn:E.
  assert (Hq1 : jsmap_keys (queue q1) = jsmap_keys (queue (mq s))).
  { replace q1 with (findMatch W (driverSocket dr) (mq s1) (runtime s1)).1.2
      by (by rewrite E).
    by rewrite findMatch_queue_keys, Hmq. }
  destruct found as [m|].
  - destruct (announceMatch_effect W d (driverSocket dr) m (setRuntime rt1 (setMq q1 s1)))
      as (_ & Hmq' & Hdrv').
    split.
    + intros x. rewrite Hmq'. cbn [mq setMq setRuntime].
      rewrite createMatch_queue_keys, Hq1. tauto.
    + rewrite Hdrv'. done.
  - split; cbn [mq drivers emitTo setOutbox setRuntime setMq]; [by rewrite Hq1 | done].
Qed.

Lemma createMatch_getMatch a b q : getMatch a (createMatch a b q) = Some b.
Proof.
  unfold getMatch. rewrite createMatch_matches.
  destruct (decide (a = b)) as [->|Hne]; [apply lookup_insert_eq|].
  rewrite lookup_insert_ne by done. apply lookup_insert_eq.
Qed.

(** The check of a live driver whose session is queued and unpaired. *)
Lemma checkForMatch_outcome W d dr s :
  drivers s !! d = Some dr → isCancelled dr = false →
  cancelledFlag (driverSocket dr) s = false →
  driverSocket dr ∈ jsmap_keys (queue (mq s)) →
  isMatched (driverSocket dr) (mq s) = false →
  (∃ m r1 r2,
     (findMatch W (driverSocket dr) (mq s) (runtime s)).1.1 = Some m
     ∧ outbox (checkForMatch W d s)
       = outbox s
         ++ [{| target := driverSocket dr; route := Direct;
                event := EvMatchFound (socketId m) (userId m) (waitTime m) |};
             {| target := socketId m; route := r1;
                event := EvMatchFound (driverSocket dr) (driverSocket dr) 0 |};
             {| target := socketId m; route := r2; event := EvMatchmakingStopped |}]
     ∧ mq (checkForMatch W d s)
       = createMatch (driverSocket dr) (socketId m)
           (findMatch W (driverSocket dr) (mq s) (runtime s)).1.2)
  ∨ ((findMatch W (driverSocket dr) (mq s) (runtime s)).1.1 = None
     ∧ (∃ pos, outbox (checkForMatch W d s)
               = outbox s ++ [{| target := driverSocket dr; route := Direct;
                                 event := EvSearching pos (checkCount dr + 1) |}])
     ∧ mq (checkForMatch W d s)
       = (findMatch W (driverSocket dr) (mq s) (runtime s)).1.2).
Proof.
  intros Hd Hc Hflag Hq Hm. unfold checkForMatch. rewrite Hd, Hc, Hflag, Hm. cbn [orb].
  assert (Hhas : jsmap_has (driverSocket dr) (queue (mq s)) = true).
  { unfold jsmap_has. destruct (jsmap_get (driverSocket dr) (queue (mq s))) eqn:E; [done|].
    by apply jsmap_get_None_keys in E. }
  rewrite Hhas. cbn [negb].
  set (s1 := updateDriver d _ s).
  assert (H1 : sameCore s s1) by (by apply updateDriver_sameCore).
  destruct H1 as (Hmq & Hout & Hrt & _). rewrite Hmq, Hrt.
  destruct (findMatch W (driverSocket dr) (mq s) (runtime s)) as [[found q1] rt1].
  cbn [fst snd]. destruct found as [m|].
  - left.
    destruct (announceMatch_effect W d (driverSocket dr) m (setRuntime rt1 (setMq q1 s1)))
      as ((r1 & r2 & Ho) & Hmq' & _).
    exists m, r1, r2. split; [done|]. rewrite Ho, Hmq'.
    cbn [outbox mq setRuntime setMq]. by rewrite Hout.
  - right. split; [done|]. split; [|done].
    eexists. cbn [outbox emitTo setOutbox setRuntime setMq]. by rewrite Hout.
Qed.

(** A new driver never enqueues anyone, and it is the driver of its socket. *)
Lemma handleMatchmaking_frame W sid s :
  (∀ x, x ∈ jsmap_keys (queue (mq (handleMatchmaking W sid s))) →
        x ∈ jsmap_keys (queue (mq s)))
  ∧ map driverSocket (drivers (handleMatchmaking W sid s))
    = map driverSocket (drivers s) ++ [sid].
Proof.
  unfold handleMatchmaking.
  set (s3 := setCancelled _ (setIntervals _ (setDrivers _ s))).
  set (d := length (drivers s)).
  set (s4 := checkForMatch W d s3).
  pose proof (checkForMatch_frame W d s3) as H4. fold s4 in H4.
  set (s5 := match drivers s4 !! d with
             | Some dr => if isCancelled dr then s4 else scheduleNext d s4
             | None => s4
             end).
  assert (H5 : driverFrame s4 s5).
  { unfold s5. destruct (drivers s4 !! d) as [dr|]; [|apply driverFrame_refl].
    destruct (isCancelled dr); [apply driverFrame_refl|].
    apply sameCore_driverFrame, scheduleNext_sameCore. }
  assert (H6 : driverFrame s5 (updateDriver d (withCancelListener true) s5)).
  { by apply sameCore_driverFrame, updateDriver_sameCore. }
  destruct (driverFrame_trans _ _ _ H4 (driverFrame_trans _ _ _ H5 H6)) as [Hk Hd].
  split; [exact Hk|].
  rewrite Hd. cbn [s3 drivers setCancelled setIntervals setDrivers].
  by rewrite map_app.
Qed.

(** A driver started for a session that is queued and unpaired checks at
    once: the session is then paired by it, or still queued. *)
Lemma handleMatchmaking_outcome W sid s :
  sid ∈ jsmap_keys (queue (mq s)) → isMatched sid (mq s) = false →
  (∃ m, getMatch sid (mq (handleMatchmaking W sid s)) = Some (socketId m)
        ∧ sid ∉ jsmap_keys (queue (mq (handleMatchmaking W sid s))))
  ∨ (getMatch sid (mq (handleMatchmaking W sid s)) = None
     ∧ sid ∈ jsmap_keys (queue (mq (handleMatchmaking W sid s)))).
Proof.
  intros Hq Hun. unfold handleMatchmaking.
  set (dr := {| driverSocket := sid; isCancelled := false; matchmakingInterval := None;
                checkCount := 0; cancelListener := false |}).
  set (s3 := setCancelled _ (setIntervals _ (setDrivers _ s))).
  set (d := length (drivers s)).
  assert (Hd : drivers s3 !! d = Some dr).
  { cbn [s3 drivers setCancelled setIntervals setDrivers].
    rewrite lookup_app_r by (unfold d; lia).
    unfold d. by rewrite Nat.sub_diag. }
  assert (Hflag : cancelledFlag (driverSocket dr) s3 = false).
  { unfold cancelledFlag. cbn [s3 matchmakingCancelled setCancelled dr driverSocket].
    by rewrite lookup_insert_eq. }
  pose proof (checkForMatch_outcome W d dr s3 Hd eq_refl Hflag Hq Hun) as Hout.
  set (s4 := checkForMatch W d s3) in *.
  set (s5 := match drivers s4 !! d with
             | Some dr => if isCancelled dr then s4 else scheduleNext d s4
             | None => s4
             end).
  assert (H5 : sameCore s4 s5).
  { unfold s5. destruct (drivers s4 !! d) as [dr'|]; [|apply sameCore_refl].
    destruct (isCancelled dr'); [apply sameCore_refl | apply scheduleNext_sameCore]. }
  assert (H6 : sameCore s4 (updateDriver d (withCancelListener true) s5)).
  { eapply sameCore_trans; [exact H5|]. by apply updateDriver_sameCore. }
  destruct H6 as (-> & _).
  cbn [dr driverSocket checkCount] in Hout.
  change (mq s3) with (mq s) in Hout. change (runtime s3) with (runtime s) in Hout.
  destruct Hout as [(m & r1 & r2 & Hf & _ & Hmq)|(Hf & _ & Hmq)].
  - left. exists m. rewrite Hmq. split; [apply createMatch_getMatch|].
    intros Hin. apply createMatch_queue_keys in Hin. tauto.
  - right. rewrite Hmq. split.
    + unfold getMatch. rewrite findMatch_matches. by apply isMatched_false.
    + by rewrite findMatch_queue_keys.
Qed.

(** C7 (amended).  When the driver of a session (the caller) gets a match M,
    another session, from [findMatch] and creates the pairing, it emits
    exactly: one match-found to the caller, with the SessionID and the
    UserID of M; one match-found to M, whose matchSocketId and matchUserId
    both are the SessionID of the caller (the caller's UserID is not
    revealed); and matchmaking-stopped to M.  Afterwards each of the two is
    the partner of the other. *)
Theorem match_found_emissions W d dr s m q1 rt1 :
  drivers s !! d = Some dr →
  isCancelled dr = false →
  cancelledFlag (driverSocket dr) s = false →
  jsmap_has (driverSocket dr) (queue (mq s)) = true →
  isMatched (driverSocket dr) (mq s) = false →
  findMatch W (driverSocket dr) (mq s) (runtime s) = (Some m, q1, rt1) →
  socketId m ≠ driverSocket dr →
  let caller := driverSocket dr in
  let s' := checkForMatch W d s in
  ∃ r1 r2 w,
    outbox s'
    = outbox s
      ++ [{| target := caller; route := Direct;
             event := EvMatchFound (socketId m) (userId m) (waitTime m) |};
          {| target := socketId m; route := r1; event := EvMatchFound caller caller w |};
          {| target := socketId m; route := r2; event := EvMatchmakingStopped |}]
    ∧ List.filter isMatchFound (emissionsTo caller (newEmissions s s'))
      = [EvMatchFound (socketId m) (userId m) (waitTime m)]
    ∧ List.filter isMatchFound (emissionsTo (socketId m) (newEmissions s s'))
      = [EvMatchFound caller caller w]
    ∧ getMatch caller (mq s') = Some (socketId m)
    ∧ getMatch (socketId m) (mq s') = Some caller.
Proof.
  intros Hd Hc Hflag Hq Hm Hfind Hne caller s'. subst caller.
  set (s1 := updateDriver d (fun x => withCheckCount (checkCount x + 1) x) s).
  destruct (updateDriver_sameCore d (fun x => withCheckCount (checkCount x + 1) x) s)
    as (Hmq1 & Hout1 & Hrt1 & _); [done|]. fold s1 in Hmq1, Hout1, Hrt1.
  assert (Hs' : s' = announceMatch W d (driverSocket dr) m (setRuntime rt1 (setMq q1 s1))).
  { unfold s', checkForMatch. rewrite Hd, Hc, Hflag, Hq, Hm. cbn [orb negb].
    fold s1. rewrite Hmq1, Hrt1, Hfind. done. }
  destruct (announceMatch_effect W d (driverSocket dr) m (setRuntime rt1 (setMq q1 s1)))
    as ((r1 & r2 & Hout) & Hmq & _).
  rewrite <- Hs' in Hout, Hmq.
  cbn [outbox setRuntime setMq] in Hout. rewrite Hout1 in Hout.
  assert (Hnew : newEmissions s s'
            = [{| target := driverSocket dr; route := Direct;
                  event := EvMatchFound (socketId m) (userId m) (waitTime m) |};
               {| target := socketId m; route := r1;
                  event := EvMatchFound (driverSocket dr) (driverSocket dr) 0 |};
               {| target := socketId m; route := r2; event := EvMatchmakingStopped |}]).
  { unfold newEmissions. rewrite Hout. by rewrite drop_app_length. }
  assert (Heq1 : String.eqb (driverSocket dr) (driverSocket dr) = true)
    by apply String.eqb_refl.
  assert (Heq2 : String.eqb (socketId m) (socketId m) = true) by apply String.eqb_refl.
  assert (Heq3 : String.eqb (socketId m) (driverSocket dr) = false)
    by (by apply String.eqb_neq).
  assert (Heq4 : String.eqb (driverSocket dr) (socketId m) = false)
    by (apply String.eqb_neq; congruence).
  exists r1, r2, 0.
  split; [done|].
  split; [rewrite Hnew; unfold emissionsTo; cbn; by rewrite Heq1, Heq3|].
  split; [rewrite Hnew; unfold emissionsTo; cbn; by rewrite Heq2, Heq4|].
  unfold getMatch. rewrite Hmq, createMatch_matches. cbn [mq setMq setRuntime].
  split.
  - rewrite lookup_insert_ne by done. apply lookup_insert_eq.
  - apply lookup_insert_eq.
Qed.

Lemma match_found_emissions_witness :
  ∃ w,
    List.filter isMatchFound
      (emissionsTo "s2"
         (newEmissions pollingServer (checkForMatch tickingWorld 0 pollingServer)))
    = [EvMatchFound "s1" "u1" 0]
    ∧ List.filter isMatchFound
        (emissionsTo "s1"
           (newEmissions pollingServer (checkForMatch tickingWorld 0 pollingServer)))
      = [EvMatchFound "s2" "s2" w].
Proof.
  assert (Hd : drivers pollingServer !! 0%nat
               = Some {| driverSocket := "s2"; isCancelled := false;
                         matchmakingInterval := None; checkCount := 0;
                         cancelListener := true |}) by reflexivity.
  eassert (Hf : findMatch tickingWorld "s2" (mq pollingServer) (runtime pollingServer)
                = (Some _, _, _)) by (vm_compute; reflexivity).
  assert (H3 : cancelledFlag "s2" pollingServer = false) by (vm_compute; reflexivity).
  assert (H4 : jsmap_has "s2" (queue (mq pollingServer)) = true)
    by (vm_compute; reflexivity).
  assert (H5 : isMatched "s2" (mq pollingServer) = false) by (vm_compute; reflexivity).
  assert (H6 : "s1" ≠ "s2") by discriminate.
  pose proof (match_found_emissions tickingWorld 0 _ pollingServer _ _ _
                Hd eq_refl H3 H4 H5 Hf H6) as H.
  cbv zeta in H.
  destruct H as (r1 & r2 & w & _ & Hc & Hp & _).
  exists w. split; [exact Hc | exact Hp].
Defined.

(** C7 as stated fails: s2 (user u2) gets s1 as its match; the match-found
    sent to s1 names s2 in matchSocketId and in matchUserId, and no
    match-found sent to s1 carries the UserID u2. *)
Lemma match_found_hides_caller_userId :
  (∃ w, EvMatchFound "s2" "s2" w ∈ emissionsTo "s1" (newEmissions queuedServer pairedServer))
  ∧ ¬ ∃ w, EvMatchFound "s2" "u2" w
           ∈ emissionsTo "s1" (newEmissions queuedServer pairedServer).
Proof.
  split.
  - exists 0. vm_compute. apply elem_of_cons. by left.
  - intros (w & H). vm_compute in H.
    apply elem_of_cons in H as [H|H]; [discriminate H|].
    apply elem_of_cons in H as [H|H]; [discriminate H|].
    inversion H.
Qed.

(** ** Skip with a partner *)

Lemma requeueAfterSkip_frame sid data s :
  (∀ x, x ∈ jsmap_keys (queue (mq (requeueAfterSkip sid data s))) →
        x ∈ jsmap_keys (queue (mq s)))
  ∧ drivers (requeueAfterSkip sid data s) = drivers s.
Proof.
  unfold requeueAfterSkip.
  destruct (truthyOpt (getMatch sid (mq s))).
  - destruct (negb _); cbn [mq drivers setMq setAwaiting]; split; try done;
      intros x Hx; by apply removeUser_queue_keys in Hx as [_ Hx].
  - destruct (negb _); by split.
Qed.

Lemma emitTo_frame id e s : mq (emitTo id e s) = mq s ∧ drivers (emitTo id e s) = drivers s.
Proof. by split. Qed.

Lemma resumeRequeue_cases W sid data blocks s :
  resumeRequeue W sid data blocks s = s
  ∨ ∃ uid prefs,
      resumeRequeue W sid data blocks s
      = emitTo sid (EvSkipSuccess true)
          (handleMatchmaking W sid
             (setRuntime (addUser W sid uid prefs (mq s) (runtime s)).2
                (setMq (addUser W sid uid prefs (mq s) (runtime s)).1 s))).
Proof.
  unfold resumeRequeue.
  destruct (skip_userId data) as [uid|]; [|by left].
  destruct (_ || _); [by left|].
  right.
  exists uid, (match blocks with
               | Some ids => Some (withBlockedUserIds ids (skip_preferences data))
               | None => skip_preferences data
               end).
  destruct (addUser W sid uid _ (mq s) (runtime s)) as [q rt].
  cbn [fst snd]. reflexivity.
Qed.

Lemma resumeRequeue_frame W sid data blocks s x :
  x ≠ sid → x ∉ jsmap_keys (queue (mq s)) →
  (x ∉ jsmap_keys (queue (mq (resumeRequeue W sid data blocks s))))
  ∧ (map driverSocket (drivers (resumeRequeue W sid data blocks s))
     = map driverSocket (drivers s)
     ∨ map driverSocket (drivers (resumeRequeue W sid data blocks s))
       = map driverSocket (drivers s) ++ [sid]).
Proof.
  intros Hne Hx.
  destruct (resumeRequeue_cases W sid data blocks s) as [->|(uid & prefs & ->)].
  { split; [exact Hx | by left]. }
  destruct (emitTo_frame sid (EvSkipSuccess true)
              (handleMatchmaking W sid
                 (setRuntime (addUser W sid uid prefs (mq s) (runtime s)).2
                    (setMq (addUser W sid uid prefs (mq s) (runtime s)).1 s))))
    as [-> ->].
  destruct (handleMatchmaking_frame W sid
              (setRuntime (addUser W sid uid prefs (mq s) (runtime s)).2
                 (setMq (addUser W sid uid prefs (mq s) (runtime s)).1 s))) as [Hk Hd].
  split.
  - intros Hin. apply Hk in Hin. cbn [mq setRuntime setMq] in Hin.
    apply addUser_queue_keys in Hin. tauto.
  - right. rewrite Hd. reflexivity.
Qed.

(** The 200 ms callback always gets as far as asking for the block list. *)
Lemma requeueAfterSkip_registers sid data s :
  awaiting (requeueAfterSkip sid data s)
  = awaiting s ++ [(nextAwait s, RequeueResume sid data)].
Proof.
  unfold requeueAfterSkip.
  destruct (getMatch sid (mq s)) as [p|] eqn:Hm; cbn [truthyOpt].
  - destruct (jsTruthy p) eqn:Hp.
    + apply jsTruthy_true in Hp.
      destruct (removeUser_clears_pair sid p (mq s) Hm Hp) as [Hnone _].
      cbn [mq setMq]. by rewrite Hnone.
    + rewrite Hm. cbn [truthyOpt]. by rewrite Hp.
  - by rewrite Hm.
Qed.

(** With a user id, the rest of the callback enqueues the session and starts
    a driver for it. *)
Lemma resumeRequeue_requeues W sid uid data blocks s :
  sid ≠ "" → skip_userId data = Some uid → uid ≠ "" → matchValuesTruthy (mq s) →
  map driverSocket (drivers (resumeRequeue W sid data blocks s))
  = map driverSocket (drivers s) ++ [sid]
  ∧ ((∃ m, getMatch sid (mq (resumeRequeue W sid data blocks s)) = Some (socketId m)
           ∧ sid ∉ jsmap_keys (queue (mq (resumeRequeue W sid data blocks s))))
     ∨ (getMatch sid (mq (resumeRequeue W sid data blocks s)) = None
        ∧ sid ∈ jsmap_keys (queue (mq (resumeRequeue W sid data blocks s))))).
Proof.
  intros Hsid Huid Hne Hv. unfold resumeRequeue. rewrite Huid.
  apply jsTruthy_true in Hsid, Hne. rewrite Hsid, Hne. cbn [negb orb].
  set (prefs := match blocks with Some ids => _ | None => _ end).
  pose proof (addUser_queue_keys W sid uid prefs (mq s) (runtime s) sid) as Hk.
  pose proof (addUser_matches W sid uid prefs (mq s) (runtime s)) as Hma.
  destruct (addUser W sid uid prefs (mq s) (runtime s)) as [q rt].
  cbn [fst] in Hk, Hma.
  assert (Hq : sid ∈ jsmap_keys (queue q)) by (apply Hk; by left).
  assert (Hun : isMatched sid q = false).
  { apply isMatched_false. rewrite Hma. by apply removeUser_clears_own. }
  destruct (emitTo_frame sid (EvSkipSuccess true)
              (handleMatchmaking W sid (setRuntime rt (setMq q s)))) as [-> ->].
  split.
  - by destruct (handleMatchmaking_frame W sid (setRuntime rt (setMq q s))) as [_ ->].
  - by apply (handleMatchmaking_outcome W sid (setRuntime rt (setMq q s))).
Qed.

(** C5 (amended).  When S, paired with P, sends skip, the core sends P a
    match-ended with autoRequeue: true and S a match-ended with S's own flag,
    and deletes the pairing; it enqueues nobody and creates no driver.  When
    the skip carries autoRequeue true and a non-empty userId, the core adds
    one timer, the 200 ms re-queue callback of S, and otherwise none.  The
    callback asks for the block list of S; when that arrives (or the query
    fails), S is enqueued again and a new search driver of S is started, so
    that S is then queued, or already paired by that driver.  Whenever the
    callback runs in a state where P is not queued, P stays out of the queue
    and no driver is created but the one of S: the core re-enqueues the
    skipping session only, and the skipped peer is left to ask for a new
    match itself. *)
Theorem skip_requeues_only_the_skipper W sid pid data s :
  getMatch sid (mq s) = Some pid → pid ≠ "" → pid ≠ sid → sid ≠ "" →
  let s1 := onSkip sid data s in
  let requested :=
    match skip_autoRequeue data, skip_userId data with
    | Some true, Some uid => negb (String.eqb uid "")
    | _, _ => false
    end in
  (∃ r,
     outbox s1
     = outbox s
       ++ [{| target := pid; route := r;
              event := EvMatchEnded "skipped" true (Some sid) (Some true) |};
           {| target := sid; route := Direct;
              event := EvMatchEnded "skipped" (default false (skip_autoRequeue data))
                         (Some sid) (Some true) |}])
  ∧ mq s1 = clearMatch sid pid (mq s)
  ∧ drivers s1 = drivers s
  ∧ (∃ kept,
       (∀ e, e ∈ kept → e ∈ timers s)
       ∧ timers s1
         = kept ++ (if requested
                    then [(nextTimer s, (200, RequeueAfterSkip sid data))]
                    else []))
  ∧ (∀ s', awaiting (requeueAfterSkip sid data s')
           = awaiting s' ++ [(nextAwait s', RequeueResume sid data)])
  ∧ (∀ blocks s', requested = true → matchValuesTruthy (mq s') →
       let s2 := resumeRequeue W sid data blocks s' in
       map driverSocket (drivers s2) = map driverSocket (drivers s') ++ [sid]
       ∧ ((∃ m, getMatch sid (mq s2) = Some (socketId m))
          ∨ sid ∈ jsmap_keys (queue (mq s2))))
  ∧ (∀ blocks s', pid ∉ jsmap_keys (queue (mq s')) →
       let s2 := resumeRequeue W sid data blocks (requeueAfterSkip sid data s') in
       (pid ∉ jsmap_keys (queue (mq s2)))
       ∧ (map driverSocket (drivers s2) = map driverSocket (drivers s')
          ∨ map driverSocket (drivers s2) = map driverSocket (drivers s') ++ [sid])).
Proof.
  intros Hm Hpid Hne Hsid s1 requested.
  assert (Hs1 : s1 = skipMatched sid pid data s).
  { unfold s1, onSkip. rewrite Hm. apply jsTruthy_true in Hpid. by rewrite Hpid. }
  assert (Hreq : default false (skip_autoRequeue data) && truthyOpt (skip_userId data)
                 = requested).
  { unfold requested, truthyOpt, jsTruthy.
    destruct (skip_autoRequeue data) as [[|]|], (skip_userId data) as [uid|]; reflexivity. }
  rewrite Hs1. unfold skipMatched.
  set (ended := EvMatchEnded "skipped" true (Some sid) (Some true)).
  set (e1 := match sockets s !! pid with
             | Some _ => emitTo pid ended s
             | None => emitToRoom pid ended s
             end).
  assert (He1 : (∃ r, outbox e1 = outbox s ++ [{| target := pid; route := r; event := ended |}])
                ∧ mq e1 = mq s ∧ drivers e1 = drivers s ∧ timers e1 = timers s
                ∧ nextTimer e1 = nextTimer s).
  { unfold e1. destruct (sockets s !! pid); (split; [eexists; reflexivity | done]). }
  destruct He1 as ((r & Hout1) & Hmq1 & Hdrv1 & Htim1 & Hnext1).
  set (e2 := emitTo sid _ e1).
  set (s4 := stopIntervalOf pid _ (stopIntervalOf sid _ e2)).
  assert (H4 : sameCore e2 s4).
  { eapply sameCore_trans; apply stopIntervalOf_sameCore. }
  destruct H4 as (Hmq4 & Hout4 & _).
  assert (Hdrv4 : drivers s4 = drivers s).
  { unfold s4. by rewrite !stopIntervalOf_drivers. }
  assert (Htim4 : ∀ e, e ∈ timers s4 → e ∈ timers s).
  { intros e He. unfold s4 in He. do 2 apply stopIntervalOf_timers in He.
    cbn [timers e2 emitTo setOutbox] in He. by rewrite Htim1 in He. }
  assert (Hnext4 : nextTimer s4 = nextTimer s).
  { unfold s4. by rewrite !stopIntervalOf_nextTimer. }
  set (s5 := setMq (clearMatch sid pid (mq s4)) s4).
  destruct (clearMatch_unmatches sid pid (mq s4)) as [Hu1 Hu2].
  cbn [mq s5 setMq]. rewrite Hu1, Hu2. cbn [orb].
  assert (Hout5 : outbox s5
            = outbox s ++ [{| target := pid; route := r; event := ended |};
                           {| target := sid; route := Direct;
                              event := EvMatchEnded "skipped"
                                         (default false (skip_autoRequeue data))
                                         (Some sid) (Some true) |}]).
  { cbn [outbox s5 setMq]. rewrite Hout4. cbn [outbox e2 emitTo setOutbox].
    by rewrite Hout1, <- app_assoc. }
  assert (Hmq5 : mq s5 = clearMatch sid pid (mq s)).
  { cbn [mq s5 setMq]. rewrite Hmq4. cbn [mq e2 emitTo setOutbox]. by rewrite Hmq1. }
  rewrite Hreq.
  split; [|split; [|split; [|split; [|split; [|split]]]]].
  - exists r. by destruct requested.
  - by destruct requested.
  - by destruct requested.
  - exists (timers s4). split; [exact Htim4|].
    destruct requested; [|by rewrite app_nil_r].
    cbn [snd setTimeout timers nextTimer setTimers s5 setMq]. by rewrite Hnext4.
  - intros s'. apply requeueAfterSkip_registers.
  - intros blocks s' Hr Hv.
    assert (Huid : ∃ uid, skip_userId data = Some uid ∧ uid ≠ "").
    { unfold requested in Hr.
      destruct (skip_autoRequeue data) as [[|]|]; try discriminate Hr.
      destruct (skip_userId data) as [uid|]; [|discriminate Hr].
      exists uid. split; [done|]. apply negb_true_iff, String.eqb_neq in Hr. done. }
    destruct Huid as (uid & Huid & Hnuid).
    destruct (resumeRequeue_requeues W sid uid data blocks s' Hsid Huid Hnuid Hv)
      as [Hdrv [(m & Hgm & _)|[_ Hq]]].
    + split; [exact Hdrv|]. left. by exists m.
    + split; [exact Hdrv|]. by right.
  - intros blocks s' Hs'.
    destruct (requeueAfterSkip_frame sid data s') as [Hk Hd].
    destruct (resumeRequeue_frame W sid data blocks (requeueAfterSkip sid data s') pid Hne)
      as [Hk2 Hd2]; [intros Hin; by apply Hk in Hin|].
    split; [exact Hk2|]. by rewrite <- Hd.
Qed.

Lemma skip_requeues_only_the_skipper_witness :
  mq (onSkip "s1" (skipWithRequeue "u1") pairedServer)
  = clearMatch "s1" "s2" (mq pairedServer)
  ∧ drivers (onSkip "s1" (skipWithRequeue "u1") pairedServer) = drivers pairedServer
  ∧ (∃ kept,
       timers (onSkip "s1" (skipWithRequeue "u1") pairedServer)
       = kept ++ [(nextTimer pairedServer, (200, RequeueAfterSkip "s1" (skipWithRequeue "u1")))]).
Proof.
  assert (H1 : getMatch "s1" (mq pairedServer) = Some "s2") by (vm_compute; reflexivity).
  assert (H2 : "s2" ≠ "") by discriminate.
  assert (H3 : "s2" ≠ "s1") by discriminate.
  assert (H4 : "s1" ≠ "") by discriminate.
  pose proof (skip_requeues_only_the_skipper tickingWorld "s1" "s2"
                (skipWithRequeue "u1") pairedServer H1 H2 H3 H4) as H.
  cbv zeta in H. destruct H as (_ & Hmq & Hdrv & (kept & _ & Htim) & _).
  split; [exact Hmq|]. split; [exact Hdrv|]. exists kept. exact Htim.
Defined.

(** C5 as stated fails: s1 and s2 are paired and s1 skips with
    autoRequeue: true; after the re-queue callback has run and the block list
    has arrived, s1 is back in the queue and s2 is not. *)
Lemma skipped_peer_is_not_requeued :
  getMatch "s1" (mq pairedServer) = Some "s2"
  ∧ "s1" ∈ jsmap_keys (queue (mq (run tickingWorld
             [InSkip "s1" (skipWithRequeue "u1"); InTimer 1; InBlocks 2 (Some [])]
             pairedServer)))
  ∧ "s2" ∉ jsmap_keys (queue (mq (run tickingWorld
             [InSkip "s1" (skipWithRequeue "u1"); InTimer 1; InBlocks 2 (Some [])]
             pairedServer))).
Proof.
  split; [vm_compute; reflexivity|]. split.
  - vm_compute. apply elem_of_cons. by left.
  - vm_compute. intros H. apply list_elem_of_singleton in H. discriminate H.
Qed.

(** * Further properties of the code *)

(** ** More on JavaScript maps and sets *)

Section JSMapMore.
Context {V : Type}.
Implicit Types (m : list (string * V)) (k s : string) (v : V).

Lemma jsmap_set_absent m k v : k ∉ jsmap_keys m → jsmap_set k v m = m ++ [(k, v)].
Proof.
  induction m as [|[k' v'] m IH]; cbn [jsmap_set jsmap_keys map fst app]; [done|].
  rewrite not_elem_of_cons. intros [Hne Hk].
  destruct (String.eqb_spec k k'); [done|]. f_equal. by apply IH.
Qed.

Lemma jsmap_delete_absent m k : k ∉ jsmap_keys m → jsmap_delete k m = m.
Proof.
  induction m as [|[k' v'] m IH]; cbn [jsmap_delete jsmap_keys map fst]; [done|].
  rewrite not_elem_of_cons. intros [Hne Hk].
  destruct (String.eqb_spec k k'); [done|]. f_equal. by apply IH.
Qed.

Lemma jsmap_keys_filter_delete (P : string * V → bool) m k :
  jsmap_keys (List.filter P (jsmap_delete k m))
  = jsset_delete k (jsmap_keys (List.filter P m)).
Proof.
  unfold jsset_delete.
  induction m as [|[k' v'] m IH]; cbn [jsmap_delete List.filter]; [done|].
  destruct (String.eqb_spec k k') as [->|Hne].
  - destruct (P (k', v')); cbn [jsmap_keys map fst List.filter]; [|exact IH].
    rewrite String.eqb_refl. cbn [negb]. exact IH.
  - cbn [List.filter]. destruct (P (k', v')); cbn [jsmap_keys map fst List.filter];
      [|exact IH].
    destruct (String.eqb_spec k k'); [done|]. cbn [negb]. f_equal. exact IH.
Qed.

Lemma jsmap_get_elem m k v : NoDup (jsmap_keys m) → (k, v) ∈ m → jsmap_get k m = Some v.
Proof.
  induction m as [|[k' v'] m IH]; cbn [jsmap_get jsmap_keys map fst].
  - intros _ H. inversion H.
  - rewrite NoDup_cons, elem_of_cons. intros [Hk Hnd] [[= -> ->]|Hin].
    + by rewrite String.eqb_refl.
    + destruct (String.eqb_spec k k') as [->|Hne]; [|by apply IH].
      exfalso. apply Hk. change k' with (fst (k', v)). by apply list_elem_of_fmap_2.
Qed.

Lemma jsmap_get_Some_elem m k v : jsmap_get k m = Some v → (k, v) ∈ m.
Proof.
  induction m as [|[k' v'] m IH]; cbn [jsmap_get]; [done|].
  destruct (String.eqb_spec k k') as [->|Hne].
  - intros [= ->]. apply elem_of_cons. by left.
  - intros H. apply elem_of_cons. right. by apply IH.
Qed.

Lemma jsmap_values_elem m v : v ∈ jsmap_values m → ∃ k, (k, v) ∈ m.
Proof.
  unfold jsmap_values. intros H. apply list_elem_of_fmap in H as ([k v'] & -> & Hin).
  by exists k.
Qed.

Lemma jsmap_get_set m k k' v :
  jsmap_get k' (jsmap_set k v m) = if String.eqb k' k then Some v else jsmap_get k' m.
Proof.
  induction m as [|[k0 v0] m IH]; cbn [jsmap_set jsmap_get].
  - by destruct (String.eqb k' k).
  - destruct (String.eqb_spec k k0) as [->|Hne]; cbn [jsmap_get].
    + by destruct (String.eqb k' k0).
    + destruct (String.eqb_spec k' k0) as [->|Hne'].
      * destruct (String.eqb_spec k0 k); [congruence | done].
      * exact IH.
Qed.

Lemma jsmap_get_delete_ne m k k' : k' ≠ k → jsmap_get k' (jsmap_delete k m) = jsmap_get k' m.
Proof.
  intros Hne. induction m as [|[k0 v0] m IH]; cbn [jsmap_delete jsmap_get]; [done|].
  destruct (String.eqb_spec k k0) as [->|Hk].
  - destruct (String.eqb_spec k' k0); [congruence | exact IH].
  - cbn [jsmap_get]. destruct (String.eqb k' k0); [done | exact IH].
Qed.

Lemma jsmap_delete_length m k :
  NoDup (jsmap_keys m) →
  length (jsmap_delete k m)
  = if jsmap_has k m then Nat.pred (length m) else length m.
Proof.
  unfold jsmap_has.
  induction m as [|[k' v'] m IH]; cbn [jsmap_delete jsmap_get jsmap_keys map fst]; [done|].
  rewrite NoDup_cons. intros [Hk Hnd].
  destruct (String.eqb_spec k k') as [->|Hne].
  - rewrite jsmap_delete_absent by done. done.
  - cbn [length]. rewrite IH by done.
    destruct (jsmap_get k m) eqn:E; [|done].
    destruct m; [done | reflexivity].
Qed.

Lemma jsmap_set_length m k v :
  length (jsmap_set k v m) = if jsmap_has k m then length m else S (length m).
Proof.
  unfold jsmap_has.
  induction m as [|[k' v'] m IH]; cbn [jsmap_set jsmap_get]; [done|].
  destruct (String.eqb_spec k k'); [done|].
  cbn [length]. rewrite IH. by destruct (jsmap_get k m).
Qed.
End JSMapMore.

Lemma jsset_has_true x l : jsset_has x l = true ↔ x ∈ l.
Proof.
  unfold jsset_has. rewrite existsb_exists. split.
  - intros (y & Hy & Heq). apply String.eqb_eq in Heq as ->. by apply list_elem_of_In.
  - intros H. exists x. split; [by apply list_elem_of_In | apply String.eqb_refl].
Qed.

Lemma jsset_add_absent x l : x ∉ l → jsset_add x l = l ++ [x].
Proof.
  intros H. unfold jsset_add. destruct (jsset_has x l) eqn:E; [|done].
  apply jsset_has_true in E. done.
Qed.

Lemma jsset_delete_absent x l : x ∉ l → jsset_delete x l = l.
Proof.
  unfold jsset_delete. induction l as [|y l IH]; cbn [List.filter]; [done|].
  rewrite not_elem_of_cons. intros [Hne Hl].
  destruct (String.eqb_spec x y); [done|]. cbn [negb]. f_equal. by apply IH.
Qed.

(** ** The indexes of the queue: tier buckets and [socketIdToUserId] *)

Lemma tierOfName_Some name t : tierOfName name = Some t ↔ name = tierName t.
Proof.
  unfold tierOfName.
  destruct (String.eqb_spec name "free") as [->|H1].
  { destruct t; cbn; split; intros; congruence. }
  destruct (String.eqb_spec name "premium") as [->|H2].
  { destruct t; cbn; split; intros; congruence. }
  destruct (String.eqb_spec name "pro") as [->|H3].
  { destruct t; cbn; split; intros; congruence. }
  destruct t; cbn; split; intros; congruence.
Qed.

Lemma tierOfName_None name t : tierOfName name = None → String.eqb name (tierName t) = false.
Proof.
  intros H. apply String.eqb_neq. intros Heq.
  apply tierOfName_Some in Heq. congruence.
Qed.

Lemma tierOr_idem x : tierOr (tierOr x) = tierOr x.
Proof. unfold tierOr. by destruct (jsTruthy x) eqn:E; [rewrite E|]. Qed.

Lemma bucketGet_update t t' f b :
  bucketGet t (bucketUpdate t' f b)
  = if String.eqb (tierName t') (tierName t) then f (bucketGet t b) else bucketGet t b.
Proof. by destruct t, t'. Qed.

Lemma bucketGet_updateByName t name f b :
  bucketGet t (bucketUpdateByName name f b)
  = if String.eqb name (tierName t) then f (bucketGet t b) else bucketGet t b.
Proof.
  unfold bucketUpdateByName. destruct (tierOfName name) as [t'|] eqn:E.
  - apply tierOfName_Some in E as ->. apply bucketGet_update.
  - by rewrite (tierOfName_None _ t E).
Qed.

Lemma removeUser_queue k b q : queue (removeUser k b q) = jsmap_delete k (queue q).
Proof.
  assert (Hq : queue match jsmap_get k (queue q) with
                     | Some u =>
                         {| queue := jsmap_delete k (queue q);
                            matches := matches q;
                            tierBuckets :=
                              bucketUpdateByName (tierOr (tier (preferences u)))
                                (jsset_delete k) (tierBuckets q);
                            lastMatchAttempt := lastMatchAttempt q;
                            socketIdToUserId := delete k (socketIdToUserId q) |}
                     | None => q
                     end = jsmap_delete k (queue q)).
  { destruct (jsmap_get k (queue q)) eqn:E; [done|].
    symmetry. apply jsmap_delete_absent. by apply jsmap_get_None_keys. }
  unfold removeUser. cbv zeta. cbn [queue].
  destruct b; [exact Hq|].
  destruct (matches _ !! k) as [m|]; [destruct (jsTruthy m)|]; exact Hq.
Qed.

Lemma removeUser_tierBuckets k b q :
  tierBuckets (removeUser k b q)
  = match jsmap_get k (queue q) with
    | Some u =>
        bucketUpdateByName (tierOr (tier (preferences u))) (jsset_delete k) (tierBuckets q)
    | None => tierBuckets q
    end.
Proof.
  unfold removeUser.
  destruct (jsmap_get k (queue q)) as [u|]; cbn [tierBuckets matches];
    destruct b; cbn [tierBuckets matches]; try reflexivity;
    destruct (matches q !! k) as [m|]; try reflexivity;
    destruct (jsTruthy m); reflexivity.
Qed.

Lemma removeUser_socketIdToUserId k b q :
  socketIdToUserId (removeUser k b q)
  = match jsmap_get k (queue q) with
    | Some _ => delete k (socketIdToUserId q)
    | None => socketIdToUserId q
    end.
Proof.
  unfold removeUser.
  destruct (jsmap_get k (queue q)) as [u|]; cbn [socketIdToUserId matches];
    destruct b; cbn [socketIdToUserId matches]; try reflexivity;
    destruct (matches q !! k) as [m|]; try reflexivity;
    destruct (jsTruthy m); reflexivity.
Qed.

Lemma jsmap_delete_Forall {V} (P : string * V → Prop) k (m : list (string * V)) :
  Forall P m → Forall P (jsmap_delete k m).
Proof.
  induction 1 as [|[k' v'] m HP _ IH]; cbn [jsmap_delete]; [constructor|].
  destruct (String.eqb k k'); [done | by constructor].
Qed.

Lemma jsmap_set_Forall {V} (P : string * V → Prop) k v (m : list (string * V)) :
  P (k, v) → Forall P m → Forall P (jsmap_set k v m).
Proof.
  intros Hkv. induction 1 as [|[k' v'] m HP Hm IH]; cbn [jsmap_set].
  - by repeat constructor.
  - destruct (String.eqb k k'); by constructor.
Qed.

Lemma tierEntries_keys_sub t (m : list (string * QueuedUser)) x :
  x ∈ jsmap_keys (tierEntries t m) → x ∈ jsmap_keys m.
Proof.
  unfold jsmap_keys, tierEntries. rewrite !list_elem_of_fmap.
  intros (e & -> & He). exists e. split; [done|].
  apply list_elem_of_In in He. apply filter_In in He as [He _].
  by apply list_elem_of_In.
Qed.

Lemma tierEntries_get t (m : list (string * QueuedUser)) k u :
  NoDup (jsmap_keys m) → jsmap_get k m = Some u →
  k ∈ jsmap_keys (tierEntries t m) →
  String.eqb (tierOr (tier (preferences u))) (tierName t) = true.
Proof.
  intros Hnd Hget Hin. unfold jsmap_keys, tierEntries in Hin.
  apply list_elem_of_fmap in Hin as ([k' u'] & Hk & He). cbn in Hk. subst k'.
  apply list_elem_of_In in He. apply filter_In in He as [He Ht].
  apply list_elem_of_In in He. apply (jsmap_get_elem _ _ _ Hnd) in He.
  rewrite Hget in He. by injection He as ->.
Qed.

Lemma removeUser_indexInv k b q : indexInv q → indexInv (removeUser k b q).
Proof.
  intros (Hnd & Hkeyed & Hbuckets & Hids).
  split; [by apply removeUser_queue_NoDup|]. split; [|split].
  - unfold queueKeyed. rewrite removeUser_queue. by apply jsmap_delete_Forall.
  - intros t. rewrite removeUser_tierBuckets, removeUser_queue.
    unfold tierEntries. rewrite jsmap_keys_filter_delete. fold (tierEntries t (queue q)).
    destruct (jsmap_get k (queue q)) as [u|] eqn:Hget.
    + rewrite bucketGet_updateByName, Hbuckets.
      destruct (String.eqb (tierOr (tier (preferences u))) (tierName t)) eqn:Ht; [done|].
      symmetry. apply jsset_delete_absent. intros Hin.
      apply (tierEntries_get _ _ _ _ Hnd Hget) in Hin. congruence.
    + rewrite Hbuckets. symmetry. apply jsset_delete_absent. intros Hin.
      apply tierEntries_keys_sub in Hin. by apply jsmap_get_None_keys in Hget.
  - intros x. rewrite removeUser_socketIdToUserId, removeUser_queue.
    destruct (decide (x = k)) as [->|Hne].
    + rewrite jsmap_get_delete.
      destruct (jsmap_get k (queue q)) as [u|] eqn:Hget; [apply lookup_delete_eq|].
      by rewrite Hids, Hget.
    + rewrite jsmap_get_delete_ne by done.
      destruct (jsmap_get k (queue q)); [|apply Hids].
      rewrite lookup_delete_ne by done. apply Hids.
Qed.

Lemma addUser_indexInv W sid uid prefs q rt :
  indexInv q → indexInv (addUser W sid uid prefs q rt).1.
Proof.
  intros Hinv. apply (removeUser_indexInv sid false) in Hinv.
  pose proof (removeUser_queue_get sid false q) as Hget.
  destruct Hinv as (Hnd & Hkeyed & Hbuckets & Hids).
  assert (Habs : sid ∉ jsmap_keys (queue (removeUser sid false q)))
    by (by apply jsmap_get_None_keys).
  unfold addUser, dateNow. cbv zeta. cbn [fst].
  set (q1 := removeUser sid false q) in *.
  set (u := {| socketId := sid; userId := uid; preferences := _; timestamp := _;
               waitTime := 0; blockedUsers := _; searchAttempts := 0 |}).
  split; [by apply jsmap_set_NoDup|]. split; [|split].
  - unfold queueKeyed. cbn [queue]. by apply jsmap_set_Forall.
  - intros t. cbn [tierBuckets queue].
    rewrite bucketGet_updateByName, Hbuckets, jsmap_set_absent by done.
    unfold tierEntries. rewrite List.filter_app. unfold jsmap_keys. rewrite map_app.
    cbn [List.filter snd preferences tier u]. rewrite tierOr_idem.
    destruct (String.eqb _ (tierName t)); cbn [map fst]; [|by rewrite app_nil_r].
    apply jsset_add_absent. intros Hin. by apply tierEntries_keys_sub in Hin.
  - intros x. cbn [socketIdToUserId queue]. rewrite jsmap_get_set.
    destruct (String.eqb_spec x sid) as [->|Hne].
    + by rewrite lookup_insert_eq.
    + rewrite lookup_insert_ne by done. apply Hids.
Qed.

Lemma tierEntries_set_same_tier t (m : list (string * QueuedUser)) k u0 u :
  jsmap_get k m = Some u0 → tier (preferences u) = tier (preferences u0) →
  jsmap_keys (tierEntries t (jsmap_set k u m)) = jsmap_keys (tierEntries t m).
Proof.
  intros Hget Ht. induction m as [|[k' v'] m IH]; [done|].
  cbn [jsmap_get jsmap_set] in *.
  destruct (String.eqb_spec k k') as [->|Hne].
  - injection Hget as ->. unfold tierEntries. cbn [List.filter snd]. rewrite Ht.
    by destruct (String.eqb _ (tierName t)).
  - unfold tierEntries in *. cbn [List.filter snd].
    destruct (String.eqb _ (tierName t)); cbn [jsmap_keys map]; [f_equal|]; by apply IH.
Qed.

Lemma findMatch_indexInv W sid q rt : indexInv q → indexInv (findMatch W sid q rt).1.2.
Proof.
  intros (Hnd & Hkeyed & Hbuckets & Hids).
  destruct (findMatch_state W sid q rt) as [->|(u0 & t & Hget & ->)]; [done|].
  assert (Hsid : socketId u0 = sid).
  { pose proof (jsmap_get_Some_elem _ _ _ Hget) as Hin.
    unfold queueKeyed in Hkeyed. rewrite Forall_forall in Hkeyed.
    by apply (Hkeyed (sid, u0)). }
  split; [|split; [|split]].
  - unfold queueKeysUnique. cbn [withQueue queue]. by apply jsmap_set_NoDup.
  - unfold queueKeyed. cbn [withQueue queue]. by apply jsmap_set_Forall.
  - intros t'. cbn [withQueue queue tierBuckets].
    rewrite (tierEntries_set_same_tier t' _ sid u0) by done. apply Hbuckets.
  - intros x. cbn [withQueue queue socketIdToUserId]. rewrite jsmap_get_set, Hids.
    destruct (String.eqb_spec x sid) as [->|Hne]; [|done]. by rewrite Hget.
Qed.

Lemma withMatches_indexInv m q : indexInv q → indexInv (withMatches m q).
Proof. done. Qed.

Lemma applyOp_indexInv W op st : indexInv st.1 → indexInv (applyOp W op st).1.
Proof.
  intros Hinv.
  destruct op as [sid uid prefs|sid keep|sid|a b|a b]; cbn [applyOp fst snd].
  - by apply addUser_indexInv.
  - by apply removeUser_indexInv.
  - destruct (findMatch W sid st.1 st.2) as [[r q'] rt'] eqn:E. cbn [fst snd].
    replace q' with (findMatch W sid st.1 st.2).1.2 by (by rewrite E).
    by apply findMatch_indexInv.
  - unfold createMatch. by do 2 apply removeUser_indexInv.
  - done.
Qed.

Lemma emptyQueue_indexInv : indexInv emptyQueue.
Proof.
  split; [apply NoDup_nil_2|]. split; [constructor|]. split.
  - by intros [].
  - intros k. cbn. by rewrite lookup_empty.
Qed.

Lemma tierName_cases (n : string) :
  ∃ b1 b2 b3 : bool,
    String.eqb n (tierName free) = b1 ∧ String.eqb n (tierName premium) = b2
    ∧ String.eqb n (tierName pro) = b3
    ∧ (tierOfName n = None ↔ b1 = false ∧ b2 = false ∧ b3 = false)
    ∧ (Nat.b2n b1 + Nat.b2n b2 + Nat.b2n b3 ≤ 1)%nat.
Proof.
  unfold tierOfName, tierName.
  destruct (String.eqb_spec n "free") as [->|H1].
  { exists true, false, false. cbn. repeat split; try done; intros; intuition congruence. }
  destruct (String.eqb_spec n "premium") as [->|H2].
  { exists false, true, false. cbn. repeat split; try done; intros; intuition congruence. }
  destruct (String.eqb_spec n "pro") as [->|H3].
  { exists false, false, true. cbn. repeat split; try done; intros; intuition congruence. }
  exists false, false, false. cbn. repeat split; try done; lia.
Qed.

Lemma tierEntries_lengths (m : list (string * QueuedUser)) :
  (length (tierEntries free m) + length (tierEntries premium m)
   + length (tierEntries pro m) + length (unbucketedEntries m) = length m)%nat.
Proof.
  unfold tierEntries, unbucketedEntries. induction m as [|[k u] m IH]; [done|].
  cbn [List.filter snd].
  destruct (tierName_cases (tierOr (tier (preferences u))))
    as (b1 & b2 & b3 & -> & -> & -> & Hnone & Hle).
  destruct (tierOfName (tierOr (tier (preferences u)))) as [t|] eqn:E.
  - assert (¬ (b1 = false ∧ b2 = false ∧ b3 = false)) by (intros H; by apply Hnone in H).
    destruct b1, b2, b3; cbn [Nat.b2n] in Hle; cbn [length]; try lia; tauto.
  - destruct Hnone as [Hnone _]. destruct Hnone as (-> & -> & ->); [done|]. cbn [length]. lia.
Qed.

(** X1.  Whatever sequence of addUser, removeUser, findMatch, createMatch and
    clearMatch calls is applied to the empty state, with whatever arguments
    (a tier may be any string), the indexes the class keeps beside the queue
    agree with it: no session is queued twice, every entry is stored under
    its own socket id, each tier bucket lists, in queue order, exactly the
    queued sessions of that tier, and [socketIdToUserId] maps exactly the
    queued sessions, each to its user. *)
Theorem queue_indexes_mirror_queue W ops rt :
  indexInv (applyOps W ops (emptyQueue, rt)).1.
Proof.
  assert (H : ∀ st, indexInv st.1 → indexInv (applyOps W ops st).1).
  { induction ops as [|op ops IH]; intros st Hst; [done|].
    cbn [applyOps fold_left]. apply IH. by apply applyOp_indexInv. }
  apply H. apply emptyQueue_indexInv.
Qed.

(** X2.  In every state in which the indexes agree with the queue, the tier
    distribution [getStats] reports counts exactly the queued users whose
    tier has a bucket: free + premium + pro, plus the number of users queued
    with any other tier, is the number of queued users; and the list of
    queued users has that many, pairwise different, entries. *)
Theorem getStats_tiers_sum q :
  indexInv q →
  tierFree (getStats q) + tierPremium (getStats q) + tierPro (getStats q)
  + Z.of_nat (length (unbucketedEntries (queue q)))
  = totalUsers (getStats q)
  ∧ Z.of_nat (length (queueUsers (getStats q))) = totalUsers (getStats q)
  ∧ NoDup (queueUsers (getStats q)).
Proof.
  intros (Hnd & _ & Hbuckets & _).
  cbn [getStats tierFree tierPremium tierPro totalUsers queueUsers].
  rewrite !Hbuckets. unfold jsmap_keys, jsmap_size. rewrite !length_map.
  pose proof (tierEntries_lengths (queue q)). split; [lia|]. split; [done|exact Hnd].
Qed.

(** A user queued with the tier 'gold' is counted by [totalUsers] and by no
    tier. *)
Lemma getStats_tiers_sum_witness :
  tierFree (getStats goldQueued.1) + tierPremium (getStats goldQueued.1)
  + tierPro (getStats goldQueued.1) = 0
  ∧ totalUsers (getStats goldQueued.1) = 1.
Proof.
  assert (H : indexInv goldQueued.1).
  { apply (applyOp_indexInv tickingWorld
             (OpAddUser "s1" "u1"
                (Some {| arg_gender := None; arg_region := None;
                         arg_tier := Some "gold"; arg_blockedUserIds := None |}))
             (emptyQueue, startRuntime)).
    apply emptyQueue_indexInv. }
  destruct (getStats_tiers_sum goldQueued.1 H) as [Hsum _].
  assert (Hun : Z.of_nat (length (unbucketedEntries (queue goldQueued.1))) = 1)
    by (vm_compute; reflexivity).
  assert (Htot : totalUsers (getStats goldQueued.1) = 1) by (vm_compute; reflexivity).
  rewrite Hun, Htot in Hsum. split; [lia | exact Htot].
Defined.

(** ** What [findMatch] can return *)

Lemma areCompatible_true q u c :
  areCompatible q u c = true →
  socketId c ≠ socketId u ∧ isMatched (socketId c) q = false
  ∧ isBlockedPair u c = false.
Proof.
  unfold areCompatible.
  destruct (String.eqb_spec (socketId c) (socketId u)); [done|].
  destruct (isMatched (socketId c) q); [done|].
  destruct (isBlockedPair u c); [done|]. done.
Qed.

Section ScanSound.
Context (W : World) (q : MatchmakingQueue) (callerId : string) (u : QueuedUser).
Hypothesis Hself : socketId u = callerId.

Lemma pushCandidate_sound c tm acc :
  c ∈ jsmap_values (queue q) → socketId c ≠ callerId →
  isMatched (socketId c) q = false → isBlockedPair u c = false →
  Forall (candidateOk q callerId u) acc.1 →
  Forall (candidateOk q callerId u) (pushCandidate W u c tm acc).1.
Proof.
  intros Hin Hne Hm Hb Hacc. unfold pushCandidate.
  destruct (calculateMatchScore W u c tm acc.2) as [s rt1]. cbn [fst].
  apply Forall_app. split; [done|]. apply Forall_singleton. by repeat split.
Qed.

Lemma scanBucket_sound ss tm bucket acc :
  Forall (candidateOk q callerId u) acc.1 →
  Forall (candidateOk q callerId u) (scanBucket W q callerId u ss tm bucket acc).1.
Proof.
  revert acc. induction bucket as [|id rest IH]; intros acc Hacc; [done|].
  cbn [scanBucket]. apply IH.
  destruct (ss && String.eqb id callerId); [done|].
  destruct (jsmap_get id (queue q)) as [c|] eqn:Hget; [|done].
  destruct (areCompatible q u c) eqn:Hc; [|done].
  apply areCompatible_true in Hc as (Hne & Hm & Hb).
  apply pushCandidate_sound; try done; [by eapply jsmap_get_Some_values | congruence].
Qed.

Lemma scanCrossTier_sound userTier tiers acc :
  Forall (candidateOk q callerId u) acc.1 →
  Forall (candidateOk q callerId u) (scanCrossTier W q callerId u userTier tiers acc).1.
Proof.
  revert acc. induction tiers as [|t rest IH]; intros acc Hacc; [done|].
  cbn [scanCrossTier]. apply IH.
  destruct (String.eqb (tierName t) userTier); [done|]. by apply scanBucket_sound.
Qed.

Lemma scanRelaxed_sound userTier values acc :
  (∀ c, c ∈ values → c ∈ jsmap_values (queue q)) →
  Forall (candidateOk q callerId u) acc.1 →
  Forall (candidateOk q callerId u) (scanRelaxed W q callerId u userTier values acc).1.
Proof.
  revert acc. induction values as [|c rest IH]; intros acc Hsub Hacc; [done|].
  cbn [scanRelaxed]. apply IH.
  - intros c' Hc'. apply Hsub. apply elem_of_cons. by right.
  - destruct (String.eqb_spec (socketId c) callerId); [done|].
    destruct (isMatched (socketId c) q) eqn:Hm; [done|].
    destruct (isBlockedPair u c) eqn:Hb; [done|].
    apply pushCandidate_sound; try done. apply Hsub. apply elem_of_cons. by left.
Qed.

Lemma collectCandidates_sound rt :
  Forall (candidateOk q callerId u) (collectCandidates W q callerId u rt).1.
Proof.
  unfold collectCandidates. cbv zeta.
  set (userTier := tierOr (tier (preferences u))).
  set (p1 := match tierOfName userTier with
             | Some t =>
                 scanBucket W q callerId u true true (bucketGet t (tierBuckets q)) ([], rt)
             | None => ([], rt)
             end).
  assert (H1 : Forall (candidateOk q callerId u) p1.1).
  { unfold p1. destruct (tierOfName userTier); [|constructor].
    apply scanBucket_sound. constructor. }
  set (p2 := if isNil p1.1 || (10000 <? waitTime u)
             then scanCrossTier W q callerId u userTier allTiers p1
             else p1).
  assert (H2 : Forall (candidateOk q callerId u) p2.1).
  { unfold p2. destruct (_ || _); [by apply scanCrossTier_sound | done]. }
  destruct (isNil p2.1); [|apply H2].
  apply scanRelaxed_sound; done.
Qed.
End ScanSound.

Lemma queueKeyed_get q k u : queueKeyed q → jsmap_get k (queue q) = Some u → socketId u = k.
Proof.
  unfold queueKeyed. rewrite Forall_forall. intros Hkeyed Hget.
  apply jsmap_get_Some_elem in Hget. by apply (Hkeyed (k, u)).
Qed.

Lemma queueKeyed_values q u :
  queueKeyed q → u ∈ jsmap_values (queue q) → socketId u ∈ jsmap_keys (queue q).
Proof.
  unfold queueKeyed. rewrite Forall_forall. intros Hkeyed Hin.
  apply jsmap_values_elem in Hin as [k Hin].
  pose proof (Hkeyed _ Hin) as E. cbn [snd fst] in E. rewrite E. unfold jsmap_keys.
  change k with (k, u).1. by apply list_elem_of_fmap_2.
Qed.

(** The user [findMatch] returns is one of the candidates of its scan. *)
Lemma findMatch_picks_candidate W sid q rt m :
  queueKeyed q →
  (findMatch W sid q rt).1.1 = Some m →
  ∃ u0, jsmap_get sid (queue q) = Some u0
        ∧ isMatched sid q = false
        ∧ m ∈ jsmap_values (queue q)
        ∧ socketId m ≠ sid
        ∧ isMatched (socketId m) q = false
        ∧ isBlockedPair u0 m = false.
Proof.
  intros Hkeyed Hres.
  destruct (isMatched sid q) eqn:Hm.
  { unfold findMatch in Hres. by rewrite Hm in Hres. }
  destruct (jsmap_get sid (queue q)) as [u0|] eqn:Hget; cycle 1.
  { unfold findMatch in Hres. by rewrite Hm, Hget in Hres. }
  exists u0. split; [done|]. split; [done|].
  rewrite (findMatch_queued W sid q rt u0 Hm Hget) in Hres. cbv zeta in Hres.
  set (u := touchUser (now W (clockReads rt)) u0) in *.
  set (q1 := withQueue (jsmap_set sid u (queue q)) q) in *.
  assert (Hself : socketId u = sid) by exact (queueKeyed_get q sid u0 Hkeyed Hget).
  pose proof (collectCandidates_sound W q1 sid u Hself (dateNow W rt).2) as Hall.
  set (cs := collectCandidates W q1 sid u (dateNow W rt).2) in *.
  destruct (isNil cs.1) eqn:Hnil; [done|]. cbn [fst] in Hres.
  assert (Hne : cs.1 ≠ []).
  { intros H. apply isNil_true in H. congruence. }
  destruct (selectMatch_some W _ cs.2 Hne) as (c & Hc & Hsel).
  rewrite Hsel in Hres. injection Hres as <-.
  assert (Hok : candidateOk q1 sid u c).
  { rewrite Forall_forall in Hall. apply Hall.
    rewrite topCandidatesOf_take in Hc. apply elem_of_take in Hc as (i & Hc & _).
    apply list_elem_of_lookup_2 in Hc.
    by rewrite (sortByScoreDesc_perm cs.1) in Hc. }
  destruct Hok as (Hin & Hnsid & Hum & Hb).
  split; [|done].
  cbn [q1 withQueue queue] in Hin. apply jsmap_values_set in Hin as [Heq|Hin]; [|done].
  rewrite Heq in Hnsid. done.
Qed.

(** X3.  In a queue whose entries are stored under their own socket id,
    whatever [findMatch] returns for a caller, in any of its three phases
    (same tier, cross tier, relaxed), is a queued user other than the
    caller, not currently paired, and neither of the two blocks the other;
    and a match is only ever returned to a caller that is itself queued and
    unpaired. *)
Theorem findMatch_result_sound W sid q rt m :
  queueKeyed q →
  (findMatch W sid q rt).1.1 = Some m →
  ∃ u0, jsmap_get sid (queue q) = Some u0
        ∧ getMatch sid q = None
        ∧ m ∈ jsmap_values (queue q)
        ∧ socketId m ≠ sid
        ∧ getMatch (socketId m) q = None
        ∧ (userId m ∉ blockedUsers u0) ∧ (userId u0 ∉ blockedUsers m).
Proof.
  intros Hkeyed Hres.
  destruct (findMatch_picks_candidate W sid q rt m Hkeyed Hres)
    as (u0 & Hget & Hm & Hin & Hne & Hum & Hb).
  exists u0. unfold getMatch. rewrite <- !isMatched_false.
  repeat (split; [done|]).
  unfold isBlockedPair in Hb. apply orb_false_iff in Hb as [Hb1 Hb2].
  by rewrite !bool_decide_eq_false in *.
Qed.

Lemma findMatch_result_sound_witness :
  ∃ m, (findMatch tickingWorld "s1" twoQueued.1 twoQueued.2).1.1 = Some m
       ∧ socketId m ≠ "s1" ∧ getMatch (socketId m) twoQueued.1 = None.
Proof.
  assert (Hk : queueKeyed twoQueued.1) by (vm_compute; repeat constructor).
  destruct (findMatch tickingWorld "s1" twoQueued.1 twoQueued.2).1.1 as [m|] eqn:E;
    [|vm_compute in E; discriminate E].
  exists m. split; [reflexivity|].
  destruct (findMatch_result_sound tickingWorld "s1" twoQueued.1 twoQueued.2 m Hk E)
    as (u0 & _ & _ & _ & Hne & Hum & _).
  split; [exact Hne | exact Hum].
Defined.

(** ** The invariant of the server *)

Lemma serverInv_exclusionInv q : serverInv q → exclusionInv q.
Proof. intros [(Hnd & _) (_ & Hdis & Hv & _)]. by repeat split. Qed.

Lemma removeUser_serverInv k b q : serverInv q → serverInv (removeUser k b q).
Proof.
  intros Hinv. pose proof (serverInv_exclusionInv q Hinv) as Hex.
  destruct Hinv as [Hidx (Htr & Hdis & Hv & Hsym)].
  split; [by apply removeUser_indexInv|].
  destruct (applyOp_exclusionInv tickingWorld (OpRemoveUser k b) (q, startRuntime) I Hex)
    as (_ & Hdis' & Hv').
  split; [|split; [exact Hdis'|split; [exact Hv'|by apply removeUser_symmetric]]].
  unfold queueKeysTruthy in *. rewrite Forall_forall in *.
  intros x Hx. apply removeUser_queue_keys in Hx as [_ Hx]. by apply Htr.
Qed.

Lemma addUser_serverInv W sid uid prefs q rt :
  sid ≠ "" → serverInv q → serverInv (addUser W sid uid prefs q rt).1.
Proof.
  intros Hsid Hinv. pose proof (serverInv_exclusionInv q Hinv) as Hex.
  destruct Hinv as [Hidx (Htr & Hdis & Hv & Hsym)].
  split; [by apply addUser_indexInv|].
  destruct (applyOp_exclusionInv W (OpAddUser sid uid prefs) (q, rt) I Hex)
    as (_ & Hdis' & Hv').
  split; [|split; [exact Hdis'|split; [exact Hv'|]]].
  - unfold queueKeysTruthy in *. rewrite Forall_forall in *.
    intros x Hx. apply addUser_queue_keys in Hx as [->|Hx]; [done | by apply Htr].
  - unfold pairingSymmetric, getMatch. rewrite addUser_matches.
    by apply removeUser_symmetric.
Qed.

Lemma findMatch_serverInv W sid q rt : serverInv q → serverInv (findMatch W sid q rt).1.2.
Proof.
  intros [Hidx (Htr & Hdis & Hv & Hsym)].
  split; [by apply findMatch_indexInv|].
  split; [|split; [|split]].
  - unfold queueKeysTruthy. by rewrite findMatch_queue_keys.
  - intros x. rewrite findMatch_queue_keys, findMatch_matches. apply Hdis.
  - intros k v. rewrite findMatch_matches. apply Hv.
  - unfold pairingSymmetric, getMatch. by rewrite findMatch_matches.
Qed.

(** [createMatch] applied to two queued sessions. *)
Lemma createMatch_serverInv a b q :
  a ∈ jsmap_keys (queue q) → b ∈ jsmap_keys (queue q) →
  serverInv q → serverInv (createMatch a b q).
Proof.
  intros Ha Hb Hinv. pose proof (serverInv_exclusionInv q Hinv) as Hex.
  destruct Hinv as [Hidx (Htr & Hdis & Hv & Hsym)].
  assert (Hne : a ≠ "" ∧ b ≠ "").
  { unfold queueKeysTruthy in Htr. rewrite Forall_forall in Htr. split; by apply Htr. }
  split.
  { unfold createMatch. do 2 apply removeUser_indexInv. by apply withMatches_indexInv. }
  destruct (applyOp_exclusionInv tickingWorld (OpCreateMatch a b) (q, startRuntime) Hne Hex)
    as (_ & Hdis' & Hv').
  split; [|split; [exact Hdis'|split; [exact Hv'|]]].
  - unfold queueKeysTruthy in *. rewrite Forall_forall in *.
    intros x Hx. apply createMatch_queue_keys in Hx as (_ & _ & Hx). by apply Htr.
  - unfold pairingSymmetric, getMatch. rewrite createMatch_matches.
    apply symmetricMap_insert_pair; [exact Hsym | by apply Hdis | by apply Hdis].
Qed.

(** [clearMatch] applied to a session and its partner. *)
Lemma clearMatch_serverInv a b q :
  getMatch a q = Some b → serverInv q → serverInv (clearMatch a b q).
Proof.
  intros Hab Hinv. pose proof (serverInv_exclusionInv q Hinv) as Hex.
  destruct Hinv as [Hidx (Htr & Hdis & Hv & Hsym)].
  split; [done|].
  destruct (applyOp_exclusionInv tickingWorld (OpClearMatch a b) (q, startRuntime) I Hex)
    as (_ & Hdis' & Hv').
  split; [exact Htr|]. split; [exact Hdis'|]. split; [exact Hv'|].
  unfold pairingSymmetric, getMatch, clearMatch. cbn [matches withMatches].
  by apply symmetricMap_delete_pair.
Qed.

Lemma emptyQueue_serverInv : serverInv emptyQueue.
Proof.
  split; [apply emptyQueue_indexInv|].
  split; [constructor|]. split; [by intros s Hs; inversion Hs|].
  split; intros a b H; exfalso; revert H; unfold getMatch; cbn [matches emptyQueue];
    by rewrite lookup_empty.
Qed.

Lemma sameCore_serverInv s s' : sameCore s s' → serverInv (mq s) → serverInv (mq s').
Proof. intros (-> & _). done. Qed.

Lemma checkForMatch_serverInv W d s :
  serverInv (mq s) → serverInv (mq (checkForMatch W d s)).
Proof.
  intros Hinv. unfold checkForMatch.
  destruct (drivers s !! d) as [dr|]; [|done].
  destruct (_ || _); [done|].
  destruct (negb _) eqn:Hq.
  { eapply sameCore_serverInv; [apply cancelSelf_sameCore | done]. }
  destruct (isMatched _ _).
  { eapply sameCore_serverInv; [apply cancelSelf_sameCore | done]. }
  apply negb_false_iff, jsmap_has_true in Hq. destruct Hq as [u Hq].
  apply jsmap_get_Some_keys in Hq.
  set (s1 := updateDriver d _ s).
  assert (H1 : sameCore s s1) by (by apply updateDriver_sameCore).
  destruct H1 as (Hmq & _).
  destruct (findMatch W (driverSocket dr) (mq s1) (runtime s1)) as [[found q1] rt1] eqn:E.
  assert (Hq1 : q1 = (findMatch W (driverSocket dr) (mq s) (runtime s1)).1.2)
    by (by rewrite <- Hmq, E).
  assert (Hinv1 : serverInv q1) by (rewrite Hq1; by apply findMatch_serverInv).
  destruct found as [m|]; [|exact Hinv1].
  destruct (announceMatch_effect W d (driverSocket dr) m (setRuntime rt1 (setMq q1 s1)))
    as (_ & -> & _).
  cbn [mq setMq setRuntime].
  assert (Hm : (findMatch W (driverSocket dr) (mq s) (runtime s1)).1.1 = Some m)
    by (by rewrite <- Hmq, E).
  destruct Hinv as [(Hnd & Hkeyed & Hidx) Hpair].
  destruct (findMatch_picks_candidate W _ _ _ m Hkeyed Hm) as (u0 & _ & _ & Hin & _).
  apply createMatch_serverInv; [| |exact Hinv1].
  - rewrite Hq1, findMatch_queue_keys. done.
  - rewrite Hq1, findMatch_queue_keys. by apply queueKeyed_values.
Qed.

Lemma pollTick_serverInv W d s : serverInv (mq s) → serverInv (mq (pollTick W d s)).
Proof.
  intros Hinv. unfold pollTick. destruct (driverLive d s); [|done].
  pose proof (checkForMatch_serverInv W d s Hinv) as H1.
  destruct (driverLive d (checkForMatch W d s)); [|done].
  eapply sameCore_serverInv; [apply scheduleNext_sameCore | done].
Qed.

Lemma handleMatchmaking_serverInv W sid s :
  serverInv (mq s) → serverInv (mq (handleMatchmaking W sid s)).
Proof.
  intros Hinv. unfold handleMatchmaking.
  set (s3 := setCancelled _ (setIntervals _ (setDrivers _ s))).
  set (d := length (drivers s)).
  pose proof (checkForMatch_serverInv W d s3 Hinv) as H4.
  set (s4 := checkForMatch W d s3) in *.
  set (s5 := match drivers s4 !! d with
             | Some dr => if isCancelled dr then s4 else scheduleNext d s4
             | None => s4
             end).
  assert (H5 : serverInv (mq s5)).
  { unfold s5. destruct (drivers s4 !! d) as [dr|]; [|done].
    destruct (isCancelled dr); [done|].
    eapply sameCore_serverInv; [apply scheduleNext_sameCore | done]. }
  eapply sameCore_serverInv; [|exact H5]. by apply updateDriver_sameCore.
Qed.

Lemma onFindMatch_serverInv sid data s :
  serverInv (mq s) → serverInv (mq (onFindMatch sid data s)).
Proof.
  intros Hinv. unfold onFindMatch. cbn [mq setAwaiting].
  destruct (isMatched sid (mq s)); [|done].
  destruct (getMatch sid (mq s)) as [m|] eqn:Hm; [|done].
  destruct (jsTruthy m); [|done].
  cbn [mq setMq]. by apply clearMatch_serverInv.
Qed.

Lemma resumeFindMatch_serverInv W sid data blocks s :
  serverInv (mq s) → serverInv (mq (resumeFindMatch W sid data blocks s)).
Proof.
  intros Hinv. unfold resumeFindMatch.
  destruct (jsTruthy sid) eqn:Hsid; [|done]. cbn [negb].
  apply jsTruthy_true in Hsid.
  set (prefs := match blocks with Some ids => _ | None => _ end).
  pose proof (addUser_serverInv W sid (fm_userId data) prefs (mq s) (runtime s) Hsid Hinv)
    as Hadd.
  destruct (addUser W sid (fm_userId data) prefs (mq s) (runtime s)) as [q rt].
  by apply handleMatchmaking_serverInv.
Qed.

Lemma driverCancel_serverInv d sid s :
  serverInv (mq s) → serverInv (mq (driverCancel d sid s)).
Proof.
  intros Hinv. unfold driverCancel. cbn [mq emitTo setOutbox setMq].
  apply removeUser_serverInv.
  eapply sameCore_serverInv; [apply cancelSelf_sameCore | done].
Qed.

Lemma onCancelMatch_serverInv sid s :
  serverInv (mq s) → serverInv (mq (onCancelMatch sid s)).
Proof.
  intros Hinv. unfold onCancelMatch.
  apply (forDriversOf_preserves (fun st => serverInv (mq st))).
  - intros d st. apply driverCancel_serverInv.
  - destruct (sockets s !! sid) as [so|]; [|done].
    destruct (baseCancelListener so); [|done].
    cbn [baseCancel mq emitTo setOutbox setMq]. by apply removeUser_serverInv.
Qed.

(** With a partner, 'skip' does to the queue what [clearMatch] does. *)
Lemma skipMatched_mq sid pid data s :
  mq (skipMatched sid pid data s) = clearMatch sid pid (mq s).
Proof.
  unfold skipMatched.
  set (e1 := match sockets s !! pid with
             | Some _ => emitTo pid _ s
             | None => emitToRoom pid _ s
             end).
  assert (Hmq1 : mq e1 = mq s) by (unfold e1; by destruct (sockets s !! pid)).
  set (e2 := emitTo sid _ e1).
  set (s4 := stopIntervalOf pid _ (stopIntervalOf sid _ e2)).
  assert (H4 : sameCore e2 s4).
  { eapply sameCore_trans; apply stopIntervalOf_sameCore. }
  destruct H4 as (Hmq4 & _).
  destruct (clearMatch_unmatches sid pid (mq s4)) as [Hu1 Hu2].
  cbn [mq setMq]. rewrite Hu1, Hu2. cbn [orb].
  assert (Hmq5 : clearMatch sid pid (mq s4) = clearMatch sid pid (mq s)).
  { rewrite Hmq4. cbn [mq e2 emitTo setOutbox]. by rewrite Hmq1. }
  by destruct (_ && _).
Qed.

Lemma onSkip_serverInv sid data s : serverInv (mq s) → serverInv (mq (onSkip sid data s)).
Proof.
  intros Hinv. unfold onSkip.
  assert (Hun : serverInv (mq (skipUnmatched sid s))).
  { cbn [skipUnmatched mq emitTo setOutbox setMq]. by apply removeUser_serverInv. }
  destruct (getMatch sid (mq s)) as [m|] eqn:Hm; [|exact Hun].
  destruct (jsTruthy m); [|exact Hun].
  rewrite skipMatched_mq. by apply clearMatch_serverInv.
Qed.

Lemma requeueAfterSkip_serverInv sid data s :
  serverInv (mq s) → serverInv (mq (requeueAfterSkip sid data s)).
Proof.
  intros Hinv. unfold requeueAfterSkip.
  destruct (truthyOpt (getMatch sid (mq s))).
  - destruct (negb _); cbn [mq setMq setAwaiting]; by apply removeUser_serverInv.
  - by destruct (negb _).
Qed.

Lemma resumeRequeue_serverInv W sid data blocks s :
  serverInv (mq s) → serverInv (mq (resumeRequeue W sid data blocks s)).
Proof.
  intros Hinv. unfold resumeRequeue.
  destruct (skip_userId data) as [uid|]; [|done].
  destruct (jsTruthy sid) eqn:Hsid; [|done]. cbn [negb orb].
  destruct (negb (jsTruthy uid)); [done|].
  apply jsTruthy_true in Hsid.
  set (prefs := match blocks with Some ids => _ | None => _ end).
  pose proof (addUser_serverInv W sid uid prefs (mq s) (runtime s) Hsid Hinv) as Hadd.
  destruct (addUser W sid uid prefs (mq s) (runtime s)) as [q rt].
  rewrite (proj1 (emitTo_frame sid (EvSkipSuccess true) _)).
  by apply handleMatchmaking_serverInv.
Qed.

Lemma driverDisconnect_serverInv d sid s :
  serverInv (mq s) → serverInv (mq (driverDisconnect d sid s)).
Proof.
  intros Hinv. unfold driverDisconnect.
  destruct (cancelSelf_sameCore d sid s) as (Hmq & _).
  set (s1 := cancelSelf d sid s) in *.
  destruct (negb _); cbn [mq setMq setCancelled setIntervals]; rewrite Hmq; [|done].
  by apply removeUser_serverInv.
Qed.

Lemma onDisconnect_serverInv sid s :
  serverInv (mq s) → serverInv (mq (onDisconnect sid s)).
Proof.
  intros Hinv. unfold onDisconnect.
  apply (forDriversOf_preserves (fun st => serverInv (mq st))).
  - intros d st. apply driverDisconnect_serverInv.
  - cbn [mq setMq setSockets]. by apply removeUser_serverInv.
Qed.

Lemma onSendMessage_mq W sid message s : mq (onSendMessage W sid message s) = mq s.
Proof.
  unfold onSendMessage.
  destruct (getMatch sid (mq s)) as [m|]; [|done].
  destruct (jsTruthy m); [|done].
  destruct (isProfane W message); [done|].
  unfold dateNow. cbv beta iota zeta.
  cbn [sockets emitTo setOutbox setRuntime].
  destruct (sockets s !! m) as [so|]; [destruct (connected so)|]; reflexivity.
Qed.

Lemma step_serverInv W i s : serverInv (mq s) → serverInv (mq (step W i s)).
Proof.
  intros Hinv. destruct i as [sid|sid data|sid|sid data|sid message|sid|id|id blocks];
    cbn [step].
  - done.
  - destruct (socketOpen sid s); [by apply onFindMatch_serverInv | done].
  - destruct (socketOpen sid s); [by apply onCancelMatch_serverInv | done].
  - destruct (socketOpen sid s); [by apply onSkip_serverInv | done].
  - destruct (socketOpen sid s); [by rewrite onSendMessage_mq | done].
  - destruct (socketOpen sid s); [by apply onDisconnect_serverInv | done].
  - destruct (lookupById id (timers s)) as [[delay task]|]; [|done].
    destruct task as [d|sid data].
    + by apply pollTick_serverInv.
    + by apply requeueAfterSkip_serverInv.
  - destruct (lookupById id (awaiting s)) as [k|]; [|done].
    destruct k as [sid data|sid data].
    + by apply resumeFindMatch_serverInv.
    + by apply resumeRequeue_serverInv.
Qed.

Lemma run_serverInv W inputs s : serverInv (mq s) → serverInv (mq (run W inputs s)).
Proof.
  revert s. induction inputs as [|i inputs IH]; intros s Hs; [done|].
  cbn [run fold_left]. apply IH. by apply step_serverInv.
Qed.

Lemma pairedServer_serverInv : serverInv (mq pairedServer).
Proof.
  apply step_serverInv. apply (run_serverInv tickingWorld). apply emptyQueue_serverInv.
Qed.

(** X4.  Whatever events arrive, in whatever order and with whatever payload
    (connections, find-match and skip with preferences whose tier is any
    string, cancel-match, send-message, disconnects, timers firing, block
    lists arriving or failing), the queue of the server always satisfies:
    no session is queued twice, no queued session id is empty, no session is
    both queued and paired, partner ids are non-empty, the pairing is
    symmetric, and tier buckets and [socketIdToUserId] agree with the
    queue.  The handlers need no precondition for this: they pair only two
    queued sessions, and they clear a pairing only of a session with its
    current partner. *)
Theorem server_queue_invariant W inputs :
  serverInv (mq (run W inputs initialServer)).
Proof. apply run_serverInv. apply emptyQueue_serverInv. Qed.

(** ** [findMatch] only touches the caller's own entry *)

(** X5.  Whatever [findMatch] returns, the only thing it changes is the
    caller's own queue entry: for a queued, unpaired caller the wait time of
    the entry becomes the time of this call minus the enqueue time and its
    search attempts go up by one (also when no match is found), its other
    fields staying as they were; the pairing table, the tier buckets, the
    other indexes, the order of the queue and every other entry stay as they
    were.  For a paired caller nothing changes at all. *)
Theorem findMatch_frame W sid q rt :
  matches (findMatch W sid q rt).1.2 = matches q
  ∧ tierBuckets (findMatch W sid q rt).1.2 = tierBuckets q
  ∧ socketIdToUserId (findMatch W sid q rt).1.2 = socketIdToUserId q
  ∧ lastMatchAttempt (findMatch W sid q rt).1.2 = lastMatchAttempt q
  ∧ jsmap_keys (queue (findMatch W sid q rt).1.2) = jsmap_keys (queue q)
  ∧ (∀ k, k ≠ sid →
       jsmap_get k (queue (findMatch W sid q rt).1.2) = jsmap_get k (queue q))
  ∧ jsmap_get sid (queue (findMatch W sid q rt).1.2)
    = (if isMatched sid q then jsmap_get sid (queue q)
       else match jsmap_get sid (queue q) with
            | Some u0 =>
                Some {| socketId := socketId u0; userId := userId u0;
                        preferences := preferences u0; timestamp := timestamp u0;
                        waitTime := now W (clockReads rt) - timestamp u0;
                        blockedUsers := blockedUsers u0;
                        searchAttempts := searchAttempts u0 + 1 |}
            | None => None
            end).
Proof.
  destruct (isMatched sid q) eqn:Hm.
  { unfold findMatch. rewrite Hm. cbn [fst snd]. by repeat split. }
  destruct (jsmap_get sid (queue q)) as [u0|] eqn:Hget; cycle 1.
  { unfold findMatch. rewrite Hm, Hget. cbn [fst snd]. rewrite Hget. by repeat split. }
  rewrite (findMatch_queued W sid q rt u0 Hm Hget). cbv zeta.
  set (u := touchUser (now W (clockReads rt)) u0).
  set (q1 := withQueue (jsmap_set sid u (queue q)) q).
  assert (Hq1 : ∀ a b c d : option QueuedUser * MatchmakingQueue * Runtime,
            (if isNil (collectCandidates W q1 sid u (dateNow W rt).2).1
             then (None, q1, (collectCandidates W q1 sid u (dateNow W rt).2).2)
             else ((selectMatch W
                      (collectCandidates W q1 sid u (dateNow W rt).2).1
                      (collectCandidates W q1 sid u (dateNow W rt).2).2).1, q1,
                   (selectMatch W
                      (collectCandidates W q1 sid u (dateNow W rt).2).1
                      (collectCandidates W q1 sid u (dateNow W rt).2).2).2)).1.2 = q1).
  { intros _ _ _ _. by destruct (isNil _). }
  rewrite (Hq1 (None, q, rt) (None, q, rt) (None, q, rt) (None, q, rt)).
  cbn [q1 withQueue matches tierBuckets socketIdToUserId lastMatchAttempt queue].
  repeat (split; [reflexivity|]).
  split; [apply jsmap_keys_set_present; by eapply jsmap_get_Some_keys|].
  split.
  - intros k Hk. rewrite jsmap_get_set.
    destruct (String.eqb_spec k sid); [done | reflexivity].
  - rewrite jsmap_get_set, String.eqb_refl. reflexivity.
Qed.

(** ** The polling interval *)

(** X7.  For a non-negative check count the delay to the next poll is
    between 500 ms and 10 s, and with the queue unchanged a driver that has
    polled more often never waits less: the delay does not decrease with the
    check count. *)
Theorem getPollingInterval_range dr dr' s :
  0 <= checkCount dr → checkCount dr <= checkCount dr' →
  500 <= getPollingInterval dr s <= 10000
  ∧ getPollingInterval dr s <= getPollingInterval dr' s.
Proof.
  intros H0 Hle. unfold getPollingInterval. cbv zeta.
  assert (Hdiv : 0 <= checkCount dr / 5 <= checkCount dr' / 5).
  { split; [apply Z.div_pos; lia | apply Z.div_le_mono; lia]. }
  assert (Hpow : 1 <= 2 ^ (checkCount dr / 5) <= 2 ^ (checkCount dr' / 5)).
  { split; [|apply Z.pow_le_mono_r; lia].
    change 1 with (2 ^ 0). apply Z.pow_le_mono_r; lia. }
  destruct (getQueueSize (mq s) =? 1); [lia|].
  destruct (getQueueSize (mq s) <=? 2); [lia|].
  destruct (Z.ltb_spec (checkCount dr) 5), (Z.ltb_spec (checkCount dr') 5),
    (Z.ltb_spec (checkCount dr) 15), (Z.ltb_spec (checkCount dr') 15); lia.
Qed.

Lemma getPollingInterval_range_witness :
  ∃ dr, 500 <= getPollingInterval dr searchingServer <= 10000.
Proof.
  pose (dr := {| driverSocket := "s1"; isCancelled := false;
                 matchmakingInterval := None; checkCount := 7;
                 cancelListener := true |}).
  exists dr.
  apply (getPollingInterval_range dr dr searchingServer); cbn; lia.
Defined.

(** ** The queue position *)

Lemma countAhead_range q sid u bucket p :
  sid ∈ bucket →
  p <= countAhead q sid u bucket p < p + Z.of_nat (length bucket).
Proof.
  revert p. induction bucket as [|id rest IH]; intros p Hin; [by inversion Hin|].
  cbn [countAhead length]. destruct (String.eqb_spec id sid) as [->|Hne]; [lia|].
  apply elem_of_cons in Hin as [Hin|Hin]; [congruence|].
  destruct (jsmap_get id (queue q)) as [c|]; [destruct (areCompatible q u c)|];
    pose proof (IH p Hin); pose proof (IH (p + 1) Hin); lia.
Qed.

Lemma tierEntries_has t (m : list (string * QueuedUser)) k u :
  jsmap_get k m = Some u → tierOfName (tierOr (tier (preferences u))) = Some t →
  k ∈ jsmap_keys (tierEntries t m).
Proof.
  intros Hget Ht. apply jsmap_get_Some_elem in Hget.
  unfold jsmap_keys. change k with (k, u).1. apply list_elem_of_fmap_2.
  unfold tierEntries. apply list_elem_of_In, filter_In. split; [by apply list_elem_of_In|].
  cbn [snd]. apply tierOfName_Some in Ht. rewrite Ht. apply String.eqb_refl.
Qed.

(** X8.  When the indexes agree with the queue, the position
    [getQueuePosition] reports for a queued session whose tier has a bucket
    is at least 0 and less than the number of queued sessions of that tier;
    for a queued session whose tier has no bucket it is -1. *)
Theorem getQueuePosition_range sid q u :
  indexInv q → jsmap_get sid (queue q) = Some u →
  match tierOfName (tierOr (tier (preferences u))) with
  | Some t => 0 <= getQueuePosition sid q < Z.of_nat (length (tierEntries t (queue q)))
  | None => getQueuePosition sid q = -1
  end.
Proof.
  intros (_ & _ & Hbuckets & _) Hget. unfold getQueuePosition. rewrite Hget.
  destruct (tierOfName (tierOr (tier (preferences u)))) as [t|] eqn:Ht; [|done].
  rewrite Hbuckets.
  pose proof (countAhead_range q sid u (jsmap_keys (tierEntries t (queue q))) 0
                (tierEntries_has _ _ _ _ Hget Ht)) as H.
  unfold jsmap_keys in *. rewrite length_map in H. lia.
Qed.

Lemma getQueuePosition_range_witness :
  0 <= getQueuePosition "s2" twoQueued.1 < 2 ∧ getQueuePosition "s1" goldQueued.1 = -1.
Proof.
  assert (H : indexInv twoQueued.1).
  { apply (applyOp_indexInv tickingWorld (OpAddUser "s2" "u2" None)).
    apply (applyOp_indexInv tickingWorld (OpAddUser "s1" "u1" None)).
    apply emptyQueue_indexInv. }
  assert (H' : indexInv goldQueued.1).
  { apply (applyOp_indexInv tickingWorld
             (OpAddUser "s1" "u1"
                (Some {| arg_gender := None; arg_region := None;
                         arg_tier := Some "gold"; arg_blockedUserIds := None |}))
             (emptyQueue, startRuntime)).
    apply emptyQueue_indexInv. }
  split.
  - destruct (jsmap_get "s2" (queue twoQueued.1)) as [u|] eqn:E;
      [|vm_compute in E; discriminate E].
    pose proof (getQueuePosition_range "s2" twoQueued.1 u H E) as Hr.
    vm_compute in E. injection E as <-.
    change (tierOfName _) with (Some free) in Hr. cbv iota in Hr.
    assert (Hlen : Z.of_nat (length (tierEntries free (queue twoQueued.1))) = 2)
      by (vm_compute; reflexivity).
    rewrite Hlen in Hr. exact Hr.
  - destruct (jsmap_get "s1" (queue goldQueued.1)) as [u|] eqn:E;
      [|vm_compute in E; discriminate E].
    pose proof (getQueuePosition_range "s1" goldQueued.1 u H' E) as Hr.
    vm_compute in E. injection E as <-.
    change (tierOfName _) with (@None Tier) in Hr. exact Hr.
Defined.

(** ** Re-enqueueing *)

(** X9.  [addUser] always puts the session at the end of the queue, also
    when it was queued before: the old entry is dropped, the other entries
    keep their order, and the new entry starts with the enqueue time of this
    call, no wait time and no search attempt. *)
Theorem addUser_enqueues_last W sid uid prefs q rt :
  ∃ u, queue (addUser W sid uid prefs q rt).1 = jsmap_delete sid (queue q) ++ [(sid, u)]
       ∧ socketId u = sid ∧ userId u = uid
       ∧ tier (preferences u)
         = match prefs ≫= arg_tier with
           | Some t => if String.eqb t "" then "free" else t
           | None => "free"
           end
       ∧ timestamp u = now W (clockReads rt)
       ∧ waitTime u = 0 ∧ searchAttempts u = 0.
Proof.
  unfold addUser, dateNow. cbv zeta. cbn [fst queue].
  eexists. split.
  - rewrite jsmap_set_absent by apply jsmap_get_None_keys, removeUser_queue_get.
    rewrite removeUser_queue. reflexivity.
  - repeat split. cbn [preferences tier].
    destruct (prefs ≫= arg_tier) as [t|]; [|done].
    change (default "" (Some t)) with t. unfold tierOr, jsTruthy.
    destruct (String.eqb t ""); reflexivity.
Qed.

(** ** [removeUser] and the life of a pairing *)

(** X10.  In a state that satisfies the invariant of the server,
    [removeUser] (with keepMatch false) leaves no trace of the session:
    it is in no tier bucket, not in the queue, not in [socketIdToUserId],
    not in [lastMatchAttempt], it has no partner, and the partner it had has
    none either; every other queue entry is untouched. *)
Theorem removeUser_leaves_no_trace k q :
  serverInv q →
  (k ∉ jsmap_keys (queue (removeUser k false q)))
  ∧ (∀ t, k ∉ bucketGet t (tierBuckets (removeUser k false q)))
  ∧ socketIdToUserId (removeUser k false q) !! k = None
  ∧ lastMatchAttempt (removeUser k false q) !! k = None
  ∧ getMatch k (removeUser k false q) = None
  ∧ (∀ p, getMatch k q = Some p → getMatch p (removeUser k false q) = None)
  ∧ (∀ x, x ≠ k → jsmap_get x (queue (removeUser k false q)) = jsmap_get x (queue q)).
Proof.
  intros Hinv.
  pose proof (removeUser_serverInv k false q Hinv) as [(_ & _ & Hb & Hids) _].
  destruct Hinv as [_ (_ & _ & Hv & _)].
  pose proof (removeUser_queue_get k false q) as Hget.
  assert (Hk : k ∉ jsmap_keys (queue (removeUser k false q)))
    by (by apply jsmap_get_None_keys).
  split; [exact Hk|]. split; [|split; [|split; [|split; [|split]]]].
  - intros t Hin. rewrite Hb in Hin. by apply tierEntries_keys_sub in Hin.
  - by rewrite Hids, Hget.
  - rewrite removeUser_lastMatchAttempt. apply lookup_delete_eq.
  - by apply removeUser_clears_own.
  - intros p Hp. apply (removeUser_clears_pair k p q Hp). by apply (Hv k p).
  - intros x Hx. rewrite removeUser_queue. by apply jsmap_get_delete_ne.
Qed.

Lemma removeUser_leaves_no_trace_witness :
  "s1" ∉ jsmap_keys (queue (removeUser "s1" false twoQueued.1)).
Proof.
  assert (H : serverInv twoQueued.1).
  { apply (addUser_serverInv tickingWorld "s2" "u2" None); [discriminate|].
    apply (addUser_serverInv tickingWorld "s1" "u1" None); [discriminate|].
    apply emptyQueue_serverInv. }
  destruct (removeUser_leaves_no_trace "s1" twoQueued.1 H) as [Hk _].
  exact Hk.
Defined.

(** X11.  Pairing two queued sessions takes both out of the queue and makes
    each the partner of the other; clearing that pairing afterwards gives
    back the pairing table as it was before, but not the queue: both
    sessions stay out of it until they are enqueued again.  The invariant of
    the server holds after both steps. *)
Theorem createMatch_then_clearMatch a b q :
  serverInv q → a ∈ jsmap_keys (queue q) → b ∈ jsmap_keys (queue q) →
  getMatch a (createMatch a b q) = Some b
  ∧ getMatch b (createMatch a b q) = Some a
  ∧ (∀ x, x ∈ jsmap_keys (queue (createMatch a b q))
          ↔ x ≠ a ∧ x ≠ b ∧ x ∈ jsmap_keys (queue q))
  ∧ matches (clearMatch a b (createMatch a b q)) = matches q
  ∧ queue (clearMatch a b (createMatch a b q)) = queue (createMatch a b q)
  ∧ serverInv (createMatch a b q)
  ∧ serverInv (clearMatch a b (createMatch a b q)).
Proof.
  intros Hinv Ha Hb.
  pose proof (createMatch_serverInv a b q Ha Hb Hinv) as Hinv1.
  destruct Hinv as [_ (_ & Hdis & _ & _)].
  pose proof (Hdis a Ha) as Hma. pose proof (Hdis b Hb) as Hmb.
  assert (Hab : getMatch a (createMatch a b q) = Some b).
  { unfold getMatch. rewrite createMatch_matches.
    destruct (decide (a = b)) as [->|Hne]; [apply lookup_insert_eq|].
    rewrite lookup_insert_ne by done. apply lookup_insert_eq. }
  split; [exact Hab|]. split.
  { unfold getMatch. rewrite createMatch_matches. apply lookup_insert_eq. }
  split; [intros x; apply createMatch_queue_keys|]. split.
  { unfold clearMatch. cbn [matches withMatches]. rewrite createMatch_matches.
    destruct (decide (a = b)) as [->|Hne].
    - rewrite !delete_insert_eq. rewrite (delete_id (matches q) b) by done.
      by apply delete_id.
    - rewrite delete_insert_ne, !delete_insert_eq by done.
      rewrite (delete_id _ a) by done. by apply delete_id. }
  split; [done|]. split; [exact Hinv1|].
  by apply clearMatch_serverInv.
Qed.

Lemma createMatch_then_clearMatch_witness :
  getMatch "s1" (createMatch "s1" "s2" twoQueued.1) = Some "s2"
  ∧ matches (clearMatch "s1" "s2" (createMatch "s1" "s2" twoQueued.1))
    = matches twoQueued.1.
Proof.
  assert (H : serverInv twoQueued.1).
  { apply (addUser_serverInv tickingWorld "s2" "u2" None); [discriminate|].
    apply (addUser_serverInv tickingWorld "s1" "u1" None); [discriminate|].
    apply emptyQueue_serverInv. }
  assert (H1 : "s1" ∈ jsmap_keys (queue twoQueued.1)).
  { vm_compute. apply elem_of_cons. by left. }
  assert (H2 : "s2" ∈ jsmap_keys (queue twoQueued.1)).
  { vm_compute. apply elem_of_cons. right. apply elem_of_cons. by left. }
  destruct (createMatch_then_clearMatch "s1" "s2" twoQueued.1 H H1 H2)
    as (Hab & _ & _ & Hm & _).
  split; [exact Hab | exact Hm].
Defined.

(** ** A driver whose session has left the queue *)

Lemma updateDriver_lookup d f s dr :
  drivers s !! d = Some dr → drivers (updateDriver d f s) !! d = Some (f dr).
Proof.
  intros Hd. unfold updateDriver. rewrite Hd. cbn [drivers setDrivers].
  apply list_lookup_insert_eq. by eapply lookup_lt_Some.
Qed.

Lemma clearTimeout_timers t s e : e ∈ timers (clearTimeout t s) → e ∈ timers s.
Proof.
  cbn [timers clearTimeout setTimers]. rewrite !list_elem_of_In, filter_In. tauto.
Qed.

Lemma updateDriver_timers d f s : timers (updateDriver d f s) = timers s.
Proof. unfold updateDriver. by destruct (drivers s !! d). Qed.

Lemma stopOwnTimer_effect d s dr :
  drivers s !! d = Some dr →
  (∃ dr', drivers (stopOwnTimer d s) !! d = Some dr' ∧ isCancelled dr' = isCancelled dr)
  ∧ (∀ e, e ∈ timers (stopOwnTimer d s) → e ∈ timers s).
Proof.
  intros Hd. unfold stopOwnTimer. rewrite Hd.
  destruct (matchmakingInterval dr) as [t|]; [|split; [by exists dr | done]].
  cbn [drivers timers setIntervals]. split.
  - exists (withInterval None dr). split; [|done].
    by apply updateDriver_lookup.
  - intros e. rewrite updateDriver_timers. apply clearTimeout_timers.
Qed.

Lemma cancelSelf_effect d sid s dr :
  drivers s !! d = Some dr →
  (∃ dr', drivers (cancelSelf d sid s) !! d = Some dr' ∧ isCancelled dr' = true)
  ∧ (∀ e, e ∈ timers (cancelSelf d sid s) → e ∈ timers s).
Proof.
  intros Hd. unfold cancelSelf.
  set (s2 := setCancelled _ (updateDriver d cancelDriver s)).
  assert (Hd2 : drivers s2 !! d = Some (cancelDriver dr))
    by (by apply updateDriver_lookup).
  destruct (stopOwnTimer_effect d s2 _ Hd2) as [(dr' & Hdr' & Hc) Ht].
  split; [by exists dr'|].
  intros e He. apply Ht in He. cbn [s2 timers setCancelled] in He.
  by rewrite updateDriver_timers in He.
Qed.

(** X12.  When the timer of a search driver fires after its session has left
    the queue (after cancel-match, a skip, or because the session was paired
    by another driver), the tick changes neither the queue nor the pairing
    table, emits nothing, reads no clock, schedules no new timer, and leaves
    the driver dead: it will not poll again. *)
Theorem pollTick_unqueued_stops W d dr s :
  drivers s !! d = Some dr →
  jsmap_get (driverSocket dr) (queue (mq s)) = None →
  mq (pollTick W d s) = mq s
  ∧ outbox (pollTick W d s) = outbox s
  ∧ runtime (pollTick W d s) = runtime s
  ∧ (∀ e, e ∈ timers (pollTick W d s) → e ∈ timers s)
  ∧ driverLive d (pollTick W d s) = false.
Proof.
  intros Hd Hq. unfold pollTick.
  destruct (driverLive d s) eqn:Hlive; [|by rewrite Hlive].
  assert (Hchk : checkForMatch W d s = cancelSelf d (driverSocket dr) s).
  { unfold checkForMatch. rewrite Hd.
    unfold driverLive in Hlive. rewrite Hd in Hlive.
    apply andb_true_iff in Hlive as [Hlive _].
    apply andb_true_iff in Hlive as [Hc1 Hc2].
    apply negb_true_iff in Hc1. apply negb_true_iff in Hc2.
    rewrite Hc1, Hc2. cbn [orb]. unfold jsmap_has. by rewrite Hq. }
  rewrite Hchk.
  destruct (cancelSelf_sameCore d (driverSocket dr) s) as (Hmq & Hout & Hrt & _).
  destruct (cancelSelf_effect d (driverSocket dr) s dr Hd) as [(dr' & Hdr' & Hc) Ht].
  assert (Hdead : driverLive d (cancelSelf d (driverSocket dr) s) = false).
  { unfold driverLive. by rewrite Hdr', Hc. }
  rewrite Hdead. done.
Qed.

Lemma pollTick_unqueued_stops_witness :
  outbox (pollTick tickingWorld 0 (onCancelMatch "s1" searchingServer))
  = outbox (onCancelMatch "s1" searchingServer).
Proof.
  destruct (drivers (onCancelMatch "s1" searchingServer) !! 0%nat) as [dr|] eqn:E;
    [|vm_compute in E; discriminate E].
  assert (Hq : jsmap_get (driverSocket dr)
                 (queue (mq (onCancelMatch "s1" searchingServer))) = None).
  { vm_compute in E. injection E as <-. vm_compute. reflexivity. }
  destruct (pollTick_unqueued_stops tickingWorld 0 dr
              (onCancelMatch "s1" searchingServer) E Hq) as (_ & Hout & _).
  exact Hout.
Defined.

(** ** [SimpleCache] *)

(** X13.  A value stored with [set] is returned by every later [get] of
    the same key that reads a clock value not after the expiry time (the
    clock at the time of [set] plus the TTL, 60 s by default), and by none
    that reads a later one; an expired [get] also deletes the entry.  A
    [set] does not change what [get] returns for any other key. *)
Theorem cache_get_after_set {T : Type} W key (v : T) ttl cache rt rt' :
  (cacheGet W key (cacheSet W key v ttl cache rt).1 rt').1.1
  = (if now W (clockReads rt') <=? now W (clockReads rt) + default 60 ttl * 1000
     then Some v else None)
  ∧ (now W (clockReads rt) + default 60 ttl * 1000 < now W (clockReads rt') →
     (cacheGet W key (cacheSet W key v ttl cache rt).1 rt').1.2 !! key = None)
  ∧ (∀ k, k ≠ key →
       (cacheGet W k (cacheSet W key v ttl cache rt).1 rt').1.1
       = (cacheGet W k cache rt').1.1).
Proof.
  unfold cacheSet, cacheGet, dateNow. cbn [fst snd].
  rewrite lookup_insert_eq. cbn [expiresAt value].
  split; [|split].
  - destruct (Z.ltb_spec (now W (clockReads rt) + default 60 ttl * 1000)
                (now W (clockReads rt')));
      destruct (Z.leb_spec (now W (clockReads rt'))
                  (now W (clockReads rt) + default 60 ttl * 1000)); try lia; done.
  - intros Hlt. apply Z.ltb_lt in Hlt. rewrite Hlt. cbn [fst snd].
    apply lookup_delete_eq.
  - intros k Hk. rewrite lookup_insert_ne by done.
    destruct (cache !! k) as [e|]; [|done].
    by destruct (expiresAt e <? now W (clockReads rt')).
Qed.

(** X14.  [cleanup] removes exactly the entries that are expired at the
    clock value it reads, and, if the clock does not run backwards, it is
    invisible to every later [get]: the [get] returns what it would have
    returned without the [cleanup]. *)
Theorem cacheCleanup_transparent {T : Type} W (cache : gmap string (CacheEntry T)) rt rt' :
  now W (clockReads rt) <= now W (clockReads rt') →
  (∀ k e, (cacheCleanup W cache rt).1 !! k = Some e
          ↔ cache !! k = Some e ∧ now W (clockReads rt) <= expiresAt e)
  ∧ (∀ key, (cacheGet W key (cacheCleanup W cache rt).1 rt').1.1
            = (cacheGet W key cache rt').1.1).
Proof.
  intros Hclock. unfold cacheCleanup, dateNow. cbn [fst snd].
  assert (Hspec : ∀ k e,
            filter (λ kv : string * CacheEntry T, ¬ expiresAt kv.2 < now W (clockReads rt))
              cache !! k = Some e
            ↔ cache !! k = Some e ∧ now W (clockReads rt) <= expiresAt e).
  { intros k e. rewrite map_lookup_filter_Some. cbn [snd]. split; intros [? ?]; split; try done; lia. }
  split; [exact Hspec|].
  intros key. unfold cacheGet, dateNow.
  destruct (filter _ cache !! key) as [e|] eqn:E.
  - apply Hspec in E as [E He]. rewrite E.
    by destruct (expiresAt e <? now W (clockReads rt')).
  - destruct (cache !! key) as [e|] eqn:E'; [|done].
    destruct (Z.ltb_spec (expiresAt e) (now W (clockReads rt'))); [done|].
    assert (Hin : filter (λ kv : string * CacheEntry T,
                            ¬ expiresAt kv.2 < now W (clockReads rt)) cache !! key = Some e)
      by (apply Hspec; split; [done | lia]).
    congruence.
Qed.

Lemma cacheCleanup_transparent_witness :
  (cacheGet tickingWorld "k"
     (cacheCleanup tickingWorld
        (cacheSet tickingWorld "k" 7 (Some 0) ∅ startRuntime).1
        {| clockReads := 1; randomDraws := 0 |}).1
     {| clockReads := 2; randomDraws := 0 |}).1.1
  = (cacheGet tickingWorld "k"
       (cacheSet tickingWorld "k" 7 (Some 0) ∅ startRuntime).1
       {| clockReads := 2; randomDraws := 0 |}).1.1.
Proof.
  assert (H : now tickingWorld (clockReads {| clockReads := 1; randomDraws := 0 |})
              <= now tickingWorld (clockReads {| clockReads := 2; randomDraws := 0 |}))
    by (cbn; lia).
  destruct (cacheCleanup_transparent tickingWorld
              (cacheSet tickingWorld "k" 7 (Some 0) ∅ startRuntime).1
              {| clockReads := 1; randomDraws := 0 |}
              {| clockReads := 2; randomDraws := 0 |} H) as [_ Hget].
  exact (Hget "k").
Defined.

(** ** Signaling and presence events *)

Lemma emitSignal_target to e s r : r ∈ emitSignal to e s → relTarget r = to.
Proof.
  unfold emitSignal. destruct (sockets s !! to);
    intros H; apply list_elem_of_singleton in H; by subst r.
Qed.

Lemma emitToPartner_target sid e s r :
  r ∈ emitToPartner sid e s →
  relRoute r = ViaRoom ∧ relTarget r ≠ "" ∧ getMatch sid (mq s) = Some (relTarget r).
Proof.
  unfold emitToPartner. destruct (getMatch sid (mq s)) as [m|]; [|by inversion 1].
  destruct (jsTruthy m) eqn:Hm; [|by inversion 1].
  intros H. apply list_elem_of_singleton in H. subst r. cbn.
  apply jsTruthy_true in Hm. done.
Qed.

(** X15.  The WebRTC signals (offer, answer, ice-candidate) are relayed
    only when the addressee named by the sender is the sender's current
    partner, and then to that partner only; the presence events
    (video-toggle, audio-toggle, typing, stop-typing) go to the room of the
    sender's partner only.  With a symmetric pairing the receiver is a
    session whose own partner is the sender. *)
Theorem relay_targets_partner sid s :
  pairingSymmetric (mq s) →
  (∀ payload to r,
     r ∈ onOffer sid payload to s ++ onAnswer sid payload to s
         ++ onIceCandidate sid payload to s →
     relTarget r = to ∧ to ≠ ""
     ∧ getMatch sid (mq s) = Some to ∧ getMatch to (mq s) = Some sid)
  ∧ (∀ enabled r,
       r ∈ onVideoToggle sid enabled s ++ onAudioToggle sid enabled s
           ++ onTyping sid s ++ onStopTyping sid s →
       relRoute r = ViaRoom ∧ relTarget r ≠ ""
       ∧ getMatch sid (mq s) = Some (relTarget r)
       ∧ getMatch (relTarget r) (mq s) = Some sid).
Proof.
  intros Hsym. split.
  - intros payload to r Hr.
    assert (H : ∃ e, r ∈ match getMatch sid (mq s) with
                         | Some m => if jsTruthy m && String.eqb m to
                                     then emitSignal to e s else []
                         | None => []
                         end).
    { rewrite !elem_of_app in Hr. destruct Hr as [Hr|[Hr|Hr]]; eexists; exact Hr. }
    destruct H as [e H].
    destruct (getMatch sid (mq s)) as [m|] eqn:Hm; [|by inversion H].
    destruct (jsTruthy m) eqn:Ht; [|by inversion H].
    destruct (String.eqb_spec m to) as [->|Hne]; [|by inversion H].
    cbn [andb] in H. apply emitSignal_target in H. apply jsTruthy_true in Ht.
    repeat split; try done. by apply Hsym.
  - intros enabled r Hr.
    assert (H : ∃ e, r ∈ emitToPartner sid e s).
    { rewrite !elem_of_app in Hr. destruct Hr as [Hr|[Hr|[Hr|Hr]]]; eexists; exact Hr. }
    destruct H as [e H]. apply emitToPartner_target in H as (Hroute & Hne & Hm).
    repeat split; try done. by apply Hsym.
Qed.

Lemma relay_targets_partner_witness :
  onOffer "s1" "sdp" "s2" pairedServer
  = [{| relTarget := "s2"; relRoute := Direct; relEvent := RelOffer "sdp" "s1" |}]
  ∧ getMatch "s2" (mq pairedServer) = Some "s1".
Proof.
  assert (H : pairingSymmetric (mq pairedServer)) by apply pairedServer_serverInv.
  assert (Hr : onOffer "s1" "sdp" "s2" pairedServer
               = [{| relTarget := "s2"; relRoute := Direct;
                     relEvent := RelOffer "sdp" "s1" |}]) by (vm_compute; reflexivity).
  split; [exact Hr|].
  destruct (relay_targets_partner "s1" pairedServer H) as [Hsig _].
  destruct (Hsig "sdp" "s2"
              {| relTarget := "s2"; relRoute := Direct; relEvent := RelOffer "sdp" "s1" |})
    as (_ & _ & _ & Hback).
  - apply elem_of_app. left. rewrite Hr. apply list_elem_of_singleton. reflexivity.
  - exact Hback.
Defined.

(** X16.  After a session with a partner has sent skip, every signal and
    presence event either of the two sends is dropped: nothing is relayed
    between former partners. *)
Theorem skip_cuts_signaling sid pid data s x :
  getMatch sid (mq s) = Some pid → pid ≠ "" → x = sid ∨ x = pid →
  (∀ payload to,
     onOffer x payload to (onSkip sid data s) = []
     ∧ onAnswer x payload to (onSkip sid data s) = []
     ∧ onIceCandidate x payload to (onSkip sid data s) = [])
  ∧ (∀ enabled,
       onVideoToggle x enabled (onSkip sid data s) = []
       ∧ onAudioToggle x enabled (onSkip sid data s) = [])
  ∧ onTyping x (onSkip sid data s) = []
  ∧ onStopTyping x (onSkip sid data s) = [].
Proof.
  intros Hm Hpid Hx.
  assert (Hnone : getMatch x (mq (onSkip sid data s)) = None).
  { unfold onSkip. rewrite Hm. apply jsTruthy_true in Hpid. rewrite Hpid.
    rewrite skipMatched_mq. unfold getMatch. apply isMatched_false.
    destruct (clearMatch_unmatches sid pid (mq s)) as [H1 H2].
    by destruct Hx as [-> | ->]. }
  unfold onOffer, onAnswer, onIceCandidate, onVideoToggle, onAudioToggle, onTyping,
    onStopTyping, emitToPartner.
  rewrite Hnone. done.
Qed.

Lemma skip_cuts_signaling_witness :
  onOffer "s2" "sdp" "s1" (onSkip "s1" plainSkip pairedServer) = [].
Proof.
  assert (H1 : getMatch "s1" (mq pairedServer) = Some "s2") by (vm_compute; reflexivity).
  assert (H2 : "s2" ≠ "") by discriminate.
  destruct (skip_cuts_signaling "s1" "s2" plainSkip pairedServer "s2" H1 H2 (or_intror eq_refl))
    as [Hsig _].
  destruct (Hsig "sdp" "s1") as [Hoffer _].
  exact Hoffer.
Defined.

(** ** send-message changes nothing but the outbox and the clock *)

(** X17.  Handling send-message changes neither the queue, the pairing
    table, the sockets, the drivers, the timers nor the pending
    continuations; whatever it emits goes to the sender or to the sender's
    partner; and a message the profanity filter vetoes reaches nobody: the
    only thing then emitted goes to the sender and is no receive-message,
    and the clock is not read. *)
Theorem sendMessage_frame W sid message s :
  mq (onSendMessage W sid message s) = mq s
  ∧ sockets (onSendMessage W sid message s) = sockets s
  ∧ drivers (onSendMessage W sid message s) = drivers s
  ∧ timers (onSendMessage W sid message s) = timers s
  ∧ awaiting (onSendMessage W sid message s) = awaiting s
  ∧ ∃ l, outbox (onSendMessage W sid message s) = outbox s ++ l
         ∧ (∀ e, e ∈ l → target e = sid ∨ getMatch sid (mq s) = Some (target e))
         ∧ (isProfane W message = true →
            runtime (onSendMessage W sid message s) = runtime s
            ∧ ∀ e, e ∈ l →
                target e = sid ∧ ∀ m t f, event e ≠ EvReceiveMessage m t f).
Proof.
  unfold onSendMessage.
  assert (Herr : ∀ ev, (∀ m t f, ev ≠ EvReceiveMessage m t f) →
            mq (emitTo sid ev s) = mq s
            ∧ sockets (emitTo sid ev s) = sockets s
            ∧ drivers (emitTo sid ev s) = drivers s
            ∧ timers (emitTo sid ev s) = timers s
            ∧ awaiting (emitTo sid ev s) = awaiting s
            ∧ ∃ l, outbox (emitTo sid ev s) = outbox s ++ l
                   ∧ (∀ e, e ∈ l → target e = sid ∨ getMatch sid (mq s) = Some (target e))
                   ∧ (isProfane W message = true →
                      runtime (emitTo sid ev s) = runtime s
                      ∧ ∀ e, e ∈ l →
                          target e = sid ∧ ∀ m t f, event e ≠ EvReceiveMessage m t f)).
  { intros ev Hev. repeat (split; [reflexivity|]). eexists. split; [reflexivity|].
    split.
    - intros e He. apply list_elem_of_singleton in He. subst e. by left.
    - intros _. split; [reflexivity|]. intros e He.
      apply list_elem_of_singleton in He. subst e. split; [done|]. exact Hev. }
  destruct (getMatch sid (mq s)) as [pid|] eqn:Hm; [|by apply Herr].
  destruct (jsTruthy pid); [|by apply Herr].
  destruct (isProfane W message) eqn:Hp; [by apply Herr|].
  unfold dateNow. cbv beta iota zeta.
  cbn [sockets runtime clockReads randomDraws emitTo setOutbox setRuntime outbox].
  destruct (sockets s !! pid) as [so|]; [destruct (connected so)|];
    cbn [mq sockets drivers timers awaiting outbox emitTo emitToRoom setOutbox setRuntime];
    repeat (split; [reflexivity|]);
    rewrite <- app_assoc; eexists; (split; [reflexivity|]);
    (split; [|done]);
    intros e He; cbn [app] in He;
    apply elem_of_cons in He as [->|He]; [by left| |by left| |by left|];
    apply list_elem_of_singleton in He; subst e; by right.
Qed.

(** ** cancel-match and find-match of a paired session *)

(** X18.  When a session whose socket still carries the cancel-match
    listener of [setupSocketIO] sends cancel-match, it ends up neither
    queued nor paired, the partner it had is left without a partner, and all
    that is emitted is match-cancelled to the session itself, at least once:
    the partner is told nothing. *)
Theorem cancelMatch_dissolves_silently sid s so :
  matchValuesTruthy (mq s) →
  sockets s !! sid = Some so → baseCancelListener so = true →
  (sid ∉ jsmap_keys (queue (mq (onCancelMatch sid s))))
  ∧ getMatch sid (mq (onCancelMatch sid s)) = None
  ∧ (∀ p, getMatch sid (mq s) = Some p → getMatch p (mq (onCancelMatch sid s)) = None)
  ∧ ∃ l, outbox (onCancelMatch sid s) = outbox s ++ l
         ∧ l ≠ []
         ∧ ∀ e, e ∈ l → e = {| target := sid; route := Direct; event := EvMatchCancelled |}.
Proof.
  intros Hv Hso Hbase. unfold onCancelMatch. rewrite Hso, Hbase.
  set (J := fun st : Server =>
              (sid ∉ jsmap_keys (queue (mq st)))
              ∧ getMatch sid (mq st) = None
              ∧ (∀ p, getMatch sid (mq s) = Some p → getMatch p (mq st) = None)
              ∧ ∃ l, outbox st = outbox s ++ l
                     ∧ l ≠ []
                     ∧ ∀ e, e ∈ l →
                         e = {| target := sid; route := Direct;
                                event := EvMatchCancelled |}).
  apply (forDriversOf_preserves J).
  - intros d st (Hq & Hm & Hp & l & Hout & Hne & Hl).
    unfold J, driverCancel.
    destruct (cancelSelf_sameCore d sid st) as (Hmq & Hout' & _).
    set (s1 := cancelSelf d sid st) in *.
    cbn [mq outbox emitTo setOutbox setMq]. rewrite Hmq, Hout'.
    split; [|split; [|split]].
    + intros Hin. by apply removeUser_queue_keys in Hin as [? _].
    + by apply removeUser_matches_None.
    + intros p Hpp. apply removeUser_matches_None. by apply Hp.
    + exists (l ++ [{| target := sid; route := Direct; event := EvMatchCancelled |}]).
      rewrite Hout, <- app_assoc. split; [done|]. split.
      * intros H. by apply app_eq_nil in H as [_ ?].
      * intros e He. apply elem_of_app in He as [He|He]; [by apply Hl|].
        by apply list_elem_of_singleton in He.
  - unfold J, baseCancel. cbn [mq outbox emitTo setOutbox setMq].
    split; [|split; [|split]].
    + intros Hin. by apply removeUser_queue_keys in Hin as [? _].
    + by apply removeUser_clears_own.
    + intros p Hpp. apply (removeUser_clears_pair sid p (mq s) Hpp). by apply (Hv sid p).
    + eexists. split; [reflexivity|]. split; [done|].
      intros e He. by apply list_elem_of_singleton in He.
Qed.

Lemma cancelMatch_dissolves_silently_witness :
  getMatch "s1" (mq (onCancelMatch "s1" pairedServer)) = None
  ∧ getMatch "s2" (mq (onCancelMatch "s1" pairedServer)) = None.
Proof.
  assert (Hv : matchValuesTruthy (mq pairedServer)) by apply pairedServer_serverInv.
  destruct (sockets pairedServer !! "s1") as [so|] eqn:E;
    [|vm_compute in E; discriminate E].
  assert (Hb : baseCancelListener so = true).
  { vm_compute in E. injection E as <-. reflexivity. }
  assert (Hm : getMatch "s1" (mq pairedServer) = Some "s2") by (vm_compute; reflexivity).
  destruct (cancelMatch_dissolves_silently "s1" pairedServer so Hv E Hb)
    as (_ & H1 & H2 & _).
  split; [exact H1 | exact (H2 "s2" Hm)].
Defined.

(** X19.  A find-match from a session that is paired dissolves the pairing
    on both sides before the block list is even fetched, and tells nobody:
    nothing is emitted, the queue and the drivers are untouched, no other
    pairing changes, and the rest of the handler is left pending. *)
Theorem findMatch_event_dissolves_pairing sid data s :
  matchValuesTruthy (mq s) →
  outbox (onFindMatch sid data s) = outbox s
  ∧ queue (mq (onFindMatch sid data s)) = queue (mq s)
  ∧ drivers (onFindMatch sid data s) = drivers s
  ∧ getMatch sid (mq (onFindMatch sid data s)) = None
  ∧ (∀ p, getMatch sid (mq s) = Some p → getMatch p (mq (onFindMatch sid data s)) = None)
  ∧ (∀ x, x ≠ sid → getMatch sid (mq s) ≠ Some x →
            getMatch x (mq (onFindMatch sid data s)) = getMatch x (mq s))
  ∧ awaiting (onFindMatch sid data s)
    = awaiting s ++ [(nextAwait s, FindMatchResume sid data)].
Proof.
  intros Hv. unfold onFindMatch, isMatched, getMatch.
  destruct (matches (mq s) !! sid) as [p|] eqn:Hm.
  - rewrite bool_decide_eq_true_2 by done.
    pose proof (Hv sid p Hm) as Hp. apply jsTruthy_true in Hp. rewrite Hp.
    cbn [outbox mq drivers awaiting nextAwait setAwaiting setMq clearMatch withMatches
         matches queue].
    repeat (split; [reflexivity|]).
    split; [|split; [|split]]; try reflexivity.
    + destruct (decide (p = sid)) as [->|Hne]; [apply lookup_delete_eq|].
      rewrite lookup_delete_ne by done. apply lookup_delete_eq.
    + intros p' [= <-]. apply lookup_delete_eq.
    + intros x Hx Hxp. rewrite !lookup_delete_ne; [done | congruence | congruence].
  - rewrite bool_decide_eq_false_2 by (intros [? ?]; congruence).
    cbn [outbox mq drivers awaiting nextAwait setAwaiting].
    repeat (split; [reflexivity|]).
    split; [exact Hm|]. split; [intros p' Hp'; congruence|]. split; [done|reflexivity].
Qed.

Lemma findMatch_event_dissolves_pairing_witness :
  getMatch "s1" (mq (onFindMatch "s1" (findMatchOf "u1") pairedServer)) = None
  ∧ getMatch "s2" (mq (onFindMatch "s1" (findMatchOf "u1") pairedServer)) = None.
Proof.
  assert (Hv : matchValuesTruthy (mq pairedServer)) by apply pairedServer_serverInv.
  assert (Hm : getMatch "s1" (mq pairedServer) = Some "s2") by (vm_compute; reflexivity).
  destruct (findMatch_event_dissolves_pairing "s1" (findMatchOf "u1") pairedServer Hv)
    as (_ & _ & _ & H1 & H2 & _).
  split; [exact H1 | exact (H2 "s2" Hm)].
Defined.

(** ** The first check of a new search driver *)

(** X20.  When the block list of a find-match arrives (or the query fails)
    for a session with a non-empty id, the session is enqueued and its new
    driver checks at once, so the request is answered in the same turn:
    either with match-found, and the session is then paired with the
    session named in the event and no longer queued, or with searching
    (check count 1), and the session is then queued and unpaired. *)
Theorem findMatch_answered W sid data blocks s :
  sid ≠ "" → matchValuesTruthy (mq s) →
  (∃ m rest,
     outbox (resumeFindMatch W sid data blocks s)
     = outbox s
       ++ {| target := sid; route := Direct;
             event := EvMatchFound (socketId m) (userId m) (waitTime m) |} :: rest
     ∧ getMatch sid (mq (resumeFindMatch W sid data blocks s)) = Some (socketId m)
     ∧ sid ∉ jsmap_keys (queue (mq (resumeFindMatch W sid data blocks s))))
  ∨ (∃ pos,
       outbox (resumeFindMatch W sid data blocks s)
       = outbox s ++ [{| target := sid; route := Direct; event := EvSearching pos 1 |}]
       ∧ getMatch sid (mq (resumeFindMatch W sid data blocks s)) = None
       ∧ sid ∈ jsmap_keys (queue (mq (resumeFindMatch W sid data blocks s)))).
Proof.
  intros Hsid Hv. unfold resumeFindMatch.
  pose proof Hsid as Ht. apply jsTruthy_true in Ht. rewrite Ht. cbn [negb].
  set (prefs := match blocks with Some ids => _ | None => _ end).
  pose proof (addUser_queue_keys W sid (fm_userId data) prefs (mq s) (runtime s) sid) as Hk.
  pose proof (addUser_matches W sid (fm_userId data) prefs (mq s) (runtime s)) as Hma.
  destruct (addUser W sid (fm_userId data) prefs (mq s) (runtime s)) as [q rt].
  cbn [fst] in Hk, Hma.
  assert (Hq : sid ∈ jsmap_keys (queue q)) by (apply Hk; by left).
  assert (Hun : isMatched sid q = false).
  { apply isMatched_false. rewrite Hma. by apply removeUser_clears_own. }
  unfold handleMatchmaking.
  set (s0 := setRuntime rt (setMq q s)).
  set (dr := {| driverSocket := sid; isCancelled := false; matchmakingInterval := None;
                checkCount := 0; cancelListener := false |}).
  set (s3 := setCancelled _ (setIntervals _ (setDrivers _ s0))).
  set (d := length (drivers s0)).
  assert (Hd : drivers s3 !! d = Some dr).
  { cbn [s3 drivers setCancelled setIntervals setDrivers].
    rewrite lookup_app_r by (unfold d; lia).
    unfold d. by rewrite Nat.sub_diag. }
  assert (Hflag : cancelledFlag (driverSocket dr) s3 = false).
  { unfold cancelledFlag. cbn [s3 matchmakingCancelled setCancelled dr driverSocket].
    by rewrite lookup_insert_eq. }
  pose proof (checkForMatch_outcome W d dr s3 Hd eq_refl Hflag Hq Hun) as Hout.
  set (s4 := checkForMatch W d s3) in *.
  set (s5 := match drivers s4 !! d with
             | Some dr => if isCancelled dr then s4 else scheduleNext d s4
             | None => s4
             end).
  assert (H5 : sameCore s4 s5).
  { unfold s5. destruct (drivers s4 !! d) as [dr'|]; [|apply sameCore_refl].
    destruct (isCancelled dr'); [apply sameCore_refl | apply scheduleNext_sameCore]. }
  assert (H6 : sameCore s4 (updateDriver d (withCancelListener true) s5)).
  { eapply sameCore_trans; [exact H5|]. by apply updateDriver_sameCore. }
  destruct H6 as (-> & -> & _).
  cbn [dr driverSocket checkCount] in Hout.
  change (mq s3) with q in Hout. change (runtime s3) with rt in Hout.
  change (outbox s3) with (outbox s) in Hout.
  destruct Hout as [(m & r1 & r2 & Hf & Ho & Hmq)|(Hf & (pos & Ho) & Hmq)].
  - left. exists m. eexists. rewrite Ho, Hmq. split; [reflexivity|].
    split; [apply createMatch_getMatch|].
    intros Hin. apply createMatch_queue_keys in Hin. tauto.
  - right. exists pos. rewrite Ho, Hmq. split; [reflexivity|].
    split.
    + unfold getMatch. rewrite findMatch_matches. by apply isMatched_false.
    + by rewrite findMatch_queue_keys.
Qed.

Lemma findMatch_answered_witness :
  ∃ pos,
    outbox (resumeFindMatch tickingWorld "s1" (findMatchOf "u1") (Some [])
              (onConnection "s1" initialServer))
    = [{| target := "s1"; route := Direct; event := EvSearching pos 1 |}].
Proof.
  assert (H1 : "s1" ≠ "") by discriminate.
  assert (H2 : matchValuesTruthy (mq (onConnection "s1" initialServer))).
  { intros k v H. vm_compute in H. discriminate H. }
  destruct (findMatch_answered tickingWorld "s1" (findMatchOf "u1") (Some [])
              (onConnection "s1" initialServer) H1 H2)
    as [(m & rest & _ & Hm & _)|(pos & Ho & _)].
  - vm_compute in Hm. discriminate Hm.
  - exists pos. exact Ho.
Defined.

(** ** Disconnect stops every driver of the session *)

(** How a driver of the list after [updateDriver] relates to the list
    before. *)
Lemma updateDriver_back d f s d' x :
  drivers (updateDriver d f s) !! d' = Some x →
  ∃ dr', drivers s !! d' = Some dr' ∧ ((d' ≠ d ∧ x = dr') ∨ (d' = d ∧ x = f dr')).
Proof.
  unfold updateDriver. destruct (drivers s !! d) as [dr|] eqn:Hd.
  - cbn [drivers setDrivers]. intros Hx.
    destruct (decide (d' = d)) as [->|Hne].
    + rewrite list_lookup_insert_eq in Hx by (by eapply lookup_lt_Some).
      injection Hx as <-. exists dr. split; [done|]. right. done.
    + rewrite list_lookup_insert_ne in Hx by done. exists x. split; [done|]. by left.
  - intros Hx. exists x. split; [done|]. left. split; [congruence | done].
Qed.

(** [cancelSelf] keeps every driver on its socket, cancels its own and
    revives none. *)
Lemma cancelSelf_back d sid s d' x :
  drivers (cancelSelf d sid s) !! d' = Some x →
  ∃ dr', drivers s !! d' = Some dr'
         ∧ driverSocket x = driverSocket dr'
         ∧ (isCancelled dr' = true → isCancelled x = true)
         ∧ (d' = d → isCancelled x = true).
Proof.
  unfold cancelSelf.
  set (s2 := setCancelled _ (updateDriver d cancelDriver s)).
  assert (H2 : ∀ y, drivers s2 !! d' = Some y →
            ∃ dr', drivers s !! d' = Some dr'
                   ∧ driverSocket y = driverSocket dr'
                   ∧ (isCancelled dr' = true → isCancelled y = true)
                   ∧ (d' = d → isCancelled y = true)).
  { intros y Hy. cbn [s2 drivers setCancelled] in Hy.
    apply updateDriver_back in Hy as (dr' & Hdr' & [[Hne ->]|[-> ->]]).
    - exists dr'. by repeat split.
    - exists dr'. by repeat split. }
  intros Hx. unfold stopOwnTimer in Hx.
  destruct (drivers s2 !! d) as [dr2|] eqn:Hd2; [|by apply H2].
  destruct (matchmakingInterval dr2) as [t|]; [|by apply H2].
  cbn [drivers setIntervals] in Hx.
  apply updateDriver_back in Hx as (y & Hy & Hxy).
  change (drivers (clearTimeout t s2)) with (drivers s2) in Hy.
  destruct (H2 y Hy) as (dr' & Hdr' & Hs & Hc & Hown).
  exists dr'. split; [done|].
  destruct Hxy as [[_ ->]|[-> ->]]; [done|]. cbn [withInterval driverSocket isCancelled]. done.
Qed.

Lemma driverDisconnect_back d sid s d' x :
  drivers (driverDisconnect d sid s) !! d' = Some x →
  ∃ dr', drivers s !! d' = Some dr'
         ∧ driverSocket x = driverSocket dr'
         ∧ (isCancelled dr' = true → isCancelled x = true)
         ∧ (d' = d → isCancelled x = true).
Proof.
  unfold driverDisconnect. intros Hx. apply (cancelSelf_back d sid s d' x).
  by destruct (negb _).
Qed.

(** After the listeners of the positions in [l] ran, a driver of [sid] is
    cancelled if it is at one of these positions or was cancelled before. *)
Lemma disconnect_fold_cancels sid l s d x :
  drivers (fold_left
             (fun st d =>
                match drivers st !! d with
                | Some dr =>
                    if String.eqb (driverSocket dr) sid && (negb false || cancelListener dr)
                    then driverDisconnect d sid st
                    else st
                | None => st
                end) l s) !! d = Some x →
  ∃ dr', drivers s !! d = Some dr'
         ∧ driverSocket x = driverSocket dr'
         ∧ (isCancelled dr' = true → isCancelled x = true)
         ∧ (d ∈ l → driverSocket dr' = sid → isCancelled x = true).
Proof.
  revert s. induction l as [|d0 l IH]; intros s Hx; cbn [fold_left] in Hx.
  { exists x. repeat split; try done. by inversion 1. }
  apply IH in Hx as (y & Hy & Hs & Hc & Hl).
  assert (Hstep : ∃ dr', drivers s !! d = Some dr'
                    ∧ driverSocket y = driverSocket dr'
                    ∧ (isCancelled dr' = true → isCancelled y = true)
                    ∧ (d = d0 → driverSocket dr' = sid → isCancelled y = true)).
  { destruct (drivers s !! d0) as [dr0|] eqn:Hd0.
    - destruct (String.eqb_spec (driverSocket dr0) sid) as [He|Hne]; cbn [negb orb andb] in Hy.
      + apply driverDisconnect_back in Hy as (dr' & Hdr' & Hs' & Hc' & Hown).
        exists dr'. repeat split; try done. intros Hd _. by apply Hown.
      + exists y. repeat split; try done. intros -> Hsid. congruence.
    - exists y. repeat split; try done. intros ->. congruence. }
  destruct Hstep as (dr' & Hdr' & Hs' & Hc' & Hown).
  exists dr'. split; [done|]. split; [congruence|]. split; [auto|].
  intros Hin Hsid. apply elem_of_cons in Hin as [->|Hin].
  - apply Hc. by apply Hown.
  - apply Hl; [done | congruence].
Qed.

(** X21.  In the state the 'disconnect' listeners of a session leave behind,
    the session is neither in [io.sockets.sockets] nor in the queue, and
    every search driver started for it so far is cancelled, so that its
    pending timer does nothing when it fires.  (This is about that state
    only: a find-match whose block list is still awaited when the socket
    closes is not stopped by the listeners.) *)
Theorem disconnect_stops_drivers sid s d dr :
  drivers (onDisconnect sid s) !! d = Some dr → driverSocket dr = sid →
  isCancelled dr = true
  ∧ driverLive d (onDisconnect sid s) = false
  ∧ sockets (onDisconnect sid s) !! sid = None
  ∧ (sid ∉ jsmap_keys (queue (mq (onDisconnect sid s)))).
Proof.
  intros Hd Hsid.
  set (J := fun st : Server =>
              sockets st !! sid = None ∧ (sid ∉ jsmap_keys (queue (mq st)))).
  assert (HJ : J (onDisconnect sid s)).
  { unfold onDisconnect. apply (forDriversOf_preserves J).
    - intros d0 st [Hso Hq]. unfold J, driverDisconnect.
      destruct (cancelSelf_sameCore d0 sid st) as (Hmq & _).
      assert (Hsock : sockets (cancelSelf d0 sid st) = sockets st).
      { unfold cancelSelf, stopOwnTimer.
        set (s2 := setCancelled _ (updateDriver d0 cancelDriver st)).
        assert (Hs2 : sockets s2 = sockets st).
        { cbn [s2 sockets setCancelled]. unfold updateDriver.
          by destruct (drivers st !! d0). }
        destruct (drivers s2 !! d0) as [dr2|]; [|done].
        destruct (matchmakingInterval dr2) as [t|]; [|done].
        cbn [sockets setIntervals]. unfold updateDriver.
        by destruct (drivers (clearTimeout t s2) !! d0). }
      destruct (negb _); cbn [sockets mq setMq setCancelled setIntervals];
        rewrite Hsock, Hmq; (split; [done|]); [|done].
      intros Hin. by apply removeUser_queue_keys in Hin as [? _].
    - unfold J. cbn [sockets mq setMq setSockets]. split; [apply lookup_delete_eq|].
      intros Hin. by apply removeUser_queue_keys in Hin as [? _]. }
  destruct HJ as [Hso Hq].
  assert (Hc : isCancelled dr = true).
  { unfold onDisconnect, forDriversOf in Hd.
    apply disconnect_fold_cancels in Hd as (dr' & Hdr' & Hs & _ & Hl).
    apply Hl; [|congruence].
    apply elem_of_seq. split; [lia|]. cbn [Nat.add].
    by eapply lookup_lt_Some. }
  split; [exact Hc|]. split; [|by split].
  unfold driverLive. by rewrite Hd, Hc.
Qed.

Lemma disconnect_stops_drivers_witness :
  driverLive 0 (onDisconnect "s1" searchingServer) = false.
Proof.
  destruct (drivers (onDisconnect "s1" searchingServer) !! 0%nat) as [dr|] eqn:E;
    [|vm_compute in E; discriminate E].
  assert (Hs : driverSocket dr = "s1").
  { vm_compute in E. injection E as <-. reflexivity. }
  destruct (disconnect_stops_drivers "s1" searchingServer 0 dr E Hs) as (_ & Hlive & _).
  exact Hlive.
Defined.

(** ** [generateNickname] *)

Lemma randomBelow_range W n rt :
  0 < n → (0 <= random W (randomDraws rt))%Q → (random W (randomDraws rt) < 1)%Q →
  0 <= (randomBelow W n rt).1 < n.
Proof.
  intros Hn H0 H1. unfold randomBelow, mathRandom. cbn [fst].
  set (r := random W (randomDraws rt)) in *.
  assert (Hn' : (0 < inject_Z n)%Q).
  { change 0%Q with (inject_Z 0). rewrite <- Zlt_Qlt. lia. }
  split.
  - change 0 with (Qfloor (inject_Z 0)) at 1. apply Qfloor_resp_le.
    change (inject_Z 0) with 0%Q. nra.
  - assert (Hlt : (r * inject_Z n < inject_Z n)%Q) by nra.
    pose proof (Qfloor_le (r * inject_Z n)) as Hfl.
    rewrite Zlt_Qlt. lra.
Qed.

Lemma jsIndex_in_range arr i :
  0 <= i < Z.of_nat (length arr) → ∃ x, jsIndex arr i = Some x ∧ x ∈ arr.
Proof.
  intros [H0 Hlt]. unfold jsIndex.
  destruct (Z.ltb_spec i 0); [lia|].
  destruct (arr !! Z.to_nat i) as [x|] eqn:E.
  - exists x. split; [done|]. by eapply list_elem_of_lookup_2.
  - apply lookup_ge_None in E. lia.
Qed.

(** X22.  With draws in [0, 1), [generateNickname] never indexes outside its
    two word lists: the adjective and the noun are words of the lists (never
    [undefined]), the number is between 0 and 9998, and three random numbers
    are drawn. *)
Theorem generateNickname_parts W rt :
  randomInUnit W →
  (∃ a, nickAdjective (generateNickname W rt).1 = Some a ∧ a ∈ adjectives)
  ∧ (∃ n, nickNoun (generateNickname W rt).1 = Some n ∧ n ∈ nouns)
  ∧ 0 <= nickNumber (generateNickname W rt).1 <= 9998
  ∧ randomDraws (generateNickname W rt).2 = S (S (S (randomDraws rt))).
Proof.
  intros Hr. unfold generateNickname.
  pose proof (randomBelow_range W (Z.of_nat (length adjectives)) rt) as H1.
  destruct (randomBelow W (Z.of_nat (length adjectives)) rt) as [i rt1] eqn:E1.
  assert (Hrt1 : randomDraws rt1 = S (randomDraws rt)).
  { unfold randomBelow, mathRandom in E1. by injection E1 as _ <-. }
  pose proof (randomBelow_range W (Z.of_nat (length nouns)) rt1) as H2.
  destruct (randomBelow W (Z.of_nat (length nouns)) rt1) as [j rt2] eqn:E2.
  assert (Hrt2 : randomDraws rt2 = S (randomDraws rt1)).
  { unfold randomBelow, mathRandom in E2. by injection E2 as _ <-. }
  pose proof (randomBelow_range W 9999 rt2) as H3.
  destruct (randomBelow W 9999 rt2) as [k rt3] eqn:E3.
  assert (Hrt3 : randomDraws rt3 = S (randomDraws rt2)).
  { unfold randomBelow, mathRandom in E3. by injection E3 as _ <-. }
  cbn [fst snd nickAdjective nickNoun nickNumber] in *.
  split; [|split; [|split]].
  - apply jsIndex_in_range. apply H1; [done | apply Hr | apply Hr].
  - apply jsIndex_in_range. apply H2; [done | apply Hr | apply Hr].
  - assert (0 <= k < 9999) by (apply H3; [lia | apply Hr | apply Hr]). lia.
  - congruence.
Qed.

Lemma generateNickname_parts_witness :
  ∃ a, nickAdjective (generateNickname tickingWorld startRuntime).1 = Some a
       ∧ a ∈ adjectives.
Proof.
  assert (H : randomInUnit tickingWorld) by (intros n; split; cbn; lra).
  destruct (generateNickname_parts tickingWorld startRuntime H) as [Ha _].
  exact Ha.
Defined.
